(** * dbibackend: the USB title server, embedded and verified

    A shallow embedding of [dbibackend.c]: the command header codec, the
    title cache, the three command handlers and the polling loop.

    Conventions of the embedding.
    - A byte is a [Byte.byte]; a buffer is a [list byte].
    - A C string is modelled by the bytes before its terminating NUL.
    - [uint32_t] and [uint64_t] values are [Z] with the wrap-around written
      out; [long] is 64 bits wide (LP64, the targets of the Makefile).
    - The byte order of the host is a parameter: the code stores integers
      through [uint32_t*] casts, in whatever order the host uses. *)

From Stdlib Require Import Strings.String Strings.Byte.
From Stdlib Require Import ZArith List Bool Lia.
Import ListNotations.
Local Open Scope Z_scope.

(** ** Constants of the source *)

Definition BUFFER_SEGMENT_DATA_SIZE : Z := 0x100000.
Definition MAX_PATH_LEN : Z := 4096.
Definition MAX_TITLES : Z := 1024.

(** [CommandID] *)
Definition CMD_EXIT : Z := 0.
Definition CMD_LIST_DEPRECATED : Z := 1.
Definition CMD_FILE_RANGE : Z := 2.
Definition CMD_LIST : Z := 3.

(** [CommandType] *)
Definition CMD_TYPE_REQUEST : Z := 0.
Definition CMD_TYPE_RESPONSE : Z := 1.
Definition CMD_TYPE_ACK : Z := 2.

(** [LIBUSB_ERROR_OVERFLOW]: the device offered more data than the buffer
    holds. *)
Definition LIBUSB_ERROR_OVERFLOW : Z := -8.

(** ** Bytes and C strings *)

Definition cstring := list byte.

Definition Z_of_byte (b : byte) : Z := Z.of_N (Byte.to_N b).

Definition byte_of_Z (z : Z) : byte :=
  match Byte.of_N (Z.to_N (z mod 256)) with
  | Some b => b
  | None => x00
  end.

Definition cstr (s : string) : cstring := list_byte_of_string s.

Definition len {A : Type} (l : list A) : Z := Z.of_nat (length l).

(** [take n l] and [drop n l] with a [Z] count, walking the list and not
    the number, so that a 64-bit offset costs no more than the list. *)
Fixpoint take {A : Type} (n : Z) (l : list A) : list A :=
  match l with
  | [] => []
  | x :: t => if n <=? 0 then [] else x :: take (n - 1) t
  end.

Fixpoint drop {A : Type} (n : Z) (l : list A) : list A :=
  match l with
  | [] => []
  | x :: t => if n <=? 0 then l else drop (n - 1) t
  end.

Fixpoint bytes_eqb (a b : list byte) : bool :=
  match a, b with
  | [], [] => true
  | x :: a', y :: b' => Byte.eqb x y && bytes_eqb a' b'
  | _, _ => false
  end.

(** [strcmp(a, b) == 0] *)
Definition strcmp_eq (a b : cstring) : bool := bytes_eqb a b.

(** [tolower] in the C locale *)
Definition tolower (b : byte) : byte :=
  let c := Z_of_byte b in
  if (65 <=? c) && (c <=? 90) then byte_of_Z (c + 32) else b.

(** [strcasecmp(a, b) == 0] *)
Definition strcasecmp_eq (a b : cstring) : bool :=
  bytes_eqb (map tolower a) (map tolower b).

(** [strncpy(dst, src, n)] followed by a NUL at [dst[n]]: the string left
    in [dst] when [src] is a C string. *)
Definition strncpy (src : cstring) (n : Z) : cstring := take n src.

(** ** Integers in memory *)

Inductive byte_order : Type := LittleEndian | BigEndian.

Fixpoint le_bytes (n : nat) (v : Z) : list byte :=
  match n with
  | O => []
  | S n' => byte_of_Z v :: le_bytes n' (v / 256)
  end.

Fixpoint le_value (bs : list byte) : Z :=
  match bs with
  | [] => 0
  | b :: bs' => Z_of_byte b + 256 * le_value bs'
  end.

Definition in_order (o : byte_order) (bs : list byte) : list byte :=
  match o with
  | LittleEndian => bs
  | BigEndian => rev bs
  end.

(** [*(uint32_t* )p = v] *)
Definition store32 (o : byte_order) (v : Z) : list byte :=
  in_order o (le_bytes 4 (v mod 2 ^ 32)).

(** [*(uintN_t* )(buf + off)] for a buffer whose known bytes are [buf];
    [None] when the access leaves the known bytes. *)
Definition load (o : byte_order) (width : Z) (buf : list byte) (off : Z)
  : option Z :=
  if (0 <=? off) && (off + width <=? len buf)
  then Some (le_value (in_order o (take width (drop off buf))))
  else None.

Definition load32 (o : byte_order) := load o 4.
Definition load64 (o : byte_order) := load o 8.

(** ** The command header *)

Definition MAGIC : list byte := cstr "DBI0".

(** The 16-byte header the handlers build: [memcpy(response, "DBI0", 4)]
    and the three stores at offsets 4, 8 and 12. *)
Definition make_header (o : byte_order) (cmd_type cmd_id data_size : Z)
  : list byte :=
  MAGIC ++ store32 o cmd_type ++ store32 o cmd_id ++ store32 o data_size.

Record CommandHeader : Type := mkHeader {
  magic : list byte;
  cmd_type : Z;
  cmd_id : Z;
  data_size : Z
}.

(** What [poll_commands] reads out of a received header: the first four
    bytes (compared with [memcmp]) and the three loads. *)
Definition read_header (o : byte_order) (buf : list byte)
  : option CommandHeader :=
  match load32 o buf 4, load32 o buf 8, load32 o buf 12 with
  | Some t, Some i, Some n => Some (mkHeader (take 4 buf) t i n)
  | _, _, _ => None
  end.

(** [memcmp(cmd_header, "DBI0", 4) == 0] *)
Definition magic_ok (h : CommandHeader) : bool := bytes_eqb (magic h) MAGIC.

(** ** The title cache *)

Record TitleEntry : Type := mkEntry {
  display_name : cstring;   (* char display_name[256] *)
  full_path : cstring       (* char full_path[MAX_PATH_LEN] *)
}.

(** [entries] is the whole array, [count] the number of live entries at
    its front; entries at or after [count] are stale. *)
Record TitleCache : Type := mkCache {
  entries : list TitleEntry;
  count : Z
}.

(** [TitleCache cache = {0}] *)
Definition empty_cache : TitleCache :=
  mkCache (repeat (mkEntry [] []) (Z.to_nat MAX_TITLES)) 0.

(** [a[i] = x]; an index outside the array changes nothing here (the
    callers keep the index inside). *)
Fixpoint array_set {A : Type} (i : Z) (x : A) (a : list A) : list A :=
  match a with
  | [] => []
  | y :: t => if i =? 0 then x :: t else y :: array_set (i - 1) x t
  end.

(** The live entries, [entries[0 .. count-1]]. *)
Definition live (cache : TitleCache) : list TitleEntry :=
  take (count cache) (entries cache).

(** *** [has_valid_extension] *)

Definition has_valid_extension (filename : cstring) : bool :=
  let l := len filename in
  if l <? 4 then false
  else
    let ext := drop (l - 4) filename in
    strcasecmp_eq ext (cstr ".nsp")
    || strcasecmp_eq ext (cstr ".xci")
    || strcasecmp_eq ext (cstr ".nsz").

(** *** The directory tree and [scan_directory] *)

(** What [stat] and [opendir] say about a directory entry, and what
    [readdir] yields for a directory, in its order. *)
Inductive node : Type :=
| RegularFile : node                       (* S_ISREG *)
| Directory : dirents -> node              (* S_ISDIR, opendir works *)
| ClosedDirectory : node                   (* S_ISDIR, opendir fails *)
| Special : node                           (* neither S_ISDIR nor S_ISREG *)
| Missing : node                           (* stat fails *)
with dirents : Type :=
| end_of_dir : dirents                     (* readdir returns NULL *)
| dirent : cstring -> node -> dirents -> dirents.

Scheme node_mut := Induction for node Sort Prop
  with dirents_mut := Induction for dirents Sort Prop.
Combined Scheme node_dirents_ind from node_mut, dirents_mut.

Fixpoint listing (es : list (cstring * node)) : dirents :=
  match es with
  | [] => end_of_dir
  | (d_name, child) :: rest => dirent d_name child (listing rest)
  end.

(** The state of a walk: the cache being filled, the paths handed to
    [stat], latest first (one per directory entry the loop body reaches),
    and whether the walk has gone down a recursion that has no end (the
    other two then say how far it had come). *)
Record scan_state : Type := mkScan {
  cache_of : TitleCache;
  examined : list cstring;
  runaway : bool
}.

(** [snprintf(full_path, sizeof(full_path), "%s/%s", path, d_name)] *)
Definition join_path (path d_name : cstring) : cstring :=
  take (MAX_PATH_LEN - 1) (path ++ cstr "/" ++ d_name).

(** [snprintf] did not have to cut the path short. *)
Definition path_fits (path d_name : cstring) : bool :=
  len (path ++ cstr "/" ++ d_name) <=? MAX_PATH_LEN - 1.

(** The two [strncpy] calls and [cache->count++]. *)
Definition add_title (d_name full : cstring) (cache : TitleCache) : TitleCache :=
  mkCache
    (array_set (count cache)
       (mkEntry (strncpy d_name 255) (strncpy full (MAX_PATH_LEN - 1)))
       (entries cache))
    (count cache + 1).

Definition is_dot (d_name : cstring) : bool :=
  strcmp_eq d_name (cstr ".") || strcmp_eq d_name (cstr "..").

(** Every entry of the listing is "." or "..": the loop body never gets
    past its first test. *)
Fixpoint only_dots (es : dirents) : bool :=
  match es with
  | end_of_dir => true
  | dirent d_name _ rest => is_dot d_name && only_dots rest
  end.

(** [scan_directory] is the function, [readdir_loop] its [while] loop.
    [full] is the string the source hands to [stat] and records.

    When the joined path fits, [stat] finds the entry just read, where
    it stands in the tree.

    When [snprintf] has cut the path short, [full] is another path, of
    [MAX_PATH_LEN - 1] bytes, and [stat full] is what the file system
    answers about that one.  A regular file there is recorded under the
    name of the entry just read, with the cut path.  A directory there
    is walked with [full] for its path: every path joined in it is cut
    back to [full] itself, so each of its entries (other than "." and
    "..") is found to be that same directory and walked again, one call
    inside the other, with nothing in the source to end it ([runaway]);
    if it has no such entry, or cannot be opened, the call comes back
    having done nothing.

    A call that does not come back leaves the loops around it where
    they stand. *)
Fixpoint scan_directory (stat : cstring -> node) (path : cstring) (d : node)
  (s : scan_state) {struct d} : scan_state :=
  match d with
  | Directory es => readdir_loop stat path es s
  | _ => s                                      (* opendir fails *)
  end
with readdir_loop (stat : cstring -> node) (path : cstring) (es : dirents)
  (s : scan_state) {struct es} : scan_state :=
  match es with
  | end_of_dir => s
  | dirent d_name child rest =>
      if negb (count (cache_of s) <? MAX_TITLES) then s
      else if is_dot d_name then readdir_loop stat path rest s
      else
        let full := join_path path d_name in
        let s := mkScan (cache_of s) (full :: examined s) (runaway s) in
        let recorded :=
          mkScan (add_title d_name full (cache_of s)) (examined s)
                 (runaway s) in
        if negb (path_fits path d_name) then
          match stat full with
          | Directory inside =>
              if only_dots inside then readdir_loop stat path rest s
              else mkScan (cache_of s) (examined s) true
          | RegularFile =>
              if has_valid_extension d_name
              then readdir_loop stat path rest recorded
              else readdir_loop stat path rest s
          | ClosedDirectory | Special | Missing =>
              readdir_loop stat path rest s
          end
        else
          match child with
          | Directory _ | ClosedDirectory =>
              let s' := scan_directory stat full child s in
              if runaway s' then s' else readdir_loop stat path rest s'
          | RegularFile =>
              if has_valid_extension d_name
              then readdir_loop stat path rest recorded
              else readdir_loop stat path rest s
          | Special | Missing => readdir_loop stat path rest s
          end
  end.

(** [cache->count = 0; scan_directory(work_dir, cache);] as the List
    handler does it. *)
Definition rescan (stat : cstring -> node) (work_dir : cstring) (root : node)
  (cache : TitleCache) : scan_state :=
  scan_directory stat work_dir root
    (mkScan (mkCache (entries cache) 0) [] false).

(** *** [find_title_path] *)

Fixpoint find_title_loop (es : list TitleEntry) (name : cstring) : cstring :=
  match es with
  | [] => name
  | e :: rest =>
      if strcmp_eq (display_name e) name then full_path e
      else find_title_loop rest name
  end.

Definition find_title_path (cache : TitleCache) (name : cstring) : cstring :=
  find_title_loop (live cache) name.

(** ** The catalog as the specification words it *)

(** Some tail of [name] equals [suffix] up to the case of letters. *)
Fixpoint ends_with_ci (name suffix : cstring) : bool :=
  strcasecmp_eq name suffix
  || match name with
     | [] => false
     | _ :: t => ends_with_ci t suffix
     end.

Definition is_title_name (name : cstring) : bool :=
  ends_with_ci name (cstr ".nsp")
  || ends_with_ci name (cstr ".xci")
  || ends_with_ci name (cstr ".nsz").

(** The number of regular files, at any depth under [d], whose name is a
    title name. *)
Fixpoint count_titles (d : node) : Z :=
  match d with
  | Directory es => count_titles_in es
  | _ => 0
  end
with count_titles_in (es : dirents) : Z :=
  match es with
  | end_of_dir => 0
  | dirent name child rest =>
      match child with
      | RegularFile => if is_title_name name then 1 else 0
      | _ => count_titles child
      end + count_titles_in rest
  end.

(** The number of directory entries at any depth under [d]. *)
Fixpoint count_entries (d : node) : Z :=
  match d with
  | Directory es => count_entries_in es
  | _ => 0
  end
with count_entries_in (es : dirents) : Z :=
  match es with
  | end_of_dir => 0
  | dirent _ child rest => 1 + count_entries child + count_entries_in rest
  end.

(** The tree lists children only (no entry is called "." or ".."), and
    every path joined on the way down from [path] fits [full_path]. *)
Fixpoint well_formed (path : cstring) (d : node) : bool :=
  match d with
  | Directory es => well_formed_in path es
  | _ => true
  end
with well_formed_in (path : cstring) (es : dirents) : bool :=
  match es with
  | end_of_dir => true
  | dirent name child rest =>
      negb (is_dot name) && path_fits path name
      && well_formed (join_path path name) child
      && well_formed_in path rest
  end.

(** ** The host, the device and the state of a session *)

(** What the device sends next: a transfer carrying bytes, or a failure
    of the link, reported by libusb as the negative code [- code]. *)
Inductive transfer : Type :=
| Received (data : list byte)
| Failed (code : positive).

(** What the process finds around it and does not change. *)
Record host : Type := mkHost {
  order : byte_order;
  malloc_ok : Z -> bool;                  (* malloc(n) returns a block *)
  fopen : cstring -> option (list byte);  (* fopen(path, "rb"): the file's bytes *)
  work_dir : cstring;
  titles : node;                          (* the tree at [work_dir] *)
  stat : cstring -> node;                 (* what stands at any other path *)
  max_offset : Z                          (* the largest offset the file system
                                             of the titles lets a stream seek to *)
}.

Record state : Type := mkState {
  inbound : list transfer;       (* transfers to come, next first *)
  outbound : list (list byte);   (* buffers handed to usb_write, oldest first *)
  cache : TitleCache
}.

Inductive result (A : Type) : Type :=
| Done (a : A) (s : state)   (* the call returns *)
| Blocked (s : state)        (* usb_read waits for ever: timeout 0, nothing to come *)
| Undefined (s : state)      (* the C program reads memory it does not own or
                                has not written, writes past a buffer, or
                                goes down a recursion that has no end *)
| OutOfFuel (s : state).     (* the bound on iterations was too small *)
Arguments Done {A} a s.
Arguments Blocked {A} s.
Arguments Undefined {A} s.
Arguments OutOfFuel {A} s.

Definition M (A : Type) : Type := state -> result A.

Definition ret {A : Type} (a : A) : M A := fun s => Done a s.

Definition bind {A B : Type} (c : M A) (k : A -> M B) : M B :=
  fun s =>
    match c s with
    | Done a s' => k a s'
    | Blocked s' => Blocked s'
    | Undefined s' => Undefined s'
    | OutOfFuel s' => OutOfFuel s'
    end.

Definition undefined {A : Type} : M A := fun s => Undefined s.

Declare Scope session_scope.
Delimit Scope session_scope with session.
Notation "x <- c ;; k" := (bind c (fun x => k))
  (at level 61, c at next level, right associativity) : session_scope.
Notation "c ;; k" := (bind c (fun _ => k))
  (at level 61, right associativity) : session_scope.
Local Open Scope session_scope.

(** The final state of a run, whatever its outcome. *)
Definition final {A : Type} (r : result A) : state :=
  match r with
  | Done _ s | Blocked s | Undefined s | OutOfFuel s => s
  end.

(** [uint32_t] passed where an [int] is expected. *)
Definition int_of_uint32 (v : Z) : Z := if v <? 2 ^ 31 then v else v - 2 ^ 32.

(** [usb_read(ctx, data, size, USB_TIMEOUT)]: the value returned and the
    bytes known to be in [data] afterwards.  A transfer longer than
    [size] is refused by libusb with [LIBUSB_ERROR_OVERFLOW]. *)
Definition usb_read (size : Z) : M (Z * list byte) :=
  fun s =>
    match inbound s with
    | [] => Blocked s
    | Failed code :: rest =>
        Done (Z.neg code, []) (mkState rest (outbound s) (cache s))
    | Received data :: rest =>
        if len data <=? size
        then Done (len data, data) (mkState rest (outbound s) (cache s))
        else Done (LIBUSB_ERROR_OVERFLOW, [])
                  (mkState rest (outbound s) (cache s))
    end.

(** [usb_write(ctx, data, size, USB_TIMEOUT)] with [data] the [size]
    bytes handed over.  No caller looks at the value returned. *)
Definition usb_write (data : list byte) : M unit :=
  fun s => Done tt (mkState (inbound s) (outbound s ++ [data]) (cache s)).

Definition set_cache (c : TitleCache) : M unit :=
  fun s => Done tt (mkState (inbound s) (outbound s) c).

Definition get_cache : M TitleCache := fun s => Done (cache s) s.

(** ** The command handlers *)

(** *** [process_exit_command] *)

Definition process_exit_command (h : host) : M unit :=
  usb_write (make_header (order h) CMD_TYPE_RESPONSE CMD_EXIT 0).

(** *** [process_list_command] *)

(** [strcat(dst, src)] into a block of [cap] bytes; [None] when the
    result and its NUL do not fit. *)
Definition strcat (cap : Z) (dst src : cstring) : option cstring :=
  if len (dst ++ src) + 1 <=? cap then Some (dst ++ src) else None.

(** The string "\n". *)
Definition newline : cstring := [x0a].

(** The loop that appends each display name and a newline. *)
Fixpoint build_list (cap : Z) (es : list TitleEntry) (nsp_list : cstring)
  : option cstring :=
  match es with
  | [] => Some nsp_list
  | e :: rest =>
      match strcat cap nsp_list (display_name e) with
      | None => None
      | Some l1 =>
          match strcat cap l1 newline with
          | None => None
          | Some l2 => build_list cap rest l2
          end
      end
  end.

(** The values read out of the acknowledgement are only logged, so the
    acknowledgement read is modelled by its effect on the link alone. *)
Definition process_list_command (h : host) : M unit :=
  c <- get_cache ;;
  let walk := rescan (stat h) (work_dir h) (titles h) c in
  set_cache (cache_of walk) ;;
  if runaway walk then undefined
  else if negb (malloc_ok h (MAX_TITLES * 256)) then ret tt
  else
    c <- get_cache ;;
    match build_list (MAX_TITLES * 256) (live c) [] with
    | None => undefined
    | Some nsp_list =>
        let list_len := len nsp_list mod 2 ^ 32 in
        usb_write (make_header (order h) CMD_TYPE_RESPONSE CMD_LIST list_len) ;;
        _ <- usb_read 16 ;;
        usb_write (take list_len nsp_list)
    end.

(** *** [process_file_range_command] *)

Record FileRangeRequest : Type := mkRequest {
  range_size : Z;
  range_offset : Z;
  nsp_name_len : Z;
  nsp_name : cstring
}.

(** [strncpy(dst, src, n); dst[n] = 0] when [src] points into a buffer
    whose known bytes from there on are [src]: the string left in [dst],
    or [None] when the copy runs off the known bytes before it meets a
    NUL or has taken [n] bytes. *)
Fixpoint strncpy_from (n : nat) (src : list byte) : option cstring :=
  match n with
  | O => Some []
  | S n' =>
      match src with
      | [] => None
      | c :: rest =>
          if Byte.eqb c x00 then Some []
          else option_map (cons c) (strncpy_from n' rest)
      end
  end.

Definition parse_file_range (o : byte_order) (file_range_header : list byte)
  : option FileRangeRequest :=
  match load32 o file_range_header 0,
        load64 o file_range_header 4,
        load32 o file_range_header 12,
        strncpy_from (Z.to_nat (MAX_PATH_LEN - 1)) (drop 16 file_range_header)
  with
  | Some size, Some offset, Some name_len, Some name =>
      Some (mkRequest size offset name_len name)
  | _, _, _, _ => None
  end.

(** The fields of a request that the handler goes on to use. *)
Definition used_fields (r : FileRangeRequest) : Z * Z * cstring :=
  (range_size r, range_offset r, nsp_name r).

(** An open stream is modelled by the bytes still to be read. *)
Definition FILE : Type := list byte.

(** [fseek(f, range_offset, SEEK_SET)] on a stream just opened.  The
    offset is passed as a [long]: from 2^63 on it arrives negative and
    [fseek] fails.  It fails as well for an offset beyond the largest
    one the file system accepts, [limit]; no file is longer than that,
    so an offset within the file is always accepted.  When [fseek]
    fails the stream stays at its start; the source does not look at
    the result. *)
Definition fseek (limit : Z) (f : FILE) (offset : Z) : FILE :=
  if (offset <? 2 ^ 63) && (offset <=? Z.max (len f) limit)
  then drop offset f
  else f.

(** [fread(buffer, 1, n, f)]: the bytes read and the stream after. *)
Definition fread (n : Z) (f : FILE) : list byte * FILE :=
  (take n f, drop n f).

(** The [while (curr_off < end_off)] loop. *)
Fixpoint stream_loop (fuel : nat) (curr_off end_off read_size : Z) (f : FILE)
  : M unit :=
  if curr_off <? end_off then
    match fuel with
    | O => fun s => OutOfFuel s
    | S fuel' =>
        let read_size :=
          if (curr_off + read_size) mod 2 ^ 64 >=? end_off
          then (end_off - curr_off) mod 2 ^ 32
          else read_size in
        let (buffer, f') := fread read_size f in
        if negb (len buffer =? read_size) then ret tt
        else
          usb_write buffer ;;
          stream_loop fuel' ((curr_off + read_size) mod 2 ^ 64) end_off
                      read_size f'
    end
  else ret tt.

(** Iterations the loop can need: every one but the last moves
    [BUFFER_SEGMENT_DATA_SIZE] bytes. *)
Definition stream_fuel (range_size : Z) : nat :=
  S (Z.to_nat (range_size / BUFFER_SEGMENT_DATA_SIZE)).

Definition process_file_range_command (h : host) (data_size : Z) : M unit :=
  usb_write (make_header (order h) CMD_TYPE_ACK CMD_FILE_RANGE data_size) ;;
  if negb (malloc_ok h data_size) then ret tt
  else
    r <- usb_read (int_of_uint32 data_size) ;;
    match parse_file_range (order h) (snd r) with
    | None => undefined
    | Some req =>
        c <- get_cache ;;
        let actual_path := find_title_path c (nsp_name req) in
        usb_write (make_header (order h) CMD_TYPE_RESPONSE CMD_FILE_RANGE
                               (range_size req)) ;;
        _ <- usb_read 16 ;;
        match fopen h actual_path with
        | None => ret tt
        | Some content =>
            let f := fseek (max_offset h) content (range_offset req) in
            if negb (malloc_ok h BUFFER_SEGMENT_DATA_SIZE) then ret tt
            else
              stream_loop (stream_fuel (range_size req)) 0 (range_size req)
                          BUFFER_SEGMENT_DATA_SIZE f
        end
    end.

(** ** [poll_commands] *)

(** How one turn of [while (true)] ends: [continue] or the end of the
    [switch] on one side, [return] on the other. *)
Inductive control : Type := LoopAgain | Return.

Definition poll_iteration (h : host) : M control :=
  r <- usb_read 16 ;;
  if fst r <? 16 then ret LoopAgain
  else
    match read_header (order h) (snd r) with
    | None => undefined
    | Some hd =>
        if negb (magic_ok hd) then ret LoopAgain
        else if cmd_id hd =? CMD_EXIT then
          process_exit_command h ;; ret Return
        else if cmd_id hd =? CMD_LIST then
          process_list_command h ;; ret LoopAgain
        else if cmd_id hd =? CMD_FILE_RANGE then
          process_file_range_command h (data_size hd) ;; ret LoopAgain
        else
          process_exit_command h ;; ret Return
    end.

Fixpoint poll_loop (h : host) (fuel : nat) : M unit :=
  match fuel with
  | O => fun s => OutOfFuel s
  | S fuel' =>
      c <- poll_iteration h ;;
      match c with
      | LoopAgain => poll_loop h fuel'
      | Return => ret tt
      end
  end.

(** [poll_commands(ctx, work_dir)] against a device that will send
    [device]: every turn of the loop takes at least one transfer, so one
    turn more than there are transfers is enough. *)
Definition poll_commands (h : host) (device : list transfer) : result unit :=
  poll_loop h (S (length device)) (mkState device [] empty_cache).

(** The display names of the entries, each followed by a newline, in
    the order of the entries. *)
Definition joined_names (es : list TitleEntry) : cstring :=
  flat_map (fun e => display_name e ++ newline) es.

(** A chunk handed to the link: not empty, and no larger than the
    transfer buffer. *)
Definition chunk_sized (c : list byte) : Prop :=
  0 < len c <= BUFFER_SEGMENT_DATA_SIZE.

(** The outcome is not a lack of fuel. *)
Definition fuelled {A : Type} (r : result A) : Prop :=
  match r with
  | OutOfFuel _ => False
  | _ => True
  end.

(** Transfers still to be read when a run ends. *)
Definition pending {A : Type} (r : result A) : nat :=
  length (inbound (final r)).

(** The display name fits [display_name] with its NUL. *)
Definition short_name (e : TitleEntry) : Prop := len (display_name e) <= 255.

(** [turns h s s1]: from [s], some turns of the loop that all go round
    again lead to [s1]. *)
Inductive turns (h : host) : state -> state -> Prop :=
| turns_none : forall s, turns h s s
| turns_more : forall s s1 s2,
    poll_iteration h s = Done LoopAgain s1 ->
    turns h s1 s2 ->
    turns h s s2.

(** ** The catalog, further *)

(** The array has its [MAX_TITLES] slots and [count] lies within it. *)
Definition cache_ok (c : TitleCache) : Prop :=
  len (entries c) = MAX_TITLES /\ 0 <= count c <= MAX_TITLES.

(** The titles of a tree in the order of the walk: each regular file
    with a title name, with its name (cut at 255 bytes) and the path
    that leads to it. *)
Fixpoint titles_of (path : cstring) (d : node) : list TitleEntry :=
  match d with
  | Directory es => titles_in path es
  | _ => []
  end
with titles_in (path : cstring) (es : dirents) : list TitleEntry :=
  match es with
  | end_of_dir => []
  | dirent name child rest =>
      match child with
      | RegularFile =>
          if is_title_name name
          then [mkEntry (take 255 name) (path ++ cstr "/" ++ name)]
          else []
      | _ => titles_of (path ++ cstr "/" ++ name) child
      end ++ titles_in path rest
  end.

(** One of the three extensions, in any case of letters. *)
Definition is_extension (ext : cstring) : bool :=
  strcasecmp_eq ext (cstr ".nsp")
  || strcasecmp_eq ext (cstr ".xci")
  || strcasecmp_eq ext (cstr ".nsz").

(** Some live entry bears the display name [name]. *)
Definition listed (c : TitleCache) (name : cstring) : bool :=
  existsb (fun e => strcmp_eq (display_name e) name) (live c).

(** A transfer that is no well-framed header. *)
Definition discardable (t : transfer) : Prop :=
  match t with
  | Failed _ => True
  | Received data => len data <> 16 \/ take 4 data <> MAGIC
  end.

(** How a run ends, and what can be seen of it from outside: how it
    ended, what was written, the cache left, and how many transfers are
    still unread. *)
Inductive ending : Type := Returns | Waits | LeavesTheModel | RunsOut.

Definition ending_of {A : Type} (r : result A) : ending :=
  match r with
  | Done _ _ => Returns
  | Blocked _ => Waits
  | Undefined _ => LeavesTheModel
  | OutOfFuel _ => RunsOut
  end.

Definition report {A : Type} (r : result A)
  : ending * list (list byte) * TitleCache * nat :=
  (ending_of r, outbound (final r), cache (final r), pending r).

(** ** Opening and closing the link *)

Definition SWITCH_VID : Z := 0x057E.
Definition SWITCH_PID : Z := 0x3000.

(** [LIBUSB_ENDPOINT_IN], the direction bit of an endpoint address. *)
Definition LIBUSB_ENDPOINT_IN : Z := 0x80.

(** What one call of [usb_init] meets: the answers of [malloc] and of
    libusb. *)
Record usb_env : Type := mkUsbEnv {
  ctx_allocated : bool;             (* malloc(sizeof(UsbContext)) returns a block *)
  libusb_init_ret : Z;              (* libusb_init *)
  device_present : Z -> Z -> bool;  (* libusb_open_device_with_vid_pid finds it *)
  kernel_driver : Z;                (* libusb_kernel_driver_active *)
  claim_ret : Z;                    (* libusb_claim_interface *)
  endpoints : option (list Z)       (* the bEndpointAddress of each endpoint of
                                       interface 0, altsetting 0, when the
                                       active configuration can be read *)
}.

(** What the process can hold of the link. *)
Inductive resource : Type :=
| ContextBlock       (* the UsbContext from malloc *)
| Library            (* the libusb context *)
| DeviceHandle       (* the opened device *)
| Interface0         (* the claim on interface 0 *)
| ConfigDescriptor.  (* the active configuration descriptor *)

Inductive usb_event : Type :=
| Acquired (r : resource)
| Released (r : resource)
| ResetDevice
| DetachKernelDriver
| Sleep.

(** [UsbContext]; [lib_ctx] and [dev_handle] say whether the pointers
    are set. *)
Record UsbContext : Type := mkUsbContext {
  lib_ctx : bool;
  dev_handle : bool;
  ep_in : Z;
  ep_out : Z
}.

(** The [for] loop over the endpoints of the interface. *)
Fixpoint endpoint_loop (addrs : list Z) (ep_in ep_out : Z) : Z * Z :=
  match addrs with
  | [] => (ep_in, ep_out)
  | ep_addr :: rest =>
      if negb (Z.land ep_addr LIBUSB_ENDPOINT_IN =? 0)
      then endpoint_loop rest ep_addr ep_out
      else endpoint_loop rest ep_in ep_addr
  end.

(** How [usb_init] ends: a context, NULL, or (the result of
    [libusb_get_active_config_descriptor] is not looked at) a walk
    through a descriptor that was never filled in. *)
Inductive init_result : Type :=
| Opened (ctx : UsbContext)
| InitFailed
| InitAstray.

Definition usb_init (vid pid : Z) (e : usb_env)
  : init_result * list usb_event :=
  if negb (ctx_allocated e) then (InitFailed, [])
  else if libusb_init_ret e <? 0 then
    (InitFailed, [Acquired ContextBlock; Released ContextBlock])
  else if negb (device_present e vid pid) then
    (InitFailed, [Acquired ContextBlock; Acquired Library;
                  Released Library; Released ContextBlock])
  else
    let t := [Acquired ContextBlock; Acquired Library; Acquired DeviceHandle;
              ResetDevice]
             ++ (if kernel_driver e =? 1 then [DetachKernelDriver] else []) in
    if claim_ret e <? 0 then
      (InitFailed, t ++ [Released DeviceHandle; Released Library;
                         Released ContextBlock])
    else
      match endpoints e with
      | None => (InitAstray, t ++ [Acquired Interface0])
      | Some addrs =>
          let (i, o) := endpoint_loop addrs 0 0 in
          let t := t ++ [Acquired Interface0; Acquired ConfigDescriptor;
                         Released ConfigDescriptor] in
          if (i =? 0) || (o =? 0) then
            (InitFailed, t ++ [Released Interface0; Released DeviceHandle;
                               Released Library; Released ContextBlock])
          else (Opened (mkUsbContext true true i o), t)
      end.

(** [usb_cleanup(ctx)]; [None] is the NULL pointer. *)
Definition usb_cleanup (ctx : option UsbContext) : list usb_event :=
  match ctx with
  | None => []
  | Some c =>
      (if dev_handle c then [Released Interface0; Released DeviceHandle]
       else [])
      ++ (if lib_ctx c then [Released Library] else [])
      ++ [Released ContextBlock]
  end.

(** How [connect_to_switch] ends against a device that answers the
    attempts in turn: with a context, or still waiting when the answers
    run out. *)
Inductive connect_result : Type :=
| Connected (ctx : UsbContext)
| StillWaiting
| ConnectAstray.

Fixpoint connect_to_switch (attempts : list usb_env)
  : connect_result * list usb_event :=
  match attempts with
  | [] => (StillWaiting, [])
  | e :: rest =>
      match usb_init SWITCH_VID SWITCH_PID e with
      | (Opened ctx, t) => (Connected ctx, t)
      | (InitAstray, t) => (ConnectAstray, t)
      | (InitFailed, t) =>
          let (r, t') := connect_to_switch rest in
          (r, t ++ Sleep :: t')
      end
  end.

(** ** [main] *)

(** The [for] loop over the arguments after the program name. *)
Inductive parsed_args : Type :=
| HelpAsked
| Parsed (debug_mode : bool) (titles_dir : option cstring).

Fixpoint parse_args (args : list cstring) (debug_mode : bool)
  (titles_dir : option cstring) : parsed_args :=
  match args with
  | [] => Parsed debug_mode titles_dir
  | a :: rest =>
      if strcmp_eq a (cstr "--debug") then parse_args rest true titles_dir
      else if strcmp_eq a (cstr "--help") then HelpAsked
      else parse_args rest debug_mode (Some a)
  end.

(** [S_ISDIR(st.st_mode)] after a [stat] that worked. *)
Definition is_directory (d : node) : bool :=
  match d with
  | Directory _ | ClosedDirectory => true
  | _ => false
  end.

(** What the process finds around it when [main] starts. *)
Record machine : Type := mkMachine {
  m_order : byte_order;
  m_malloc_ok : Z -> bool;
  m_fopen : cstring -> option (list byte);
  m_stat : cstring -> node;           (* what stands at a path *)
  m_max_offset : Z;                   (* the largest offset of a seek *)
  m_attempts : list usb_env;          (* the answers to each usb_init *)
  m_device : list transfer            (* what the device then sends *)
}.

Inductive exit_status : Type :=
| Exited (code : Z)   (* main returns *)
| Hangs               (* waits for the switch, or for a transfer, for ever *)
| Astray.             (* no defined behaviour *)

(** What can be seen of a run of [main]. *)
Record main_run : Type := mkRun {
  status : exit_status;
  usage_printed : bool;            (* print_usage was called *)
  usb_events : list usb_event;
  wire : list (list byte)          (* buffers handed to usb_write *)
}.

Definition main (m : machine) (argv : list cstring) : main_run :=
  if len argv <? 2 then mkRun (Exited 1) true [] []
  else
    match parse_args (tl argv) false None with
    | HelpAsked => mkRun (Exited 0) true [] []
    | Parsed _ None => mkRun (Exited 1) true [] []
    | Parsed _ (Some titles_dir) =>
        if negb (is_directory (m_stat m titles_dir))
        then mkRun (Exited 1) false [] []
        else
          match connect_to_switch (m_attempts m) with
          | (StillWaiting, t) => mkRun Hangs false t []
          | (ConnectAstray, t) => mkRun Astray false t []
          | (Connected ctx, t) =>
              let h := mkHost (m_order m) (m_malloc_ok m) (m_fopen m)
                              titles_dir (m_stat m titles_dir) (m_stat m)
                              (m_max_offset m) in
              match poll_commands h (m_device m) with
              | Done _ s =>
                  mkRun (Exited 0) false (t ++ usb_cleanup (Some ctx))
                        (outbound s)
              | Blocked s => mkRun Hangs false t (outbound s)
              | Undefined s | OutOfFuel s => mkRun Astray false t (outbound s)
              end
          end
    end.

(** ** Accounting for what is held *)

Definition resource_eqb (a b : resource) : bool :=
  match a, b with
  | ContextBlock, ContextBlock | Library, Library
  | DeviceHandle, DeviceHandle | Interface0, Interface0
  | ConfigDescriptor, ConfigDescriptor => true
  | _, _ => false
  end.

Definition holds (held : list resource) (r : resource) : bool :=
  existsb (resource_eqb r) held.

(** What is held after the events, starting from [held]; [None] when
    something is acquired twice or released while not held. *)
Fixpoint account (events : list usb_event) (held : list resource)
  : option (list resource) :=
  match events with
  | [] => Some held
  | Acquired r :: rest =>
      if holds held r then None else account rest (r :: held)
  | Released r :: rest =>
      if holds held r
      then account rest (filter (fun x => negb (resource_eqb r x)) held)
      else None
  | _ :: rest => account rest held
  end.

(** What an opened link holds. *)
Definition link_held : list resource :=
  [Interface0; DeviceHandle; Library; ContextBlock].

Definition is_sleep (ev : usb_event) : bool :=
  match ev with
  | Sleep => true
  | _ => false
  end.

(** The last address of the list that satisfies [p], or 0. *)
Definition last_such (p : Z -> bool) (addrs : list Z) : Z :=
  match find p (rev addrs) with
  | Some a => a
  | None => 0
  end.

Definition is_in_endpoint (a : Z) : bool :=
  negb (Z.land a LIBUSB_ENDPOINT_IN =? 0).

Definition is_out_endpoint (a : Z) : bool :=
  Z.land a LIBUSB_ENDPOINT_IN =? 0.

(** The arguments that are neither "--debug" nor "--help". *)
Definition plain_args (args : list cstring) : list cstring :=
  filter (fun a => negb (strcmp_eq a (cstr "--debug"))
                   && negb (strcmp_eq a (cstr "--help"))) args.

Definition asks_help (args : list cstring) : bool :=
  existsb (fun a => strcmp_eq a (cstr "--help")) args.

(** ** Sample inputs *)

Definition sample_cache : TitleCache :=
  mkCache [ mkEntry (cstr "a.nsp") (cstr "/titles/a.nsp");
            mkEntry (cstr "b.xci") (cstr "/titles/sub/b.xci");
            mkEntry (cstr "b.xci") (cstr "/titles/other/b.xci");
            mkEntry (cstr "stale.nsp") (cstr "/titles/stale.nsp") ] 3.

(** A file name with a four-digit number in it. *)
Definition numbered_title (i : Z) : cstring :=
  cstr "title"
  ++ map (fun k => byte_of_Z (48 + (i / k) mod 10)) [1000; 100; 10; 1]
  ++ cstr ".nsp".

(** A directory holding [n] regular files with distinct title names. *)
Definition crowded_directory (n : nat) : node :=
  Directory
    (listing (map (fun i => (numbered_title (Z.of_nat i), RegularFile))
                  (seq 0 n))).

(** A small tree: two titles at the top, one in a subdirectory, a
    directory that cannot be opened and a file that is no title. *)
Definition sample_tree : node :=
  Directory (listing
    [ (cstr "a.nsp", RegularFile);
      (cstr "notes.txt", RegularFile);
      (cstr "sub", Directory (listing [ (cstr "c.NSZ", RegularFile) ]));
      (cstr "locked", ClosedDirectory);
      (cstr "b.xci", RegularFile) ]).

(** What the device sends: a request header, and the payload of a file
    range request. *)
Definition request_header (o : byte_order) (id size : Z) : list byte :=
  make_header o CMD_TYPE_REQUEST id size.

Definition store64 (o : byte_order) (v : Z) : list byte :=
  in_order o (le_bytes 8 (v mod 2 ^ 64)).

Definition file_range_payload (o : byte_order) (size offset name_len : Z)
  (name : cstring) : list byte :=
  store32 o size ++ store64 o offset ++ store32 o name_len ++ name ++ [x00].

Definition sample_file : list byte := cstr "0123456789abcdefghijklmnopqrstuvwxyz".

(** Nothing stands at any path but those of the tree. *)
Definition nothing_else : cstring -> node := fun _ => Missing.

(** The largest offset of a file system with 4 KiB blocks and 32-bit
    block numbers. *)
Definition sample_max_offset : Z := 2 ^ 44 - 2 ^ 12.

(** A little-endian host where every allocation succeeds and one file
    can be opened. *)
Definition sample_host : host :=
  mkHost LittleEndian (fun _ => true)
         (fun path =>
            if strcmp_eq path (cstr "/titles/a.nsp") then Some sample_file
            else None)
         (cstr "/titles") sample_tree nothing_else sample_max_offset.

(** The state of the sample host after a List command. *)
Definition listed_cache : TitleCache :=
  cache_of (rescan nothing_else (cstr "/titles") sample_tree empty_cache).

(** A FileRange exchange as the device drives it: the payload asking
    for [size] bytes at [offset] of [name], then an acknowledgement. *)
Definition range_exchange (size offset : Z) (name : cstring)
  : list transfer :=
  [ Received (file_range_payload LittleEndian size offset (len name) name);
    Received (make_header LittleEndian CMD_TYPE_ACK CMD_FILE_RANGE 0) ].


(** Two payloads that differ in the name-length field only. *)
Definition honest_payload : list byte :=
  file_range_payload LittleEndian 10 5 5 (cstr "a.nsp").

Definition lying_payload : list byte :=
  file_range_payload LittleEndian 10 5 4000000000 (cstr "a.nsp").

(** A host whose titles directory holds the two files of the List
    scenario, and whose one readable file is [big] bytes of zeros. *)
Definition two_titles : node :=
  Directory (listing [ (cstr "a.nsp", RegularFile); (cstr "b.xci", RegularFile) ]).

Definition scenario_host (big : Z) : host :=
  mkHost LittleEndian (fun _ => true)
         (fun path =>
            if strcmp_eq path (cstr "/titles/a.nsp")
            then Some (repeat x00 (Z.to_nat big)) else None)
         (cstr "/titles") two_titles nothing_else sample_max_offset.

(** A chain of [k] directories with names of 255 bytes, one inside the
    other, and a title at the bottom. *)
Fixpoint deep_tree (k : nat) : node :=
  match k with
  | O => Directory (listing [ (cstr "x.nsp", RegularFile) ])
  | S k' => Directory (listing [ (repeat "a"%byte 255, deep_tree k') ])
  end.

(** The path of the innermost directory of [deep_tree k]. *)
Fixpoint deep_path (k : nat) : cstring :=
  match k with
  | O => cstr "/titles"
  | S k' => deep_path k' ++ cstr "/" ++ repeat "a"%byte 255
  end.

(** [deep_tree k] with more files beside the title at the bottom. *)
Fixpoint deep_tree_with (k : nat) (more : list cstring) : node :=
  match k with
  | O => Directory (listing ((cstr "x.nsp", RegularFile)
                             :: map (fun name => (name, RegularFile)) more))
  | S k' => Directory (listing [ (repeat "a"%byte 255,
                                  deep_tree_with k' more) ])
  end.

(** [what] stands at [path] and nothing anywhere else. *)
Definition only_at (path : cstring) (what : node) : cstring -> node :=
  fun p => if strcmp_eq p path then what else Missing.

(** The payload of a FileRange request as the specification lays it
    out: the three fields, then the bytes of the name and nothing after
    them. *)
Definition bare_payload (o : byte_order) (size offset : Z) (name : cstring)
  : list byte :=
  store32 o size ++ store64 o offset ++ store32 o (len name) ++ name.

(** A title name of 255 bytes, the longest a directory entry can bear. *)
Definition long_title (i : Z) : cstring :=
  repeat "x"%byte 242 ++ numbered_title i.

(** A directory holding [n] titles with distinct names of 255 bytes. *)
Definition packed_directory (n : nat) : node :=
  Directory
    (listing (map (fun i => (long_title (Z.of_nat i), RegularFile))
                  (seq 0 n))).

Definition packed_host (n : nat) : host :=
  mkHost LittleEndian (fun _ => true) (fun _ => None)
         (cstr "/titles") (packed_directory n) nothing_else sample_max_offset.

(** A cache whose array is whole and holds entries of an earlier scan. *)
Definition sample_cache_whole : TitleCache :=
  mkCache (mkEntry (cstr "old.nsp") (cstr "/gone/old.nsp")
           :: repeat (mkEntry [] []) (Z.to_nat (MAX_TITLES - 1))) 1.

(** A device that is there, with two endpoints of each direction. *)
Definition switch_env : usb_env :=
  mkUsbEnv true 0 (fun vid pid => (vid =? SWITCH_VID) && (pid =? SWITCH_PID))
           1 0 (Some [0x81; 0x01; 0x82; 0x02]).

(** No device plugged in. *)
Definition absent_env : usb_env :=
  mkUsbEnv true 0 (fun _ _ => false) 0 0 None.

(** A machine on which "/titles" is the sample tree and the switch
    appears at the third attempt; the device then lists and exits. *)
Definition sample_machine : machine :=
  mkMachine LittleEndian (fun _ => true) (fun _ => None)
            (fun path => if strcmp_eq path (cstr "/titles") then sample_tree
                         else Missing)
            sample_max_offset
            [absent_env; absent_env; switch_env]
            [ Received (request_header LittleEndian CMD_LIST 0);
              Received (make_header LittleEndian CMD_TYPE_ACK CMD_LIST 0);
              Received (request_header LittleEndian CMD_EXIT 0) ].

(** * Verification *)

(** ** Basic facts *)

Lemma len_nonneg {A} (l : list A) : 0 <= len l.
Proof. unfold len; lia. Qed.

Lemma len_app {A} (a b : list A) : len (a ++ b) = len a + len b.
Proof. unfold len; rewrite length_app; lia. Qed.

Lemma len_cons {A} (x : A) (l : list A) : len (x :: l) = 1 + len l.
Proof. unfold len; simpl length; lia. Qed.

Lemma take_firstn {A} (l : list A) : forall n,
  take n l = firstn (Z.to_nat n) l.
Proof.
  induction l as [|x t IH]; intro n; simpl.
  - now rewrite firstn_nil.
  - destruct (Z.leb_spec n 0) as [H|H].
    + replace (Z.to_nat n) with O by lia. reflexivity.
    + replace (Z.to_nat n) with (S (Z.to_nat (n - 1))) by lia.
      simpl. now rewrite IH.
Qed.

Lemma drop_skipn {A} (l : list A) : forall n,
  drop n l = skipn (Z.to_nat n) l.
Proof.
  induction l as [|x t IH]; intro n; simpl.
  - now rewrite skipn_nil.
  - destruct (Z.leb_spec n 0) as [H|H].
    + replace (Z.to_nat n) with O by lia. reflexivity.
    + replace (Z.to_nat n) with (S (Z.to_nat (n - 1))) by lia.
      simpl. now rewrite IH.
Qed.

Lemma len_take {A} (n : Z) (l : list A) :
  len (take n l) = Z.max 0 (Z.min n (len l)).
Proof. unfold len. rewrite take_firstn, length_firstn. lia. Qed.

Lemma len_drop {A} (n : Z) (l : list A) :
  len (drop n l) = len l - Z.max 0 (Z.min n (len l)).
Proof. unfold len. rewrite drop_skipn, length_skipn. lia. Qed.

Lemma take_all {A} (n : Z) (l : list A) : len l <= n -> take n l = l.
Proof. unfold len. intro H. rewrite take_firstn. apply firstn_all2. lia. Qed.

Lemma take_app_exact {A} (a b : list A) : take (len a) (a ++ b) = a.
Proof.
  unfold len. rewrite take_firstn, Nat2Z.id.
  rewrite firstn_app, Nat.sub_diag, firstn_all. simpl. apply app_nil_r.
Qed.

Lemma drop_app_exact {A} (a b : list A) : drop (len a) (a ++ b) = b.
Proof.
  unfold len. rewrite drop_skipn, Nat2Z.id.
  rewrite skipn_app, Nat.sub_diag, skipn_all. reflexivity.
Qed.

Lemma bytes_eqb_eq (a : list byte) : forall b, bytes_eqb a b = true <-> a = b.
Proof.
  induction a as [|x a IH]; intros [|y b]; simpl; split; intro H;
    try reflexivity; try discriminate.
  - apply andb_true_iff in H as [H1 H2].
    apply Byte.byte_dec_bl in H1. apply IH in H2. now subst.
  - injection H as -> ->. apply andb_true_iff; split.
    + apply Byte.byte_dec_lb. reflexivity.
    + now apply IH.
Qed.

Lemma bytes_eqb_refl (a : list byte) : bytes_eqb a a = true.
Proof. now apply bytes_eqb_eq. Qed.

Lemma Z_of_byte_range (b : byte) : 0 <= Z_of_byte b < 256.
Proof.
  unfold Z_of_byte. pose proof (Byte.to_N_bounded b). lia.
Qed.

Lemma Z_of_byte_of_Z (z : Z) : Z_of_byte (byte_of_Z z) = z mod 256.
Proof.
  unfold Z_of_byte, byte_of_Z.
  pose proof (Z.mod_pos_bound z 256 ltac:(lia)) as Hr.
  destruct (Byte.of_N (Z.to_N (z mod 256))) as [b|] eqn:E.
  - apply Byte.to_of_N in E. rewrite E. lia.
  - apply Byte.of_N_None_iff in E. lia.
Qed.

Lemma le_value_le_bytes (n : nat) : forall v,
  le_value (le_bytes n v) = v mod 2 ^ (8 * Z.of_nat n).
Proof.
  induction n as [|n IH]; intro v.
  - simpl. now rewrite Z.mod_1_r.
  - cbn [le_bytes le_value]. rewrite IH, Z_of_byte_of_Z.
    replace (8 * Z.of_nat (S n)) with (8 + 8 * Z.of_nat n) by lia.
    rewrite Z.pow_add_r by lia. change (2 ^ 8) with 256.
    rewrite Z.rem_mul_r by lia. reflexivity.
Qed.

Lemma length_le_bytes (n : nat) : forall v, length (le_bytes n v) = n.
Proof. induction n; intro v; simpl; auto. Qed.

Lemma in_order_involutive (o : byte_order) (bs : list byte) :
  in_order o (in_order o bs) = bs.
Proof. destruct o; simpl; auto using rev_involutive. Qed.

Lemma length_in_order (o : byte_order) (bs : list byte) :
  length (in_order o bs) = length bs.
Proof. destruct o; simpl; auto using length_rev. Qed.

Lemma len_store32 (o : byte_order) (v : Z) : len (store32 o v) = 4.
Proof.
  unfold len, store32. now rewrite length_in_order, length_le_bytes.
Qed.

Lemma le_value_store32 (o : byte_order) (v : Z) :
  le_value (in_order o (store32 o v)) = v mod 2 ^ 32.
Proof.
  unfold store32. rewrite in_order_involutive, le_value_le_bytes.
  change (8 * Z.of_nat 4) with 32. apply Z.mod_mod. lia.
Qed.

(** A load at the offset where a store was made reads the stored value. *)
Lemma load32_store32 (o : byte_order) (pre post : list byte) (v off : Z) :
  len pre = off ->
  load32 o (pre ++ store32 o v ++ post) off = Some (v mod 2 ^ 32).
Proof.
  intro Hoff. unfold load32, load.
  pose proof (len_nonneg pre). pose proof (len_nonneg post).
  rewrite !len_app, len_store32.
  replace ((0 <=? off) && (off + 4 <=? len pre + (4 + len post))) with true
    by (symmetry; apply andb_true_iff; split; apply Z.leb_le; lia).
  rewrite <- Hoff, drop_app_exact.
  rewrite <- (len_store32 o v) at 1. rewrite take_app_exact.
  now rewrite le_value_store32.
Qed.

Section HeaderCodec.

Variable o : byte_order.

Lemma len_make_header (t i n : Z) : len (make_header o t i n) = 16.
Proof.
  unfold make_header. rewrite !len_app, !len_store32. reflexivity.
Qed.

Lemma read_make_header (t i n : Z) :
  read_header o (make_header o t i n)
  = Some (mkHeader MAGIC (t mod 2 ^ 32) (i mod 2 ^ 32) (n mod 2 ^ 32)).
Proof.
  unfold read_header, make_header.
  rewrite (load32_store32 o MAGIC _ t 4) by reflexivity.
  replace (MAGIC ++ store32 o t ++ store32 o i ++ store32 o n)
    with ((MAGIC ++ store32 o t) ++ store32 o i ++ store32 o n)
    by now rewrite <- app_assoc.
  rewrite (load32_store32 o _ _ i 8)
    by (rewrite len_app, len_store32; reflexivity).
  replace ((MAGIC ++ store32 o t) ++ store32 o i ++ store32 o n)
    with ((MAGIC ++ store32 o t ++ store32 o i) ++ store32 o n ++ [])
    by now rewrite app_nil_r, <- !app_assoc.
  rewrite (load32_store32 o _ _ n 12)
    by (rewrite !len_app, !len_store32; reflexivity).
  rewrite app_nil_r, <- !app_assoc.
  change 4 with (len MAGIC) at 1. now rewrite take_app_exact.
Qed.

(** C5. Encoding a header (the magic tag and the three 32-bit fields,
    packed one after the other) gives 16 bytes, and decoding those
    bytes gives back the magic tag and the three fields, for every
    32-bit type, id and payload length, in either byte order. *)
Theorem header_round_trip (t i n : Z) :
  0 <= t < 2 ^ 32 -> 0 <= i < 2 ^ 32 -> 0 <= n < 2 ^ 32 ->
  len (make_header o t i n) = 16 /\
  read_header o (make_header o t i n) = Some (mkHeader MAGIC t i n).
Proof.
  intros Ht Hi Hn. split; [apply len_make_header|].
  rewrite read_make_header, !Z.mod_small by assumption. reflexivity.
Qed.

End HeaderCodec.

Lemma header_round_trip_witness :
  len (make_header LittleEndian CMD_TYPE_RESPONSE CMD_LIST 12) = 16 /\
  read_header LittleEndian (make_header LittleEndian CMD_TYPE_RESPONSE CMD_LIST 12)
  = Some (mkHeader MAGIC CMD_TYPE_RESPONSE CMD_LIST 12).
Proof.
  apply (header_round_trip LittleEndian CMD_TYPE_RESPONSE CMD_LIST 12);
    unfold CMD_TYPE_RESPONSE, CMD_LIST; lia.
Defined.

(** ** [find_title_path] *)

Lemma find_title_loop_first (before : list TitleEntry) :
  forall e after name,
    display_name e = name ->
    (forall e', In e' before -> display_name e' <> name) ->
    find_title_loop (before ++ e :: after) name = full_path e.
Proof.
  induction before as [|b before IH]; intros e after name He Hnone; simpl.
  - unfold strcmp_eq. rewrite He, bytes_eqb_refl. reflexivity.
  - destruct (strcmp_eq (display_name b) name) eqn:E.
    + apply bytes_eqb_eq in E. exfalso. apply (Hnone b); simpl; auto.
    + apply IH; auto. intros e' Hin. apply Hnone. simpl; auto.
Qed.

Lemma find_title_loop_absent (es : list TitleEntry) (name : cstring) :
  (forall e, In e es -> display_name e <> name) ->
  find_title_loop es name = name.
Proof.
  induction es as [|b es IH]; intro Hnone; simpl; [reflexivity|].
  destruct (strcmp_eq (display_name b) name) eqn:E.
  - apply bytes_eqb_eq in E. exfalso. apply (Hnone b); simpl; auto.
  - apply IH. intros e Hin. apply Hnone. simpl; auto.
Qed.

Lemma live_empty (cache : TitleCache) : count cache <= 0 -> live cache = [].
Proof.
  unfold live. intro H. destruct (entries cache) as [|e es]; simpl; auto.
  destruct (Z.leb_spec (count cache) 0); [reflexivity | lia].
Qed.

(** C3. [find_title_path] returns the [full_path] of the first live
    entry whose [display_name] is the queried name; when no live entry
    has that name it returns the queried name itself, so that asking
    again with the answer changes nothing; on a cache with no live entry
    it is the identity. *)
Theorem find_title_path_resolves (cache : TitleCache) (name : cstring) :
  (forall before e after,
      live cache = before ++ e :: after ->
      display_name e = name ->
      (forall e', In e' before -> display_name e' <> name) ->
      find_title_path cache name = full_path e) /\
  ((forall e, In e (live cache) -> display_name e <> name) ->
      find_title_path cache name = name /\
      find_title_path cache (find_title_path cache name)
      = find_title_path cache name) /\
  (count cache <= 0 -> find_title_path cache name = name).
Proof.
  unfold find_title_path. split; [|split].
  - intros before e after Hlive He Hnone. rewrite Hlive.
    now apply find_title_loop_first.
  - intro Hnone. rewrite !find_title_loop_absent; auto.
  - intro H. now rewrite (live_empty cache H).
Qed.

Lemma find_title_path_resolves_witness :
  find_title_path sample_cache (cstr "b.xci") = cstr "/titles/sub/b.xci" /\
  find_title_path sample_cache (cstr "stale.nsp") = cstr "stale.nsp" /\
  find_title_path empty_cache (cstr "a.nsp") = cstr "a.nsp".
Proof.
  split; [|split].
  - destruct (find_title_path_resolves sample_cache (cstr "b.xci"))
      as [Hfirst _].
    apply (Hfirst [mkEntry (cstr "a.nsp") (cstr "/titles/a.nsp")]
                  (mkEntry (cstr "b.xci") (cstr "/titles/sub/b.xci"))
                  [mkEntry (cstr "b.xci") (cstr "/titles/other/b.xci")]).
    + reflexivity.
    + reflexivity.
    + intros e' [<-|[]]. vm_compute. discriminate.
  - destruct (find_title_path_resolves sample_cache (cstr "stale.nsp"))
      as [_ [Habsent _]].
    apply Habsent.
    intros e [<-|[<-|[<-|[]]]]; vm_compute; discriminate.
  - destruct (find_title_path_resolves empty_cache (cstr "a.nsp"))
      as [_ [_ Hempty]].
    apply Hempty. simpl. lia.
Defined.

(** ** [has_valid_extension] and the walk *)

Lemma strcasecmp_eq_length (a b : cstring) :
  strcasecmp_eq a b = true -> len a = len b.
Proof.
  unfold strcasecmp_eq. intro H. apply bytes_eqb_eq in H.
  apply (f_equal (@length byte)) in H. rewrite !length_map in H.
  unfold len. lia.
Qed.

Lemma drop_cons_pos {A} (n : Z) (x : A) (l : list A) :
  0 < n -> drop n (x :: l) = drop (n - 1) l.
Proof.
  intro H. simpl. destruct (Z.leb_spec n 0); [lia | reflexivity].
Qed.

Lemma drop_nonpos {A} (n : Z) (l : list A) : n <= 0 -> drop n l = l.
Proof.
  intro H. destruct l; simpl; auto.
  destruct (Z.leb_spec n 0); [reflexivity | lia].
Qed.

(** A tail of [name] matches [suffix] exactly when the last
    [len suffix] bytes of [name] do. *)
Lemma ends_with_ci_last (suffix : cstring) (name : cstring) :
  ends_with_ci name suffix
  = (len suffix <=? len name)
    && strcasecmp_eq (drop (len name - len suffix) name) suffix.
Proof.
  induction name as [|x t IH].
  - cbn [ends_with_ci drop]. rewrite orb_false_r.
    destruct (strcasecmp_eq [] suffix) eqn:E.
    + apply strcasecmp_eq_length in E. rewrite <- E.
      reflexivity.
    + now rewrite andb_false_r.
  - cbn [ends_with_ci]. rewrite IH, len_cons.
    pose proof (len_nonneg t) as Ht. pose proof (len_nonneg suffix) as Hs.
    destruct (Z.leb_spec (len suffix) (1 + len t)) as [Hle|Hgt]; cbn [andb].
    + destruct (Z.eq_dec (len suffix) (1 + len t)) as [Heq|Hne].
      * replace (1 + len t - len suffix) with 0 by lia.
        rewrite (drop_nonpos 0 (x :: t)) by lia.
        destruct (Z.leb_spec (len suffix) (len t)); [lia|].
        cbn [andb]. now rewrite orb_false_r.
      * destruct (Z.leb_spec (len suffix) (len t)); [|lia].
        rewrite drop_cons_pos by lia.
        replace (1 + len t - len suffix - 1) with (len t - len suffix) by lia.
        destruct (strcasecmp_eq (x :: t) suffix) eqn:E; [|reflexivity].
        apply strcasecmp_eq_length in E. rewrite len_cons in E. lia.
    + destruct (Z.leb_spec (len suffix) (len t)); [lia|].
      cbn [andb]. rewrite orb_false_r.
      destruct (strcasecmp_eq (x :: t) suffix) eqn:E; [|reflexivity].
      apply strcasecmp_eq_length in E. rewrite len_cons in E. lia.
Qed.

(** The test of the source is the test of the specification. *)
Lemma has_valid_extension_is_title_name (name : cstring) :
  has_valid_extension name = is_title_name name.
Proof.
  unfold has_valid_extension, is_title_name.
  rewrite !ends_with_ci_last.
  change (len (cstr ".nsp")) with 4. change (len (cstr ".xci")) with 4.
  change (len (cstr ".nsz")) with 4.
  destruct (Z.ltb_spec (len name) 4); destruct (Z.leb_spec 4 (len name));
    try lia; reflexivity.
Qed.

Lemma count_titles_nonneg :
  (forall d, 0 <= count_titles d) /\ (forall es, 0 <= count_titles_in es).
Proof.
  apply node_dirents_ind; try (cbn [count_titles count_titles_in]; lia).
  intros name child Hc rest Hr. cbn [count_titles_in].
  assert (0 <= match child with
               | RegularFile => if is_title_name name then 1 else 0
               | _ => count_titles child
               end)
    by (destruct child; try destruct (is_title_name name); lia).
  lia.
Qed.

(** Once the cache is full the loop is left at its test: nothing is
    examined, nothing recorded. *)
Lemma readdir_loop_full (st : cstring -> node) (path : cstring)
  (es : dirents) (s : scan_state) :
  MAX_TITLES <= count (cache_of s) -> readdir_loop st path es s = s.
Proof.
  intro H. destruct es; simpl; [reflexivity|].
  destruct (Z.ltb_spec (count (cache_of s)) MAX_TITLES); [lia | reflexivity].
Qed.

Lemma scan_directory_full (st : cstring -> node) (path : cstring) (d : node)
  (s : scan_state) :
  MAX_TITLES <= count (cache_of s) -> scan_directory st path d s = s.
Proof.
  intro H. destruct d; simpl; auto using readdir_loop_full.
Qed.

Local Ltac scan_side :=
  first [ assumption
        | cbn [count cache_of examined runaway add_title scan_directory
               count_titles count_titles_in] in *; lia ].

Local Ltac split_well_formed Hd Hdot Hfit Hchild Hrest :=
  cbn [well_formed_in] in Hd;
  apply andb_true_iff in Hd as [Hd Hrest];
  apply andb_true_iff in Hd as [Hd Hchild];
  apply andb_true_iff in Hd as [Hdot Hfit];
  apply negb_true_iff in Hdot.

(** On a tree whose paths fit, every call of the walk comes back. *)
Lemma scan_keeps_course (st : cstring -> node) :
  (forall d path s,
      well_formed path d = true ->
      runaway (scan_directory st path d s) = runaway s) /\
  (forall es path s,
      well_formed_in path es = true ->
      runaway (readdir_loop st path es s) = runaway s).
Proof.
  apply node_dirents_ind; try reflexivity.
  - intros es IH path s Hd. cbn [scan_directory]. now apply IH.
  - intros name child IHc rest IHr path s Hd.
    split_well_formed Hd Hdot Hfit Hchild Hrest.
    cbn [readdir_loop]. rewrite Hdot, Hfit. cbn [negb].
    destruct (count (cache_of s) <? MAX_TITLES); cbn [negb]; [|reflexivity].
    destruct child.
    + destruct (has_valid_extension name); now rewrite IHr.
    + match goal with
      | |- context [scan_directory st ?p ?c ?s0] =>
          pose proof (IHc p s0 Hchild) as Hc;
          destruct (runaway (scan_directory st p c s0)) eqn:E
      end.
      * now rewrite E.
      * rewrite IHr by assumption. rewrite E. exact Hc.
    + cbn [scan_directory runaway].
      destruct (runaway s) eqn:E; [reflexivity | now rewrite IHr].
    + now rewrite IHr.
    + now rewrite IHr.
Qed.

(** The count after a walk that starts with [count] entries. *)
Lemma scan_count (st : cstring -> node) :
  (forall d path s,
      well_formed path d = true -> runaway s = false ->
      count (cache_of s) <= MAX_TITLES ->
      count (cache_of (scan_directory st path d s))
      = Z.min (count (cache_of s) + count_titles d) MAX_TITLES) /\
  (forall es path s,
      well_formed_in path es = true -> runaway s = false ->
      count (cache_of s) <= MAX_TITLES ->
      count (cache_of (readdir_loop st path es s))
      = Z.min (count (cache_of s) + count_titles_in es) MAX_TITLES).
Proof.
  apply node_dirents_ind.
  - intros path s _ _ Hc. simpl. lia.
  - intros es IH path s Hd Hr Hc. simpl. now apply IH.
  - intros path s _ _ Hc. simpl. lia.
  - intros path s _ _ Hc. simpl. lia.
  - intros path s _ _ Hc. simpl. lia.
  - intros path s _ _ Hc. simpl. lia.
  - intros name child IHc rest IHr path s Hd Hr Hc.
    split_well_formed Hd Hdot Hfit Hchild Hrest.
    pose proof (proj2 count_titles_nonneg rest) as Hn.
    pose proof (proj1 count_titles_nonneg child) as Hm.
    cbn [readdir_loop count_titles_in]. rewrite Hdot, Hfit.
    destruct (Z.ltb_spec (count (cache_of s)) MAX_TITLES) as [Hlt|Hge];
      cbn [negb].
    2:{ destruct child; try destruct (is_title_name name); lia. }
    destruct child.
    + rewrite has_valid_extension_is_title_name.
      destruct (is_title_name name); rewrite IHr by scan_side; scan_side.
    + rewrite (proj1 (scan_keeps_course st)) by assumption.
      cbn [runaway]. rewrite Hr.
      rewrite IHr; [|assumption| |].
      * rewrite IHc by scan_side. scan_side.
      * now rewrite (proj1 (scan_keeps_course st)) by assumption.
      * rewrite IHc by scan_side. scan_side.
    + cbn [scan_directory runaway]. rewrite Hr. rewrite IHr by scan_side.
      scan_side.
    + rewrite IHr by scan_side. scan_side.
    + rewrite IHr by scan_side. scan_side.
Qed.

(** Below capacity the walk reaches every entry of the tree. *)
Lemma scan_complete_below_capacity (st : cstring -> node) :
  (forall d path s,
      well_formed path d = true -> runaway s = false ->
      count (cache_of s) + count_titles d < MAX_TITLES ->
      len (examined (scan_directory st path d s))
      = len (examined s) + count_entries d) /\
  (forall es path s,
      well_formed_in path es = true -> runaway s = false ->
      count (cache_of s) + count_titles_in es < MAX_TITLES ->
      len (examined (readdir_loop st path es s))
      = len (examined s) + count_entries_in es).
Proof.
  apply node_dirents_ind;
    try (intros; cbn [scan_directory readdir_loop count_entries
                      count_entries_in]; lia).
  - intros es IH path s Hd Hr Hc. cbn [scan_directory count_entries].
    now apply IH.
  - intros name child IHc rest IHr path s Hd Hr Hc.
    split_well_formed Hd Hdot Hfit Hchild Hrest.
    pose proof (proj2 count_titles_nonneg rest) as Hn.
    pose proof (proj1 count_titles_nonneg child) as Hm.
    cbn [readdir_loop count_titles_in count_entries_in] in *.
    rewrite Hdot, Hfit.
    assert (Hlt : count (cache_of s) < MAX_TITLES)
      by (destruct child; try destruct (is_title_name name); lia).
    destruct (Z.ltb_spec (count (cache_of s)) MAX_TITLES); [|lia].
    cbn [negb].
    destruct child.
    + rewrite has_valid_extension_is_title_name.
      destruct (is_title_name name); rewrite IHr by scan_side;
        cbn [examined count_entries]; rewrite len_cons; lia.
    + rewrite (proj1 (scan_keeps_course st)) by assumption.
      cbn [runaway]. rewrite Hr.
      rewrite IHr; [|assumption| |].
      * rewrite IHc by scan_side. cbn [examined]. rewrite len_cons. lia.
      * now rewrite (proj1 (scan_keeps_course st)) by assumption.
      * rewrite (proj1 (scan_count st)) by scan_side. scan_side.
    + cbn [scan_directory runaway]. rewrite Hr. rewrite IHr by scan_side.
      cbn [examined count_entries]. rewrite len_cons. lia.
    + rewrite IHr by scan_side.
      cbn [examined count_entries]. rewrite len_cons. lia.
    + rewrite IHr by scan_side.
      cbn [examined count_entries]. rewrite len_cons. lia.
Qed.

(** C2, as amended.  On a tree that lists children only and whose
    joined paths fit the path buffer, rescanning (count set to zero,
    then the recursive walk) leaves a count equal to the number of
    regular files under the root whose name ends, in any case of
    letters, in .nsp, .xci or .nsz, capped at [MAX_TITLES]; below the
    cap the walk reaches every entry; and once the cache is full the
    loop is left at once, with no error: no further entry is examined
    and none is recorded. *)
Theorem rescan_count_capped (st : cstring -> node) (work_dir : cstring)
  (root : node) (cache : TitleCache) :
  well_formed work_dir root = true ->
  count (cache_of (rescan st work_dir root cache))
  = Z.min (count_titles root) MAX_TITLES /\
  (count_titles root < MAX_TITLES ->
   len (examined (rescan st work_dir root cache)) = count_entries root) /\
  (forall path es s,
      MAX_TITLES <= count (cache_of s) -> readdir_loop st path es s = s).
Proof.
  intro Hd. unfold rescan. split; [|split].
  - rewrite (proj1 (scan_count st)) by (auto; cbn; unfold MAX_TITLES; lia).
    reflexivity.
  - intro Hlt.
    rewrite (proj1 (scan_complete_below_capacity st)) by (auto; cbn; lia).
    reflexivity.
  - intros path es s. apply readdir_loop_full.
Qed.

Lemma rescan_count_capped_witness :
  count (cache_of (rescan nothing_else (cstr "/titles") sample_tree
                          empty_cache)) = 3 /\
  len (examined (rescan nothing_else (cstr "/titles") sample_tree
                        empty_cache)) = 6.
Proof.
  destruct (rescan_count_capped nothing_else (cstr "/titles") sample_tree
                                empty_cache)
    as [Hcount [Hwalk _]]; [reflexivity|].
  split.
  - rewrite Hcount. reflexivity.
  - rewrite Hwalk; [reflexivity | vm_compute; reflexivity].
Defined.

(** Why the walk is stated for paths that fit.  Under "/titles", fifteen
    nested directories with names of 255 bytes leave the title within
    reach; with sixteen the path of the innermost one exceeds
    [MAX_PATH_LEN - 1] bytes, [snprintf] cuts it, and what happens next
    is decided by what stands at the cut path.  If nothing does, the
    title below is not found. *)
Lemma deep_title_is_missed :
  well_formed (cstr "/titles") (deep_tree 15) = true /\
  count (cache_of (rescan nothing_else (cstr "/titles") (deep_tree 15)
                          empty_cache)) = 1 /\
  well_formed (cstr "/titles") (deep_tree 16) = false /\
  count_titles (deep_tree 16) = 1 /\
  count (cache_of (rescan nothing_else (cstr "/titles") (deep_tree 16)
                          empty_cache)) = 0.
Proof. vm_compute. repeat split. Qed.

(** In the innermost directory of that chain, a title name of 255
    bytes is cut to its first 247.  If a file of that shorter name
    stands beside it, [stat] finds that one, and a title is recorded
    that bears the long name and the path of the other file.  If a
    directory with an entry stands there, the walk does not come back;
    if the directory has nothing to list, or nothing stands there, the
    entry is passed over. *)
Lemma cut_path_is_looked_up :
  let short_name := repeat "b"%byte 247 in
  let long_name := repeat "b"%byte 251 ++ cstr ".nsp" in
  let cut := join_path (deep_path 15) long_name in
  let r st := rescan st (cstr "/titles")
                     (deep_tree_with 15 [short_name; long_name])
                     empty_cache in
  path_fits (deep_path 15) long_name = false /\
  cut = deep_path 15 ++ cstr "/" ++ short_name /\
  live (cache_of (r (only_at cut RegularFile)))
  = [mkEntry (cstr "x.nsp") (deep_path 15 ++ cstr "/x.nsp");
     mkEntry long_name cut] /\
  runaway (r (only_at cut RegularFile)) = false /\
  live (cache_of (r nothing_else))
  = [mkEntry (cstr "x.nsp") (deep_path 15 ++ cstr "/x.nsp")] /\
  runaway (r (only_at cut (Directory (listing [(cstr "y", RegularFile)]))))
  = true /\
  r (only_at cut (Directory (listing [(cstr ".", ClosedDirectory)])))
  = r nothing_else.
Proof. vm_compute. repeat split. Qed.

(** C2, as first stated, fails on a directory of 1025 titles: the walk
    records 1024 of them and leaves the loop without handing the last
    entry to [stat], so scanning does not go on once the cache is full. *)
Lemma rescan_stops_at_capacity :
  let root := crowded_directory 1025 in
  let r := rescan nothing_else (cstr "/titles") root empty_cache in
  well_formed (cstr "/titles") root = true /\
  count_titles root = 1025 /\
  count_entries root = 1025 /\
  count (cache_of r) = 1024 /\
  len (examined r) = 1024 /\
  existsb (bytes_eqb (join_path (cstr "/titles") (numbered_title 1024)))
          (examined r) = false /\
  ~ len (examined r) = count_entries root.
Proof.
  vm_compute. repeat split; try reflexivity. discriminate.
Qed.

(** ** The polling loop *)

Lemma read_header_some (o : byte_order) (data : list byte) :
  16 <= len data ->
  exists hd, read_header o data = Some hd /\ magic hd = take 4 data.
Proof.
  intro H. unfold read_header, load32, load.
  repeat match goal with
  | |- context [(0 <=? ?a) && (?b <=? len data)] =>
      replace ((0 <=? a) && (b <=? len data)) with true
        by (symmetry; apply andb_true_iff; split; apply Z.leb_le; lia)
  end.
  eexists. split; reflexivity.
Qed.

Lemma magic_ok_iff (hd : CommandHeader) :
  magic_ok hd = true <-> magic hd = MAGIC.
Proof. apply bytes_eqb_eq. Qed.

(** One turn of the loop on a transfer that is no well-framed header. *)
Lemma poll_iteration_discards (h : host) (s : state) (t : transfer)
  (rest : list transfer) :
  inbound s = t :: rest ->
  match t with
  | Failed _ => True
  | Received data => len data <> 16 \/ take 4 data <> MAGIC
  end ->
  poll_iteration h s = Done LoopAgain (mkState rest (outbound s) (cache s)).
Proof.
  intros Hin Hbad. unfold poll_iteration, bind, usb_read. rewrite Hin.
  destruct t as [data|code].
  - destruct (Z.leb_spec (len data) 16) as [Hle|Hgt]; cbn [fst snd].
    + destruct (Z.ltb_spec (len data) 16) as [Hlt|Hge]; [reflexivity|].
      destruct (read_header_some (order h) data Hge) as [hd [Hhd Hmagic]].
      rewrite Hhd.
      destruct (magic_ok hd) eqn:E; [|reflexivity].
      apply magic_ok_iff in E. rewrite Hmagic in E.
      destruct Hbad as [Hbad|Hbad]; [lia | contradiction].
    + reflexivity.
  - cbn [fst]. destruct (Z.ltb_spec (Z.neg code) 16); [reflexivity | lia].
Qed.

(** C7. When the header read is short (fewer than 16 bytes) or the
    first four bytes are not the magic tag, the turn of the loop ends
    with the loop going round again: the transfer is consumed, nothing
    is written, the cache is untouched, and what the rest of the bytes
    were plays no part. *)
Theorem bad_frame_is_discarded (h : host) (s : state) (data : list byte)
  (rest : list transfer) :
  inbound s = Received data :: rest ->
  len data < 16 \/ take 4 data <> MAGIC ->
  poll_iteration h s = Done LoopAgain (mkState rest (outbound s) (cache s)).
Proof.
  intros Hin Hbad. apply (poll_iteration_discards h s (Received data) rest Hin).
  destruct Hbad as [Hshort|Hmagic]; [left; lia | right; exact Hmagic].
Qed.

Lemma bad_frame_is_discarded_witness :
  poll_iteration sample_host
    (mkState [Received (cstr "DBI"); Received (cstr "0123456789abcdef")]
             [] empty_cache)
  = Done LoopAgain
      (mkState [Received (cstr "0123456789abcdef")] [] empty_cache) /\
  poll_iteration sample_host
    (mkState [Received (cstr "0123456789abcdef")] [] empty_cache)
  = Done LoopAgain (mkState [] [] empty_cache).
Proof.
  split.
  - apply (bad_frame_is_discarded sample_host
             (mkState [Received (cstr "DBI");
                       Received (cstr "0123456789abcdef")] [] empty_cache)
             (cstr "DBI") [Received (cstr "0123456789abcdef")]).
    + reflexivity.
    + left. vm_compute. reflexivity.
  - apply (bad_frame_is_discarded sample_host
             (mkState [Received (cstr "0123456789abcdef")] [] empty_cache)
             (cstr "0123456789abcdef") []).
    + reflexivity.
    + right. vm_compute. discriminate.
Defined.

(** One turn of the loop on a well-framed header: the [switch]. *)
Lemma poll_iteration_dispatch (h : host) (s : state) (data : list byte)
  (rest : list transfer) (hd : CommandHeader) :
  inbound s = Received data :: rest ->
  len data = 16 ->
  read_header (order h) data = Some hd ->
  magic_ok hd = true ->
  poll_iteration h s
  = (if cmd_id hd =? CMD_EXIT then
       process_exit_command h ;; ret Return
     else if cmd_id hd =? CMD_LIST then
       process_list_command h ;; ret LoopAgain
     else if cmd_id hd =? CMD_FILE_RANGE then
       process_file_range_command h (data_size hd) ;; ret LoopAgain
     else
       process_exit_command h ;; ret Return)
      (mkState rest (outbound s) (cache s)).
Proof.
  intros Hin Hlen Hhd Hmagic.
  unfold poll_iteration at 1. unfold bind at 1. unfold usb_read.
  rewrite Hin, Hlen. cbn [Z.leb Z.compare Pos.compare Pos.compare_cont fst snd].
  cbn [Z.ltb Z.compare Pos.compare Pos.compare_cont].
  rewrite Hhd, Hmagic. reflexivity.
Qed.

Lemma exit_path (h : host) (s : state) :
  (process_exit_command h ;; ret Return) s
  = Done Return
      (mkState (inbound s)
         (outbound s ++ [make_header (order h) CMD_TYPE_RESPONSE CMD_EXIT 0])
         (cache s)).
Proof. reflexivity. Qed.

(** C8. A well-framed header whose command id is none of 0 (Exit),
    2 (FileRange), 3 (List), the unused id 1 among them, makes the loop
    write one Exit/Response header with payload length 0 and return: no
    further transfer is read, whatever is still to come. *)
Theorem unknown_command_ends_session (h : host) (s : state)
  (data : list byte) (rest : list transfer) (hd : CommandHeader) :
  inbound s = Received data :: rest ->
  len data = 16 ->
  read_header (order h) data = Some hd ->
  magic_ok hd = true ->
  cmd_id hd <> CMD_EXIT ->
  cmd_id hd <> CMD_FILE_RANGE ->
  cmd_id hd <> CMD_LIST ->
  let s' := mkState rest
              (outbound s
               ++ [make_header (order h) CMD_TYPE_RESPONSE CMD_EXIT 0])
              (cache s) in
  poll_iteration h s = Done Return s' /\
  (forall fuel, poll_loop h (S fuel) s = Done tt s') /\
  read_header (order h) (make_header (order h) CMD_TYPE_RESPONSE CMD_EXIT 0)
  = Some (mkHeader MAGIC CMD_TYPE_RESPONSE CMD_EXIT 0).
Proof.
  intros Hin Hlen Hhd Hmagic H0 H2 H3 s'.
  assert (Hstep : poll_iteration h s = Done Return s').
  { rewrite (poll_iteration_dispatch h s data rest hd) by assumption.
    destruct (Z.eqb_spec (cmd_id hd) CMD_EXIT); [contradiction|].
    destruct (Z.eqb_spec (cmd_id hd) CMD_LIST); [contradiction|].
    destruct (Z.eqb_spec (cmd_id hd) CMD_FILE_RANGE); [contradiction|].
    apply exit_path. }
  split; [exact Hstep | split].
  - intro fuel. cbn [poll_loop]. unfold bind. rewrite Hstep. reflexivity.
  - apply (read_make_header (order h)).
Qed.

Lemma unknown_command_ends_session_witness :
  poll_loop sample_host 3
    (mkState [Received (request_header LittleEndian CMD_LIST_DEPRECATED 0);
              Received (request_header LittleEndian CMD_LIST 0)]
             [] empty_cache)
  = Done tt
      (mkState [Received (request_header LittleEndian CMD_LIST 0)]
               [make_header LittleEndian CMD_TYPE_RESPONSE CMD_EXIT 0]
               empty_cache).
Proof.
  apply (unknown_command_ends_session sample_host
           (mkState
              [Received (request_header LittleEndian CMD_LIST_DEPRECATED 0);
               Received (request_header LittleEndian CMD_LIST 0)]
              [] empty_cache)
           (request_header LittleEndian CMD_LIST_DEPRECATED 0)
           [Received (request_header LittleEndian CMD_LIST 0)]
           (mkHeader MAGIC CMD_TYPE_REQUEST CMD_LIST_DEPRECATED 0));
    try reflexivity; vm_compute; discriminate.
Defined.

Lemma then_loop_again_never_returns {A : Type} (c : M A) (s s' : state) :
  (c ;; ret LoopAgain) s <> Done Return s'.
Proof.
  unfold bind, ret. destruct (c s); discriminate.
Qed.

(** A turn of the loop that ends in [return] has read a well-framed
    header whose id is neither List nor FileRange. *)
Lemma poll_iteration_returns (h : host) (s s' : state) :
  poll_iteration h s = Done Return s' ->
  exists data rest hd,
    inbound s = Received data :: rest /\
    len data = 16 /\
    read_header (order h) data = Some hd /\
    magic_ok hd = true /\
    cmd_id hd <> CMD_LIST /\
    cmd_id hd <> CMD_FILE_RANGE /\
    s' = mkState rest
           (outbound s ++ [make_header (order h) CMD_TYPE_RESPONSE CMD_EXIT 0])
           (cache s).
Proof.
  intro H. destruct (inbound s) as [|[data|code] rest] eqn:Hin.
  - unfold poll_iteration, bind, usb_read in H. rewrite Hin in H. discriminate.
  - destruct (Z.eq_dec (len data) 16) as [Hlen|Hlen].
    + assert (Hge : 16 <= len data) by lia.
      destruct (read_header_some (order h) data Hge) as [hd [Hhd Hmagic]].
      destruct (magic_ok hd) eqn:Hok.
      * rewrite (poll_iteration_dispatch h s data rest hd) in H by assumption.
        exists data, rest, hd.
        destruct (Z.eqb_spec (cmd_id hd) CMD_EXIT) as [E0|E0].
        { rewrite exit_path in H. injection H as <-. cbn [inbound outbound cache].
          unfold CMD_LIST, CMD_FILE_RANGE, CMD_EXIT in *.
          repeat split; auto; lia. }
        destruct (Z.eqb_spec (cmd_id hd) CMD_LIST) as [E3|E3].
        { now apply then_loop_again_never_returns in H. }
        destruct (Z.eqb_spec (cmd_id hd) CMD_FILE_RANGE) as [E2|E2].
        { now apply then_loop_again_never_returns in H. }
        rewrite exit_path in H. injection H as <-. cbn [inbound outbound cache].
        repeat split; auto.
      * rewrite (poll_iteration_discards h s (Received data) rest Hin) in H.
        -- discriminate.
        -- right. rewrite <- Hmagic. intro E. apply magic_ok_iff in E.
           congruence.
    + rewrite (poll_iteration_discards h s (Received data) rest Hin) in H.
      * discriminate.
      * now left.
  - rewrite (poll_iteration_discards h s (Failed code) rest Hin) in H
      by exact I.
    discriminate.
Qed.

Lemma poll_loop_returns (h : host) (fuel : nat) : forall s s',
  poll_loop h fuel s = Done tt s' ->
  exists s1, turns h s s1 /\ poll_iteration h s1 = Done Return s'.
Proof.
  induction fuel as [|fuel IH]; intros s s' H.
  - discriminate.
  - cbn [poll_loop] in H. unfold bind in H.
    destruct (poll_iteration h s) as [[|] s1| | |] eqn:E; try discriminate.
    + destruct (IH s1 s' H) as (s2 & Hturns & Hlast).
      exists s2. split; [|exact Hlast].
      now apply (turns_more h s s1 s2).
    + injection H as <-. exists s. split; [constructor | exact E].
Qed.

(** C6, as amended.  The loop returns only after a well-framed header
    carrying Exit or an id no handler serves: every run that returns is
    made of turns that go round again and a last turn on such a header,
    and an Exit header does end the run.  A failed header read is taken
    like a short one: the loop goes round again and reads the next
    transfer. *)
Theorem loop_ends_on_exit_only (h : host) :
  (forall fuel s s',
      poll_loop h fuel s = Done tt s' ->
      exists s1 data rest hd,
        turns h s s1 /\
        poll_iteration h s1 = Done Return s' /\
        inbound s1 = Received data :: rest /\
        len data = 16 /\
        read_header (order h) data = Some hd /\
        magic_ok hd = true /\
        cmd_id hd <> CMD_LIST /\
        cmd_id hd <> CMD_FILE_RANGE) /\
  (forall s data rest hd fuel,
      inbound s = Received data :: rest ->
      len data = 16 ->
      read_header (order h) data = Some hd ->
      magic_ok hd = true ->
      cmd_id hd = CMD_EXIT ->
      poll_loop h (S fuel) s
      = Done tt
          (mkState rest
             (outbound s
              ++ [make_header (order h) CMD_TYPE_RESPONSE CMD_EXIT 0])
             (cache s))) /\
  (forall s code rest fuel,
      inbound s = Failed code :: rest ->
      poll_iteration h s
      = Done LoopAgain (mkState rest (outbound s) (cache s)) /\
      poll_loop h (S fuel) s
      = poll_loop h fuel (mkState rest (outbound s) (cache s))).
Proof.
  split; [|split].
  - intros fuel s s' H.
    destruct (poll_loop_returns h fuel s s' H) as (s1 & Hturns & Hs1).
    destruct (poll_iteration_returns h s1 s' Hs1)
      as (data & rest & hd & Hin & Hlen & Hhd & Hok & H3 & H2 & _).
    exists s1, data, rest, hd. repeat split; assumption.
  - intros s data rest hd fuel Hin Hlen Hhd Hok Hexit.
    cbn [poll_loop]. unfold bind at 1.
    rewrite (poll_iteration_dispatch h s data rest hd) by assumption.
    rewrite Hexit. cbn [Z.eqb CMD_EXIT]. rewrite exit_path. reflexivity.
  - intros s code rest fuel Hin.
    assert (Hstep : poll_iteration h s
                    = Done LoopAgain (mkState rest (outbound s) (cache s)))
      by (apply (poll_iteration_discards h s (Failed code) rest Hin); exact I).
    split; [exact Hstep|].
    cbn [poll_loop]. unfold bind at 1. now rewrite Hstep.
Qed.

Lemma loop_ends_on_exit_only_witness :
  poll_loop sample_host 2
    (mkState [Received (request_header LittleEndian CMD_EXIT 0)] []
             empty_cache)
  = Done tt
      (mkState [] [make_header LittleEndian CMD_TYPE_RESPONSE CMD_EXIT 0]
               empty_cache).
Proof.
  destruct (loop_ends_on_exit_only sample_host) as [_ [Hexit _]].
  apply (Hexit (mkState [Received (request_header LittleEndian CMD_EXIT 0)] []
                        empty_cache)
               (request_header LittleEndian CMD_EXIT 0) []
               (mkHeader MAGIC CMD_TYPE_REQUEST CMD_EXIT 0) 1%nat);
    reflexivity.
Defined.

(** C6, as first stated, fails: after a failed header read (here
    LIBUSB_ERROR_NO_DEVICE, -4) the loop does not stop.  It reads again,
    and serves the Exit command that follows. *)
Lemma read_error_polls_again :
  let device := [Failed 4; Received (request_header LittleEndian CMD_EXIT 0)] in
  poll_iteration sample_host (mkState device [] empty_cache)
  = Done LoopAgain
      (mkState [Received (request_header LittleEndian CMD_EXIT 0)] []
               empty_cache) /\
  poll_commands sample_host device
  = Done tt
      (mkState [] [make_header LittleEndian CMD_TYPE_RESPONSE CMD_EXIT 0]
               empty_cache).
Proof.
  vm_compute. split; reflexivity.
Qed.

(** ** Streaming a range *)

Lemma take_add {A} (l : list A) : forall a b,
  0 <= a -> 0 <= b -> take (a + b) l = take a l ++ take b (drop a l).
Proof.
  intros a b Ha Hb. rewrite !take_firstn, drop_skipn.
  replace (Z.to_nat (a + b)) with (Z.to_nat a + Z.to_nat b)%nat by lia.
  generalize (Z.to_nat a) as n. generalize (Z.to_nat b) as m. clear.
  intros m n. revert l. induction n as [|n IH]; intro l; [reflexivity|].
  destruct l as [|x l]; simpl.
  - now rewrite firstn_nil.
  - now rewrite IH.
Qed.

Lemma stream_loop_at_end (fuel : nat) (end_off read_size : Z) (f : FILE)
  (s : state) :
  stream_loop fuel end_off end_off read_size f s = Done tt s.
Proof.
  destruct fuel; cbn [stream_loop]; rewrite Z.ltb_irrefl; reflexivity.
Qed.

Lemma state_eta (s : state) :
  mkState (inbound s) (outbound s) (cache s) = s.
Proof. now destruct s. Qed.

(** The loop on a stream that holds all the bytes asked for. *)
Lemma stream_loop_full (end_off : Z) (fuel : nat) : forall curr_off f s,
  0 <= curr_off <= end_off -> end_off < 2 ^ 32 ->
  end_off - curr_off <= len f ->
  end_off - curr_off <= Z.of_nat fuel * BUFFER_SEGMENT_DATA_SIZE ->
  exists chunks,
    stream_loop fuel curr_off end_off BUFFER_SEGMENT_DATA_SIZE f s
    = Done tt (mkState (inbound s) (outbound s ++ chunks) (cache s)) /\
    concat chunks = take (end_off - curr_off) f /\
    Forall chunk_sized chunks.
Proof.
  induction fuel as [|fuel IH]; intros curr_off f s Hc He Hf Hfuel.
  - exists []. assert (curr_off = end_off) by lia. subst.
    rewrite stream_loop_at_end, app_nil_r, state_eta, Z.sub_diag.
    repeat split; [|constructor]. destruct f; reflexivity.
  - cbn [stream_loop].
    destruct (Z.ltb_spec curr_off end_off) as [Hlt|Hge].
    2:{ exists []. assert (curr_off = end_off) by lia. subst.
        rewrite app_nil_r, state_eta, Z.sub_diag.
        repeat split; [|constructor]. destruct f; reflexivity. }
    unfold BUFFER_SEGMENT_DATA_SIZE in *.
    rewrite (Z.mod_small (curr_off + 0x100000)) by lia.
    unfold fread.
    destruct (Z.geb_spec (curr_off + 0x100000) end_off) as [Hlast|Hmore].
    + rewrite (Z.mod_small (end_off - curr_off)) by lia.
      rewrite len_take.
      replace (Z.max 0 (Z.min (end_off - curr_off) (len f)))
        with (end_off - curr_off) by lia.
      rewrite Z.eqb_refl. cbn [negb]. unfold bind, usb_write.
      replace ((curr_off + (end_off - curr_off)) mod 2 ^ 64) with end_off
        by (rewrite Z.mod_small; lia).
      rewrite stream_loop_at_end. cbn [inbound outbound cache].
      exists [take (end_off - curr_off) f]. repeat split.
      * simpl. apply app_nil_r.
      * constructor; [|constructor]. unfold chunk_sized, BUFFER_SEGMENT_DATA_SIZE.
        rewrite len_take. lia.
    + rewrite len_take.
      replace (Z.max 0 (Z.min 0x100000 (len f))) with 0x100000 by lia.
      rewrite Z.eqb_refl. cbn [negb]. unfold bind at 1. unfold usb_write at 1.
      rewrite (Z.mod_small (curr_off + 0x100000)) by lia.
      destruct (IH (curr_off + 0x100000) (drop 0x100000 f)
                   (mkState (inbound s) (outbound s ++ [take 0x100000 f])
                            (cache s)))
        as (chunks & Hrun & Hcat & Hall); try lia.
      { rewrite len_drop. lia. }
      rewrite Hrun. cbn [inbound outbound cache].
      exists (take 0x100000 f :: chunks). repeat split.
      * now rewrite <- app_assoc.
      * cbn [concat]. rewrite Hcat.
        replace (end_off - curr_off)
          with (0x100000 + (end_off - (curr_off + 0x100000))) by lia.
        rewrite take_add by lia. reflexivity.
      * constructor; [|exact Hall].
        unfold chunk_sized, BUFFER_SEGMENT_DATA_SIZE. rewrite len_take. lia.
Qed.

(** The loop on a stream that runs out before the range does: the whole
    chunks that could be read are written, and the loop is left at the
    first short read. *)
Lemma stream_loop_short (end_off : Z) (fuel : nat) : forall curr_off f s,
  0 <= curr_off <= end_off -> end_off < 2 ^ 32 ->
  len f < end_off - curr_off ->
  end_off - curr_off <= Z.of_nat fuel * BUFFER_SEGMENT_DATA_SIZE ->
  exists chunks,
    stream_loop fuel curr_off end_off BUFFER_SEGMENT_DATA_SIZE f s
    = Done tt (mkState (inbound s) (outbound s ++ chunks) (cache s)) /\
    concat chunks
    = take (len f / BUFFER_SEGMENT_DATA_SIZE * BUFFER_SEGMENT_DATA_SIZE) f /\
    Forall (fun c => len c = BUFFER_SEGMENT_DATA_SIZE) chunks.
Proof.
  induction fuel as [|fuel IH]; intros curr_off f s Hc He Hf Hfuel.
  - pose proof (len_nonneg f). lia.
  - pose proof (len_nonneg f) as Hlen.
    cbn [stream_loop].
    destruct (Z.ltb_spec curr_off end_off) as [Hlt|Hge]; [|lia].
    unfold BUFFER_SEGMENT_DATA_SIZE in *.
    rewrite (Z.mod_small (curr_off + 0x100000)) by lia.
    unfold fread.
    assert (Hnone : len f < 0x100000 ->
                    take (len f / 0x100000 * 0x100000) f = []).
    { intro Hsmall. rewrite Z.div_small by lia. destruct f; reflexivity. }
    destruct (Z.geb_spec (curr_off + 0x100000) end_off) as [Hlast|Hmore].
    + rewrite (Z.mod_small (end_off - curr_off)) by lia.
      rewrite len_take.
      destruct (Z.eqb_spec (Z.max 0 (Z.min (end_off - curr_off) (len f)))
                           (end_off - curr_off)); [lia|].
      cbn [negb]. exists [].
      rewrite app_nil_r, state_eta, Hnone by lia.
      repeat split. constructor.
    + rewrite len_take.
      destruct (Z.eqb_spec (Z.max 0 (Z.min 0x100000 (len f))) 0x100000)
        as [Hfull|Hshort]; cbn [negb].
      2:{ exists []. rewrite app_nil_r, state_eta, Hnone by lia.
          repeat split. constructor. }
      unfold bind at 1. unfold usb_write at 1.
      rewrite (Z.mod_small (curr_off + 0x100000)) by lia.
      destruct (IH (curr_off + 0x100000) (drop 0x100000 f)
                   (mkState (inbound s) (outbound s ++ [take 0x100000 f])
                            (cache s)))
        as (chunks & Hrun & Hcat & Hall); try lia.
      { rewrite len_drop. lia. }
      rewrite Hrun. cbn [inbound outbound cache].
      exists (take 0x100000 f :: chunks). repeat split.
      * now rewrite <- app_assoc.
      * cbn [concat]. rewrite Hcat, len_drop.
        replace (Z.max 0 (Z.min 0x100000 (len f))) with 0x100000 by lia.
        replace (len f / 0x100000 * 0x100000)
          with (0x100000 + (len f - 0x100000) / 0x100000 * 0x100000).
        -- rewrite take_add; [reflexivity | lia |].
           apply Z.mul_nonneg_nonneg; [|lia].
           apply Z.div_pos; lia.
        -- replace (len f) with ((len f - 0x100000) + 1 * 0x100000) at 2 by lia.
           rewrite Z.div_add by lia. lia.
      * constructor; [|exact Hall]. rewrite len_take. lia.
Qed.

(** An offset within the file is accepted whatever the limit. *)
Lemma fseek_within (limit : Z) (f : FILE) (offset : Z) :
  offset <= len f -> len f < 2 ^ 63 ->
  fseek limit f offset = drop offset f.
Proof.
  intros Hin Hlen. unfold fseek.
  destruct (Z.ltb_spec offset (2 ^ 63)); [|lia].
  destruct (Z.leb_spec offset (Z.max (len f) limit)); [reflexivity | lia].
Qed.

(** An offset that arrives negative is refused. *)
Lemma fseek_negative (limit : Z) (f : FILE) (offset : Z) :
  2 ^ 63 <= offset -> fseek limit f offset = f.
Proof.
  intro H. unfold fseek.
  destruct (Z.ltb_spec offset (2 ^ 63)); [lia | reflexivity].
Qed.


Lemma stream_fuel_enough (size : Z) :
  0 <= size ->
  size - 0 <= Z.of_nat (stream_fuel size) * BUFFER_SEGMENT_DATA_SIZE.
Proof.
  intro H. unfold stream_fuel, BUFFER_SEGMENT_DATA_SIZE.
  pose proof (Z.div_pos size 0x100000 H ltac:(lia)).
  pose proof (Z.mod_pos_bound size 0x100000 ltac:(lia)).
  pose proof (Z.div_mod size 0x100000 ltac:(lia)).
  lia.
Qed.

Lemma le_value_bound (bs : list byte) :
  0 <= le_value bs < 2 ^ (8 * len bs).
Proof.
  induction bs as [|b bs IH].
  - simpl. unfold len. simpl. lia.
  - cbn [le_value]. rewrite len_cons.
    pose proof (Z_of_byte_range b). pose proof (len_nonneg bs).
    replace (8 * (1 + len bs)) with (8 + 8 * len bs) by lia.
    rewrite Z.pow_add_r by lia. change (2 ^ 8) with 256. lia.
Qed.

Lemma load_bound (o : byte_order) (width : Z) (buf : list byte) (off v : Z) :
  0 <= width ->
  load o width buf off = Some v -> 0 <= v < 2 ^ (8 * width).
Proof.
  intros Hw. unfold load.
  destruct ((0 <=? off) && (off + width <=? len buf)) eqn:E; [|discriminate].
  intro H. injection H as <-.
  apply andb_true_iff in E as [E1 E2].
  apply Z.leb_le in E1. apply Z.leb_le in E2.
  pose proof (le_value_bound (in_order o (take width (drop off buf)))) as Hb.
  assert (Hl : len (in_order o (take width (drop off buf))) = width).
  { unfold len at 1. rewrite length_in_order. fold (len (take width (drop off buf))).
    rewrite len_take, len_drop. lia. }
  now rewrite Hl in Hb.
Qed.

Lemma parse_file_range_bounds (o : byte_order) (buf : list byte)
  (req : FileRangeRequest) :
  parse_file_range o buf = Some req ->
  0 <= range_size req < 2 ^ 32 /\ 0 <= range_offset req < 2 ^ 64.
Proof.
  unfold parse_file_range.
  destruct (load32 o buf 0) as [size|] eqn:E1; [|discriminate].
  destruct (load64 o buf 4) as [offset|] eqn:E2; [|discriminate].
  destruct (load32 o buf 12) as [nl|]; [|discriminate].
  destruct (strncpy_from _ _) as [name|]; [|discriminate].
  intro H. injection H as <-. cbn [range_size range_offset].
  apply load_bound in E1; [|lia]. apply load_bound in E2; [|lia].
  split; assumption.
Qed.

(** ** The FileRange handler *)

(** The handler up to [fopen]: the two headers are written and the two
    transfers read. *)
Lemma file_range_exchange (h : host) (data_size : Z) (s : state)
  (payload : list byte) (ack : transfer) (rest : list transfer)
  (req : FileRangeRequest) :
  malloc_ok h data_size = true ->
  inbound s = Received payload :: ack :: rest ->
  len payload <= int_of_uint32 data_size ->
  parse_file_range (order h) payload = Some req ->
  let s2 :=
    mkState rest
      (outbound s
       ++ [make_header (order h) CMD_TYPE_ACK CMD_FILE_RANGE data_size;
           make_header (order h) CMD_TYPE_RESPONSE CMD_FILE_RANGE
                       (range_size req)])
      (cache s) in
  process_file_range_command h data_size s
  = match fopen h (find_title_path (cache s) (nsp_name req)) with
    | None => Done tt s2
    | Some content =>
        if negb (malloc_ok h BUFFER_SEGMENT_DATA_SIZE) then Done tt s2
        else stream_loop (stream_fuel (range_size req)) 0 (range_size req)
               BUFFER_SEGMENT_DATA_SIZE
               (fseek (max_offset h) content (range_offset req)) s2
    end.
Proof.
  intros Hmalloc Hin Hlen Hparse s2.
  unfold process_file_range_command.
  unfold bind at 1. unfold usb_write at 1. rewrite Hmalloc. cbn [negb].
  unfold bind at 1. unfold usb_read at 1. cbn [inbound outbound cache].
  rewrite Hin.
  destruct (Z.leb_spec (len payload) (int_of_uint32 data_size)); [|lia].
  cbn [snd]. rewrite Hparse.
  unfold bind at 1. unfold get_cache at 1. cbn [cache].
  unfold bind at 1. unfold usb_write at 1. cbn [inbound outbound cache].
  unfold bind at 1. unfold usb_read at 1. cbn [inbound outbound cache].
  rewrite <- app_assoc. cbn [app].
  assert (Hack : (match ack with
                  | Received data =>
                      if len data <=? 16
                      then Done (len data, data) s2
                      else Done (LIBUSB_ERROR_OVERFLOW, []) s2
                  | Failed code => Done (Z.neg code, []) s2
                  end)
                 = Done (match ack with
                         | Received data =>
                             if len data <=? 16 then (len data, data)
                             else (LIBUSB_ERROR_OVERFLOW, [])
                         | Failed code => (Z.neg code, [])
                         end) s2).
  { destruct ack as [data|code]; [destruct (len data <=? 16)|]; reflexivity. }
  fold s2. rewrite Hack.
  destruct (fopen h (find_title_path (cache s) (nsp_name req)));
    [|reflexivity].
  destruct (malloc_ok h BUFFER_SEGMENT_DATA_SIZE); reflexivity.
Qed.

(** X19. A request whose name ends in a NUL within the payload, for
    [range_size] bytes at [range_offset] of a name that resolves to a
    file holding at least [range_offset + range_size] bytes: after the
    Ack header and the Response header (which declares
    [range_size]), the handler writes chunks whose concatenation is the
    file's bytes from [range_offset] to [range_offset + range_size];
    their sizes sum to [range_size], none is empty and none exceeds
    [BUFFER_SEGMENT_DATA_SIZE]; when [range_size] is 0 the Response
    header declares 0 and no chunk is written. *)
Theorem file_range_streams_the_range (h : host) (s : state) (data_size : Z)
  (payload : list byte) (ack : transfer) (rest : list transfer)
  (req : FileRangeRequest) (content : list byte) :
  malloc_ok h data_size = true ->
  malloc_ok h BUFFER_SEGMENT_DATA_SIZE = true ->
  inbound s = Received payload :: ack :: rest ->
  len payload <= int_of_uint32 data_size ->
  parse_file_range (order h) payload = Some req ->
  fopen h (find_title_path (cache s) (nsp_name req)) = Some content ->
  range_offset req + range_size req <= len content ->
  len content < 2 ^ 63 ->
  let ack_header :=
    make_header (order h) CMD_TYPE_ACK CMD_FILE_RANGE data_size in
  let response :=
    make_header (order h) CMD_TYPE_RESPONSE CMD_FILE_RANGE (range_size req) in
  exists chunks,
    process_file_range_command h data_size s
    = Done tt (mkState rest (outbound s ++ [ack_header; response] ++ chunks)
                       (cache s)) /\
    read_header (order h) response
    = Some (mkHeader MAGIC CMD_TYPE_RESPONSE CMD_FILE_RANGE (range_size req)) /\
    concat chunks = take (range_size req) (drop (range_offset req) content) /\
    len (concat chunks) = range_size req /\
    Forall chunk_sized chunks /\
    (range_size req = 0 -> chunks = []).
Proof.
  intros Hm1 Hm2 Hin Hlen Hparse Hopen Hrange Hfile ack_header response.
  subst ack_header response.
  destruct (parse_file_range_bounds _ _ _ Hparse) as [Hsize Hoff].
  rewrite (file_range_exchange h data_size s payload ack rest req)
    by assumption.
  rewrite Hopen, Hm2. cbn [negb].
  rewrite fseek_within by lia.
  destruct (stream_loop_full (range_size req) (stream_fuel (range_size req)) 0
              (drop (range_offset req) content)
              (mkState rest
                 (outbound s
                  ++ [make_header (order h) CMD_TYPE_ACK CMD_FILE_RANGE
                                  data_size;
                      make_header (order h) CMD_TYPE_RESPONSE CMD_FILE_RANGE
                                  (range_size req)])
                 (cache s)))
    as (chunks & Hrun & Hcat & Hall).
  - lia.
  - lia.
  - rewrite len_drop. lia.
  - apply stream_fuel_enough. lia.
  - rewrite Z.sub_0_r in Hcat.
    exists chunks. split; [|split; [|split; [|split; [|split]]]].
    + rewrite Hrun. cbn [inbound outbound cache]. now rewrite <- app_assoc.
    + rewrite read_make_header.
      rewrite (Z.mod_small (range_size req)) by lia. reflexivity.
    + exact Hcat.
    + rewrite Hcat, len_take, len_drop. lia.
    + exact Hall.
    + intro Hzero. destruct chunks as [|c chunks]; [reflexivity|].
      exfalso. apply (f_equal len) in Hcat.
      rewrite len_take, len_drop in Hcat. cbn [concat] in Hcat.
      rewrite len_app in Hcat. inversion Hall as [|? ? Hc _]; subst.
      unfold chunk_sized in Hc. pose proof (len_nonneg (concat chunks)). lia.
Qed.

Lemma file_range_streams_the_range_witness :
  exists chunks,
    process_file_range_command sample_host 22
      (mkState (range_exchange 10 5 (cstr "a.nsp")) [] listed_cache)
    = Done tt
        (mkState []
           ([make_header LittleEndian CMD_TYPE_ACK CMD_FILE_RANGE 22;
             make_header LittleEndian CMD_TYPE_RESPONSE CMD_FILE_RANGE 10]
            ++ chunks)
           listed_cache) /\
    concat chunks = cstr "56789abcde".
Proof.
  destruct (file_range_streams_the_range sample_host
              (mkState (range_exchange 10 5 (cstr "a.nsp")) [] listed_cache)
              22
              (file_range_payload LittleEndian 10 5 5 (cstr "a.nsp"))
              (Received (make_header LittleEndian CMD_TYPE_ACK CMD_FILE_RANGE 0))
              []
              (mkRequest 10 5 5 (cstr "a.nsp"))
              sample_file)
    as (chunks & Hrun & _ & Hcat & _);
    try reflexivity; try (vm_compute; congruence).
  exists chunks. split; [exact Hrun | rewrite Hcat; reflexivity].
Defined.

Lemma poll_loop_again (h : host) (fuel : nat) (s s' : state) :
  poll_iteration h s = Done LoopAgain s' ->
  poll_loop h (S fuel) s = poll_loop h fuel s'.
Proof.
  intro H. cbn [poll_loop]. unfold bind at 1. now rewrite H.
Qed.




(** ** The name-length field *)

Lemma window_agree (p1 p2 : list byte) (off width : Z) :
  0 <= off ->
  (forall i : nat, off <= Z.of_nat i < off + width ->
                   nth_error p1 i = nth_error p2 i) ->
  take width (drop off p1) = take width (drop off p2).
Proof.
  intros Hoff H. rewrite !take_firstn, !drop_skipn.
  apply nth_error_ext. intro i.
  rewrite !nth_error_firstn, !nth_error_skipn.
  destruct (Nat.ltb_spec i (Z.to_nat width)); [|reflexivity].
  apply H. lia.
Qed.

Lemma tail_agree (p1 p2 : list byte) (off : Z) :
  0 <= off ->
  (forall i : nat, off <= Z.of_nat i -> nth_error p1 i = nth_error p2 i) ->
  drop off p1 = drop off p2.
Proof.
  intros Hoff H. rewrite !drop_skipn.
  apply nth_error_ext. intro i. rewrite !nth_error_skipn.
  apply H. lia.
Qed.

Lemma load_agree (o : byte_order) (p1 p2 : list byte) (off width : Z) :
  0 <= off ->
  len p1 = len p2 ->
  (forall i : nat, off <= Z.of_nat i < off + width ->
                   nth_error p1 i = nth_error p2 i) ->
  load o width p1 off = load o width p2 off.
Proof.
  intros Hoff Hlen H. unfold load.
  rewrite Hlen, (window_agree p1 p2 off width Hoff H). reflexivity.
Qed.

Lemma load_some_agree (o : byte_order) (p1 p2 : list byte) (off width : Z) :
  len p1 = len p2 ->
  match load o width p1 off, load o width p2 off with
  | Some _, Some _ | None, None => True
  | _, _ => False
  end.
Proof.
  intro Hlen. unfold load. rewrite Hlen.
  destruct ((0 <=? off) && (off + width <=? len p2)); exact I.
Qed.

Lemma parse_agree (o : byte_order) (p1 p2 : list byte) :
  len p1 = len p2 ->
  (forall i : nat, (i < 12 \/ 16 <= i)%nat ->
                   nth_error p1 i = nth_error p2 i) ->
  option_map used_fields (parse_file_range o p1)
  = option_map used_fields (parse_file_range o p2).
Proof.
  intros Hlen H. unfold parse_file_range, load32, load64.
  rewrite (load_agree o p1 p2 0 4) by (try lia; intros; apply H; lia).
  rewrite (load_agree o p1 p2 4 8) by (try lia; intros; apply H; lia).
  rewrite (tail_agree p1 p2 16) by (try lia; intros; apply H; lia).
  pose proof (load_some_agree o p1 p2 12 4 Hlen) as Hnl.
  destruct (load o 4 p2 0); [|reflexivity].
  destruct (load o 8 p2 4); [|reflexivity].
  destruct (load o 4 p1 12), (load o 4 p2 12); try contradiction;
    try reflexivity.
  destruct (strncpy_from (Z.to_nat (MAX_PATH_LEN - 1)) (drop 16 p2));
    reflexivity.
Qed.

(** C10. Two FileRange payloads of the same length that agree on every
    byte outside the name-length field (offsets 12 to 15) give the same
    name, the name being the NUL-terminated string read from offset 16
    within [MAX_PATH_LEN - 1] bytes; they resolve to the same path in
    every cache, and a handler that gets to read the payload behaves the
    same on both: same outcome, same writes, same transfers consumed. *)
Theorem name_length_is_not_used (h : host) (p1 p2 : list byte) :
  len p1 = len p2 ->
  (forall i : nat, (i < 12 \/ 16 <= i)%nat ->
                   nth_error p1 i = nth_error p2 i) ->
  option_map nsp_name (parse_file_range (order h) p1)
  = option_map nsp_name (parse_file_range (order h) p2) /\
  (forall req, parse_file_range (order h) p1 = Some req ->
               strncpy_from (Z.to_nat (MAX_PATH_LEN - 1)) (drop 16 p1)
               = Some (nsp_name req)) /\
  (forall c,
      option_map (fun r => find_title_path c (nsp_name r))
                 (parse_file_range (order h) p1)
      = option_map (fun r => find_title_path c (nsp_name r))
                   (parse_file_range (order h) p2)) /\
  (forall data_size rest out c,
      malloc_ok h data_size = true ->
      process_file_range_command h data_size
        (mkState (Received p1 :: rest) out c)
      = process_file_range_command h data_size
          (mkState (Received p2 :: rest) out c)).
Proof.
  intros Hlen H.
  pose proof (parse_agree (order h) p1 p2 Hlen H) as Hagree.
  split; [|split; [|split]].
  - destruct (parse_file_range (order h) p1) as [r1|],
             (parse_file_range (order h) p2) as [r2|];
      try discriminate; [|reflexivity].
    cbn in Hagree. unfold used_fields in Hagree. cbn. congruence.
  - intros req Hreq. unfold parse_file_range in Hreq.
    destruct (load32 (order h) p1 0); [|discriminate].
    destruct (load64 (order h) p1 4); [|discriminate].
    destruct (load32 (order h) p1 12); [|discriminate].
    destruct (strncpy_from _ _); [|discriminate].
    injection Hreq as <-. reflexivity.
  - intro c.
    destruct (parse_file_range (order h) p1) as [r1|],
             (parse_file_range (order h) p2) as [r2|];
      try discriminate; [|reflexivity].
    cbn in Hagree. unfold used_fields in Hagree. cbn. congruence.
  - intros data_size rest out c Hmalloc.
    unfold process_file_range_command, bind, usb_write, usb_read, get_cache.
    rewrite Hmalloc. cbn [negb inbound outbound cache]. rewrite Hlen.
    destruct (len p2 <=? int_of_uint32 data_size); cbn [snd]; [|reflexivity].
    destruct (parse_file_range (order h) p1) as [[sz1 off1 nl1 nm1]|],
             (parse_file_range (order h) p2) as [[sz2 off2 nl2 nm2]|];
      try discriminate; [|reflexivity].
    cbn in Hagree. unfold used_fields in Hagree. cbn in Hagree.
    injection Hagree as -> -> ->. reflexivity.
Qed.

Lemma name_length_is_not_used_witness :
  option_map nsp_name (parse_file_range LittleEndian honest_payload)
  = option_map nsp_name (parse_file_range LittleEndian lying_payload) /\
  process_file_range_command sample_host 22
    (mkState [Received honest_payload] [] listed_cache)
  = process_file_range_command sample_host 22
      (mkState [Received lying_payload] [] listed_cache).
Proof.
  destruct (name_length_is_not_used sample_host honest_payload lying_payload)
    as (Hname & _ & _ & Hrun).
  - reflexivity.
  - intros i Hi.
    do 12 (destruct i as [|i]; [reflexivity|]).
    do 4 (destruct i as [|i]; [lia|]).
    reflexivity.
  - split; [exact Hname | apply Hrun; reflexivity].
Defined.

(** ** The List handler *)

Lemma joined_names_cons (e : TitleEntry) (es : list TitleEntry) :
  joined_names (e :: es) = display_name e ++ newline ++ joined_names es.
Proof. unfold joined_names. cbn [flat_map]. now rewrite <- app_assoc. Qed.

(** The loop of [strcat] calls yields the joined names when they fit in
    the block with their NUL, and runs past the block otherwise. *)
Lemma build_list_joined (cap : Z) (es : list TitleEntry) : forall acc,
  len acc + 1 <= cap ->
  build_list cap es acc
  = if len (acc ++ joined_names es) + 1 <=? cap
    then Some (acc ++ joined_names es)
    else None.
Proof.
  induction es as [|e es IH]; intros acc Hacc.
  - cbn [build_list joined_names flat_map]. rewrite app_nil_r.
    destruct (Z.leb_spec (len acc + 1) cap); [reflexivity | lia].
  - cbn [build_list]. unfold strcat. rewrite joined_names_cons.
    pose proof (len_nonneg (joined_names es)) as Hj.
    pose proof (len_nonneg (display_name e)) as Hd.
    assert (Hnl : len newline = 1) by reflexivity.
    rewrite !len_app, Hnl.
    destruct (Z.leb_spec (len acc + len (display_name e) + 1) cap)
      as [H1|H1].
    2:{ destruct (Z.leb_spec (len acc
                              + (len (display_name e)
                                 + (1 + len (joined_names es))) + 1) cap);
          [lia | reflexivity]. }
    rewrite !len_app, Hnl.
    destruct (Z.leb_spec (len acc + len (display_name e) + 1 + 1) cap)
      as [H2|H2].
    2:{ destruct (Z.leb_spec (len acc
                              + (len (display_name e)
                                 + (1 + len (joined_names es))) + 1) cap);
          [lia | reflexivity]. }
    rewrite IH by (rewrite !len_app, Hnl; lia).
    rewrite !len_app, Hnl, <- !app_assoc.
    replace (len acc + len (display_name e) + 1 + len (joined_names es) + 1)
      with (len acc + (len (display_name e) + (1 + len (joined_names es))) + 1)
      by lia.
    reflexivity.
Qed.

(** What the walk does to its state, step by step: whatever is kept by
    noting a path, by recording a title while there is room, and by
    losing the way, is kept by the whole walk, on any tree. *)
Lemma scan_preserves (st : cstring -> node) (P : scan_state -> Prop) :
  (forall s full,
      P s -> P (mkScan (cache_of s) (full :: examined s) (runaway s))) ->
  (forall s d_name full,
      P s -> count (cache_of s) < MAX_TITLES ->
      P (mkScan (add_title d_name full (cache_of s)) (examined s)
                (runaway s))) ->
  (forall s, P s -> P (mkScan (cache_of s) (examined s) true)) ->
  (forall d path s, P s -> P (scan_directory st path d s)) /\
  (forall es path s, P s -> P (readdir_loop st path es s)).
Proof.
  intros Hnote Hadd Hlost.
  apply node_dirents_ind; try (intros; cbn [scan_directory]; assumption).
  - intros es IH path s H. cbn [scan_directory]. now apply IH.
  - intros name child IHc rest IHr path s H. cbn [readdir_loop].
    destruct (Z.ltb_spec (count (cache_of s)) MAX_TITLES) as [Hlt|Hge];
      cbn [negb]; [|assumption].
    destruct (is_dot name); [now apply IHr|].
    pose proof (Hnote s (join_path path name) H) as H0.
    assert (Hrec : P (mkScan
                        (add_title name (join_path path name) (cache_of s))
                        (join_path path name :: examined s) (runaway s))).
    { apply (Hadd _ name (join_path path name)) in H0; [exact H0 | exact Hlt]. }
    destruct (path_fits path name); cbn [negb].
    + destruct child; try (now apply IHr).
      * destruct (has_valid_extension name); now apply IHr.
      * match goal with
        | |- context [scan_directory st ?p ?c ?s0] =>
            pose proof (IHc p s0 H0);
            destruct (runaway (scan_directory st p c s0))
        end; [assumption | now apply IHr].
      * cbn [scan_directory runaway].
        destruct (runaway s); [assumption | now apply IHr].
    + destruct (st (join_path path name)) as [|inside| | |];
        try (now apply IHr).
      * destruct (has_valid_extension name); now apply IHr.
      * destruct (only_dots inside); [now apply IHr|].
        apply (Hlost _ H0).
Qed.

Lemma scan_count_bounds (st : cstring -> node) :
  (forall d path s,
      0 <= count (cache_of s) <= MAX_TITLES ->
      0 <= count (cache_of (scan_directory st path d s)) <= MAX_TITLES) /\
  (forall es path s,
      0 <= count (cache_of s) <= MAX_TITLES ->
      0 <= count (cache_of (readdir_loop st path es s)) <= MAX_TITLES).
Proof.
  apply (scan_preserves st
           (fun s => 0 <= count (cache_of s) <= MAX_TITLES));
    intros; cbn [cache_of count add_title] in *; lia.
Qed.

Lemma take_array_set_forall {A : Type} (P : A -> Prop) (a : list A) :
  forall c x,
    0 <= c -> Forall P (take c a) -> P x ->
    Forall P (take (c + 1) (array_set c x a)).
Proof.
  induction a as [|y t IH]; intros c x Hc Hall Hx; [constructor|].
  cbn [array_set]. destruct (Z.eqb_spec c 0) as [->|Hne].
  - cbn [take]. change (0 + 1 <=? 0) with false. cbn iota.
    replace (take (0 + 1 - 1) t) with (@nil A) by (destruct t; reflexivity).
    constructor; [exact Hx | constructor].
  - cbn [take] in *.
    destruct (Z.leb_spec (c + 1) 0); [lia|].
    destruct (Z.leb_spec c 0); [lia|].
    inversion Hall as [|? ? Hy Ht]; subst.
    constructor; [exact Hy|].
    replace (c + 1 - 1) with (c - 1 + 1) by lia.
    apply IH; [lia | exact Ht | exact Hx].
Qed.

Lemma len_strncpy (src : cstring) (n : Z) : 0 <= n -> len (strncpy src n) <= n.
Proof. intro H. unfold strncpy. rewrite len_take. lia. Qed.

(** Every live entry of a cache under construction was written by
    [add_title], so its display name is at most 255 bytes long. *)
Lemma scan_names_short (st : cstring -> node) :
  (forall d path s,
      0 <= count (cache_of s) /\ Forall short_name (live (cache_of s)) ->
      0 <= count (cache_of (scan_directory st path d s)) /\
      Forall short_name (live (cache_of (scan_directory st path d s)))) /\
  (forall es path s,
      0 <= count (cache_of s) /\ Forall short_name (live (cache_of s)) ->
      0 <= count (cache_of (readdir_loop st path es s)) /\
      Forall short_name (live (cache_of (readdir_loop st path es s)))).
Proof.
  apply (scan_preserves st
           (fun s => 0 <= count (cache_of s) /\
                     Forall short_name (live (cache_of s))));
    try (intros; cbn [cache_of] in *; assumption).
  intros s d_name full [Hc Hall] _.
  cbn [cache_of add_title count]. split; [lia|].
  unfold live. cbn [count entries].
  apply take_array_set_forall; [exact Hc | exact Hall |].
  unfold short_name. cbn [display_name]. apply len_strncpy. lia.
Qed.

Lemma joined_names_bound (es : list TitleEntry) :
  Forall short_name es -> len (joined_names es) <= 256 * len es.
Proof.
  induction 1 as [|e es He _ IH].
  - cbn. unfold len. simpl. lia.
  - rewrite joined_names_cons, !len_app, len_cons.
    change (len newline) with 1. unfold short_name in He. lia.
Qed.

(** The joined names of a rescanned catalog take at most 256 bytes per
    entry. *)
Lemma rescan_payload_bound (st : cstring -> node) (work_dir : cstring)
  (root : node) (cache : TitleCache) :
  let c := cache_of (rescan st work_dir root cache) in
  len (joined_names (live c)) <= 256 * count c.
Proof.
  intro c.
  destruct (proj1 (scan_names_short st) root work_dir
              (mkScan (mkCache (entries cache) 0) [] false))
    as [Hc Hall].
  { cbn [cache_of count]. split; [lia|]. unfold live. cbn [count entries].
    replace (take 0 (entries cache)) with (@nil TitleEntry)
      by (destruct (entries cache); reflexivity).
    constructor. }
  fold (rescan st work_dir root cache) in Hc, Hall. fold c in Hc, Hall.
  pose proof (joined_names_bound _ Hall) as Hb.
  assert (len (live c) <= count c) by (unfold live; rewrite len_take; lia).
  lia.
Qed.

(** Every run of the List handler, by cases. *)
Lemma list_run (h : host) (s : state) :
  let walk := rescan (stat h) (work_dir h) (titles h) (cache s) in
  let c := cache_of walk in
  let payload := joined_names (live c) in
  let response :=
    make_header (order h) CMD_TYPE_RESPONSE CMD_LIST (len payload) in
  process_list_command h s
  = if runaway walk
    then Undefined (mkState (inbound s) (outbound s) c)
    else if negb (malloc_ok h (MAX_TITLES * 256))
    then Done tt (mkState (inbound s) (outbound s) c)
    else if len payload + 1 <=? MAX_TITLES * 256
         then match inbound s with
              | [] => Blocked (mkState [] (outbound s ++ [response]) c)
              | _ :: rest =>
                  Done tt (mkState rest (outbound s ++ [response; payload]) c)
              end
         else Undefined (mkState (inbound s) (outbound s) c).
Proof.
  intros walk c payload response.
  pose proof (len_nonneg payload) as Hnonneg.
  unfold process_list_command, bind, get_cache, set_cache.
  cbn [inbound outbound cache]. fold walk. fold c.
  destruct (runaway walk); [reflexivity|].
  destruct (malloc_ok h (MAX_TITLES * 256)); cbn [negb]; [|reflexivity].
  cbn [inbound outbound cache].
  rewrite build_list_joined by (cbn; unfold MAX_TITLES; lia).
  cbn [app]. fold payload.
  destruct (Z.leb_spec (len payload + 1) (MAX_TITLES * 256)) as [Hfit|Hbig];
    [|reflexivity].
  rewrite (Z.mod_small (len payload)) by (unfold MAX_TITLES in Hfit; lia).
  rewrite (take_all (len payload) payload) by lia.
  unfold usb_write, usb_read. cbn [inbound outbound cache]. fold response.
  destruct (inbound s) as [|[data|code] rest]; [reflexivity| |].
  - destruct (len data <=? 16); cbn [inbound outbound cache];
      now rewrite <- app_assoc.
  - cbn [inbound outbound cache]. now rewrite <- app_assoc.
Qed.

(** X21. Whatever the tree at the titles directory and whatever stands
    at the paths that [snprintf] cuts, the joined names take at most 256
    bytes per entry, and a run of the List handler is one of four.  The
    walk goes down a recursion without end.  Or the allocation fails
    and nothing is written.  Or the catalog is full and its joined
    names fill the whole block, leaving no room for their NUL, and the
    run has no defined behaviour; nothing has been written by then.  Or
    the handler writes a Response header for List whose payload length
    field is the byte length of the newline-joined display names, reads
    one acknowledgement, and writes those joined names as the payload:
    the bytes written after the acknowledgement are as many as the
    header declared. *)
Theorem list_payload_has_declared_length (h : host) (s : state) :
  let walk := rescan (stat h) (work_dir h) (titles h) (cache s) in
  let c := cache_of walk in
  let payload := joined_names (live c) in
  let response :=
    make_header (order h) CMD_TYPE_RESPONSE CMD_LIST (len payload) in
  let r := process_list_command h s in
  0 <= count c <= MAX_TITLES /\
  len payload <= 256 * count c /\
  (runaway walk = true /\
   r = Undefined (mkState (inbound s) (outbound s) c)
   \/
   runaway walk = false /\
   malloc_ok h (MAX_TITLES * 256) = false /\
   r = Done tt (mkState (inbound s) (outbound s) c)
   \/
   runaway walk = false /\
   malloc_ok h (MAX_TITLES * 256) = true /\
   count c = MAX_TITLES /\
   len payload = MAX_TITLES * 256 /\
   r = Undefined (mkState (inbound s) (outbound s) c)
   \/
   runaway walk = false /\
   malloc_ok h (MAX_TITLES * 256) = true /\
   len payload < MAX_TITLES * 256 /\
   read_header (order h) response
   = Some (mkHeader MAGIC CMD_TYPE_RESPONSE CMD_LIST (len payload)) /\
   (inbound s = [] /\
    r = Blocked (mkState [] (outbound s ++ [response]) c)
    \/
    exists ack rest,
      inbound s = ack :: rest /\
      r = Done tt (mkState rest (outbound s ++ [response; payload]) c))) /\
  (runaway walk = false ->
   malloc_ok h (MAX_TITLES * 256) = true ->
   len payload < MAX_TITLES * 256 ->
   forall ack rest,
     inbound s = ack :: rest ->
     r = Done tt (mkState rest (outbound s ++ [response; payload]) c)).
Proof.
  intros walk c payload response r.
  assert (Hcount : 0 <= count c <= MAX_TITLES).
  { apply (proj1 (scan_count_bounds (stat h))). cbn. unfold MAX_TITLES. lia. }
  pose proof (len_nonneg payload) as Hnonneg.
  pose proof (rescan_payload_bound (stat h) (work_dir h) (titles h) (cache s))
    as Hbound.
  cbv zeta in Hbound. fold walk c payload in Hbound.
  assert (Hheader : len payload < MAX_TITLES * 256 ->
                    read_header (order h) response
                    = Some (mkHeader MAGIC CMD_TYPE_RESPONSE CMD_LIST
                                     (len payload))).
  { intro Hfit. unfold response. rewrite read_make_header.
    rewrite (Z.mod_small (len payload)) by (unfold MAX_TITLES in Hfit; lia).
    reflexivity. }
  pose proof (list_run h s) as Hrun. cbv zeta in Hrun.
  fold walk c payload response r in Hrun.
  split; [exact Hcount|].
  split; [exact Hbound|].
  destruct (runaway walk).
  { split; [left; now split | intro Habs; discriminate]. }
  destruct (malloc_ok h (MAX_TITLES * 256)); cbn [negb] in Hrun.
  - destruct (Z.leb_spec (len payload + 1) (MAX_TITLES * 256)) as [Hfit|Hbig].
    + destruct (inbound s) as [|ack rest] eqn:Hin.
      * split.
        -- right. right. right. do 2 (split; [reflexivity|]). split; [lia|].
           split; [apply Hheader; lia|]. now left.
        -- intros _ _ _ ack rest Habs. discriminate.
      * split.
        -- right. right. right. do 2 (split; [reflexivity|]). split; [lia|].
           split; [apply Hheader; lia|]. right. now exists ack, rest.
        -- intros _ _ _ ack' rest' Heq. now injection Heq as <- <-.
    + split.
      * right. right. left. do 2 (split; [reflexivity|]).
        split; [lia|]. split; [lia | exact Hrun].
      * intros _ _ Hfit. lia.
  - split.
    + right. left. split; [reflexivity|]. split; [reflexivity | exact Hrun].
    + intros _ Habs. discriminate.
Qed.

Lemma list_payload_has_declared_length_witness :
  process_list_command sample_host
    (mkState [Received (make_header LittleEndian CMD_TYPE_ACK CMD_LIST 0)]
             [] empty_cache)
  = Done tt
      (mkState []
         [make_header LittleEndian CMD_TYPE_RESPONSE CMD_LIST 18;
          cstr "a.nsp" ++ newline ++ cstr "c.NSZ" ++ newline
          ++ cstr "b.xci" ++ newline]
         listed_cache).
Proof.
  destruct (list_payload_has_declared_length sample_host
              (mkState
                 [Received (make_header LittleEndian CMD_TYPE_ACK CMD_LIST 0)]
                 [] empty_cache))
    as (_ & _ & _ & Hboth).
  apply (Hboth eq_refl eq_refl ltac:(vm_compute; reflexivity)
               (Received (make_header LittleEndian CMD_TYPE_ACK CMD_LIST 0))
               [] eq_refl).
Defined.

(** ** The bounds on iterations are enough *)

Lemma stream_loop_returns (end_off : Z) (fuel : nat) (curr_off : Z)
  (f : FILE) (s : state) :
  0 <= curr_off <= end_off -> end_off < 2 ^ 32 ->
  end_off - curr_off <= Z.of_nat fuel * BUFFER_SEGMENT_DATA_SIZE ->
  exists chunks,
    stream_loop fuel curr_off end_off BUFFER_SEGMENT_DATA_SIZE f s
    = Done tt (mkState (inbound s) (outbound s ++ chunks) (cache s)).
Proof.
  intros Hc He Hfuel.
  destruct (Z_le_gt_dec (end_off - curr_off) (len f)) as [Hfull|Hshort].
  - destruct (stream_loop_full end_off fuel curr_off f s Hc He Hfull Hfuel)
      as (chunks & Hrun & _). now exists chunks.
  - destruct (stream_loop_short end_off fuel curr_off f s Hc He
                ltac:(lia) Hfuel)
      as (chunks & Hrun & _). now exists chunks.
Qed.

Lemma usb_read_progress (size : Z) (s : state) :
  match usb_read size s with
  | Done _ s' => S (length (inbound s')) = length (inbound s)
                 /\ outbound s' = outbound s /\ cache s' = cache s
  | Blocked s' => s' = s
  | _ => False
  end.
Proof.
  unfold usb_read. destruct (inbound s) as [|[data|code] rest] eqn:E.
  - reflexivity.
  - destruct (len data <=? size); cbn; auto.
  - cbn; auto.
Qed.

Lemma file_range_progress (h : host) (data_size : Z) (s : state) :
  fuelled (process_file_range_command h data_size s) /\
  (pending (process_file_range_command h data_size s)
   <= length (inbound s))%nat.
Proof.
  remember (process_file_range_command h data_size s) as r eqn:Hr.
  unfold process_file_range_command, bind, usb_write, get_cache in Hr.
  cbn [inbound outbound cache] in Hr. unfold pending.
  destruct (malloc_ok h data_size); cbn [negb] in Hr;
    [|subst r; split; [exact I | reflexivity]].
  match type of Hr with
  | context [usb_read ?n ?st] =>
      pose proof (usb_read_progress n st) as Hread;
      destruct (usb_read n st) as [x s1|s1|s1|s1]
  end; try contradiction.
  2:{ subst. split; [exact I | reflexivity]. }
  destruct Hread as (Hlen1 & _ & _). cbn [inbound] in Hlen1.
  destruct (parse_file_range (order h) (snd x)) as [req|] eqn:Hparse;
    [|subst r; split; [exact I | cbn; lia]].
  destruct (parse_file_range_bounds _ _ _ Hparse) as [Hsize _].
  match type of Hr with
  | context [usb_read ?n ?st] =>
      pose proof (usb_read_progress n st) as Hack;
      destruct (usb_read n st) as [x2 s2|s2|s2|s2]
  end; try contradiction.
  2:{ subst. split; [exact I | cbn; lia]. }
  destruct Hack as (Hlen2 & _ & _). cbn [inbound] in Hlen2.
  destruct (fopen h _) as [content|];
    [|subst r; split; [exact I | cbn; lia]].
  destruct (malloc_ok h BUFFER_SEGMENT_DATA_SIZE); cbn [negb] in Hr;
    [|subst r; split; [exact I | cbn; lia]].
  destruct (stream_loop_returns (range_size req)
              (stream_fuel (range_size req)) 0
              (fseek (max_offset h) content (range_offset req)) s2)
    as (chunks & Hrun); try lia.
  { apply stream_fuel_enough. lia. }
  rewrite Hrun in Hr. subst r. split; [exact I | cbn; lia].
Qed.

Lemma list_progress (h : host) (s : state) :
  fuelled (process_list_command h s) /\
  (pending (process_list_command h s) <= length (inbound s))%nat.
Proof.
  rewrite list_run. unfold pending.
  destruct (runaway _); [split; [exact I | reflexivity]|].
  destruct (malloc_ok h (MAX_TITLES * 256)); cbn [negb];
    [|split; [exact I | reflexivity]].
  destruct (_ <=? _); [|split; [exact I | reflexivity]].
  destruct (inbound s); split; try exact I; cbn; lia.
Qed.

(** A turn of the loop that completes has taken at least one transfer. *)
Lemma poll_iteration_progress (h : host) (s : state) :
  match poll_iteration h s with
  | Done _ s' => (length (inbound s') < length (inbound s))%nat
  | OutOfFuel _ => False
  | _ => True
  end.
Proof.
  unfold poll_iteration. unfold bind at 1.
  pose proof (usb_read_progress 16 s) as Hread.
  destruct (usb_read 16 s) as [r s1|s1|s1|s1]; try contradiction;
    [|exact I].
  destruct Hread as (Hlen & _ & _).
  destruct (fst r <? 16); [cbn; lia|].
  destruct (read_header (order h) (snd r)) as [hd|]; [|exact I].
  destruct (magic_ok hd); cbn [negb]; [|cbn; lia].
  destruct (cmd_id hd =? CMD_EXIT); [cbn; lia|].
  destruct (cmd_id hd =? CMD_LIST).
  { unfold bind. destruct (list_progress h s1) as [Hf Hp].
    unfold pending in Hp.
    destruct (process_list_command h s1); cbn in *;
      first [exact I | lia | contradiction]. }
  destruct (cmd_id hd =? CMD_FILE_RANGE); [|cbn; lia].
  unfold bind.
  destruct (file_range_progress h (data_size hd) s1) as [Hf Hp].
  unfold pending in Hp.
  destruct (process_file_range_command h (data_size hd) s1); cbn in *;
    first [exact I | lia | contradiction].
Qed.

(** With more fuel than transfers, the loop never stops for lack of
    fuel: it returns, waits for ever on an empty link, or leaves defined
    behaviour. *)
Lemma poll_loop_fuelled (h : host) (fuel : nat) : forall s,
  (length (inbound s) < fuel)%nat -> fuelled (poll_loop h fuel s).
Proof.
  induction fuel as [|fuel IH]; intros s Hlen; [lia|].
  cbn [poll_loop]. unfold bind.
  pose proof (poll_iteration_progress h s) as Hp.
  destruct (poll_iteration h s) as [[|] s1|s1|s1|s1]; try exact I;
    try contradiction.
  apply IH. lia.
Qed.

Lemma poll_commands_fuelled (h : host) (device : list transfer) :
  fuelled (poll_commands h device).
Proof.
  unfold poll_commands. apply poll_loop_fuelled. cbn. lia.
Qed.

(** ** The scenarios of the specification, run *)

Example extension_cases :
  has_valid_extension (cstr "Game.NSP") = true /\
  has_valid_extension (cstr "b.xCi") = true /\
  has_valid_extension (cstr ".nsz") = true /\
  has_valid_extension (cstr "a.nsp.txt") = false /\
  has_valid_extension (cstr "nsp") = false /\
  has_valid_extension (cstr "xnsp") = false.
Proof. vm_compute. repeat split. Qed.

(** List, with a catalog of "a.nsp" and "b.xci": a Response header
    declaring 12 bytes, then the 12 bytes; then Exit. *)
Example list_scenario :
  let r := poll_commands (scenario_host 0)
             [ Received (request_header LittleEndian CMD_LIST 0);
               Received (make_header LittleEndian CMD_TYPE_ACK CMD_LIST 0);
               Received (request_header LittleEndian CMD_EXIT 0) ] in
  r = Done tt (final r) /\
  inbound (final r) = [] /\
  outbound (final r)
  = [ make_header LittleEndian CMD_TYPE_RESPONSE CMD_LIST 12;
      cstr "a.nsp" ++ newline ++ cstr "b.xci" ++ newline;
      make_header LittleEndian CMD_TYPE_RESPONSE CMD_EXIT 0 ] /\
  count (cache (final r)) = 2.
Proof. vm_compute. repeat split. Qed.

(** A range of one buffer and five bytes goes out as two chunks. *)
Example two_chunk_scenario :
  let r := process_file_range_command (scenario_host 1048600) 22
             (mkState (range_exchange (0x100000 + 5) 3 (cstr "a.nsp")) []
                      (cache_of (rescan nothing_else (cstr "/titles") two_titles
                                        empty_cache))) in
  map len (outbound (final r)) = [16; 16; 0x100000; 5].
Proof. vm_compute. reflexivity. Qed.

(** * More of the program *)

(** ** The title cache as an array *)

Lemma len_array_set {A : Type} (a : list A) : forall i x,
  len (array_set i x a) = len a.
Proof.
  induction a as [|y t IH]; intros i x; [reflexivity|].
  cbn [array_set]. destruct (i =? 0); rewrite !len_cons; [reflexivity|].
  now rewrite IH.
Qed.

Lemma take_array_set_snoc {A : Type} (a : list A) : forall c x,
  0 <= c < len a ->
  take (c + 1) (array_set c x a) = take c a ++ [x].
Proof.
  induction a as [|y t IH]; intros c x Hc.
  - unfold len in Hc. simpl in Hc. lia.
  - rewrite len_cons in Hc. cbn [array_set take].
    destruct (Z.eqb_spec c 0) as [->|Hne].
    + cbn [take]. change (0 + 1 <=? 0) with false. change (0 <=? 0) with true.
      cbn iota. replace (take (0 + 1 - 1) t) with (@nil A)
        by (destruct t; reflexivity).
      reflexivity.
    + cbn [take].
      destruct (Z.leb_spec (c + 1) 0); [lia|].
      destruct (Z.leb_spec c 0); [lia|].
      replace (c + 1 - 1) with (c - 1 + 1) by lia.
      rewrite IH by lia. reflexivity.
Qed.

Lemma take_take_app {A : Type} (n : Z) (a b : list A) :
  take n (take n a ++ b) = take n (a ++ b).
Proof.
  rewrite !take_firstn.
  destruct (Nat.le_gt_cases (Z.to_nat n) (length a)) as [Hle|Hgt].
  - rewrite (firstn_app (Z.to_nat n) (firstn (Z.to_nat n) a) b).
    rewrite length_firstn, Nat.min_l by exact Hle.
    rewrite Nat.sub_diag, firstn_O, app_nil_r, firstn_firstn, Nat.min_id.
    rewrite firstn_app.
    replace (Z.to_nat n - length a)%nat with O by lia.
    now rewrite firstn_O, app_nil_r.
  - rewrite (firstn_all2 a) by lia. reflexivity.
Qed.

Lemma len_live (c : TitleCache) :
  0 <= count c <= len (entries c) -> len (live c) = count c.
Proof. intro H. unfold live. rewrite len_take. lia. Qed.

Lemma live_add_title (d_name full : cstring) (c : TitleCache) :
  0 <= count c < len (entries c) ->
  live (add_title d_name full c)
  = live c ++ [mkEntry (strncpy d_name 255) (strncpy full (MAX_PATH_LEN - 1))].
Proof.
  intro H. unfold live, add_title. cbn [count entries].
  now apply take_array_set_snoc.
Qed.

Lemma join_path_fits (path name : cstring) :
  path_fits path name = true ->
  join_path path name = path ++ cstr "/" ++ name.
Proof.
  unfold path_fits, join_path. intro H. apply Z.leb_le in H.
  now apply take_all.
Qed.

(** The walk keeps the array whole and the count within it, whatever
    the tree. *)
Lemma scan_cache_ok (st : cstring -> node) :
  (forall d path s,
      cache_ok (cache_of s) ->
      cache_ok (cache_of (scan_directory st path d s))) /\
  (forall es path s,
      cache_ok (cache_of s) ->
      cache_ok (cache_of (readdir_loop st path es s))).
Proof.
  apply (scan_preserves st (fun s => cache_ok (cache_of s)));
    try (intros; cbn [cache_of] in *; assumption).
  intros s d_name full [Hlen Hc] Hlt.
  unfold cache_ok. cbn [cache_of add_title count entries].
  rewrite len_array_set. split; [exact Hlen | lia].
Qed.

Lemma take_zero {A : Type} (l : list A) : take 0 l = [].
Proof. destruct l; reflexivity. Qed.

Lemma take_full_app {A : Type} (n : Z) (a b : list A) :
  len a = n -> take n (a ++ b) = a.
Proof. intros <-. apply take_app_exact. Qed.

(** What the walk leaves in the cache, on a tree whose paths fit. *)
Lemma scan_contents (st : cstring -> node) :
  (forall d path s,
      well_formed path d = true -> runaway s = false ->
      cache_ok (cache_of s) ->
      live (cache_of (scan_directory st path d s))
      = take MAX_TITLES (live (cache_of s) ++ titles_of path d)) /\
  (forall es path s,
      well_formed_in path es = true -> runaway s = false ->
      cache_ok (cache_of s) ->
      live (cache_of (readdir_loop st path es s))
      = take MAX_TITLES (live (cache_of s) ++ titles_in path es)).
Proof.
  assert (Hkeep : forall s X, cache_ok (cache_of s) ->
            live (cache_of s) = take MAX_TITLES (live (cache_of s))
            /\ (MAX_TITLES <= count (cache_of s) ->
                take MAX_TITLES (live (cache_of s) ++ X)
                = live (cache_of s))).
  { intros s X [Hlen Hc]. split.
    - symmetry. apply take_all. rewrite len_live by lia. lia.
    - intro Hfull. apply take_full_app. rewrite len_live by lia. lia. }
  apply node_dirents_ind.
  - intros path s _ _ Hok. cbn [scan_directory titles_of].
    rewrite app_nil_r. apply (Hkeep s [] Hok).
  - intros es IH path s Hd Hr Hok. cbn [scan_directory titles_of].
    now apply IH.
  - intros path s _ _ Hok. cbn [scan_directory titles_of].
    rewrite app_nil_r. apply (Hkeep s [] Hok).
  - intros path s _ _ Hok. cbn [scan_directory titles_of].
    rewrite app_nil_r. apply (Hkeep s [] Hok).
  - intros path s _ _ Hok. cbn [scan_directory titles_of].
    rewrite app_nil_r. apply (Hkeep s [] Hok).
  - intros path s _ _ Hok. cbn [readdir_loop titles_in].
    rewrite app_nil_r. apply (Hkeep s [] Hok).
  - intros name child IHc rest IHr path s Hd Hr Hok.
    split_well_formed Hd Hdot Hfit Hchild Hrest.
    cbn [readdir_loop titles_in]. rewrite Hdot, Hfit. cbn [negb].
    destruct (Z.ltb_spec (count (cache_of s)) MAX_TITLES) as [Hlt|Hge];
      cbn [negb].
    2:{ symmetry. now apply (Hkeep s). }
    pose proof Hok as [Hlen Hc].
    rewrite (join_path_fits path name Hfit) in *.
    set (s0 := mkScan (cache_of s)
                      ((path ++ cstr "/" ++ name) :: examined s)
                      (runaway s)).
    assert (Hok0 : cache_ok (cache_of s0)) by exact Hok.
    assert (Hr0 : runaway s0 = false) by exact Hr.
    destruct child.
    + rewrite has_valid_extension_is_title_name.
      destruct (is_title_name name).
      * rewrite IHr; [|exact Hrest|exact Hr|].
        -- cbn [cache_of examined]. rewrite live_add_title by lia.
           unfold strncpy.
           rewrite (take_all (MAX_PATH_LEN - 1) (path ++ cstr "/" ++ name))
             by (unfold path_fits in Hfit; now apply Z.leb_le).
           now rewrite <- app_assoc.
        -- unfold cache_ok. cbn [cache_of add_title count entries].
           rewrite len_array_set. split; [exact Hlen | lia].
      * rewrite IHr by assumption. reflexivity.
    + match goal with
      | |- context [runaway (scan_directory st ?p ?c ?x)] =>
          assert (Hback : runaway (scan_directory st p c x) = false)
            by (rewrite (proj1 (scan_keeps_course st)) by assumption;
                exact Hr0)
      end.
      rewrite Hback.
      rewrite IHr;
        [|exact Hrest | exact Hback | now apply (proj1 (scan_cache_ok st))].
      rewrite IHc by assumption. cbn [cache_of].
      now rewrite take_take_app, <- app_assoc.
    + cbn [scan_directory runaway]. rewrite Hr.
      rewrite IHr by (assumption || reflexivity). reflexivity.
    + rewrite IHr by assumption. reflexivity.
    + rewrite IHr by assumption. reflexivity.
Qed.

Lemma map_drop {A B : Type} (f : A -> B) (l : list A) : forall n,
  map f (drop n l) = drop n (map f l).
Proof.
  induction l as [|x t IH]; intro n; [reflexivity|].
  cbn [drop map]. destruct (n <=? 0); [reflexivity | apply IH].
Qed.

Lemma len_map {A B : Type} (f : A -> B) (l : list A) : len (map f l) = len l.
Proof. unfold len. now rewrite length_map. Qed.

Lemma take_drop {A : Type} (n : Z) (l : list A) : take n l ++ drop n l = l.
Proof. rewrite take_firstn, drop_skipn. apply firstn_skipn. Qed.

Lemma is_extension_length (ext : cstring) :
  is_extension ext = true -> len ext = 4.
Proof.
  unfold is_extension. intro H.
  apply orb_true_iff in H as [H|H]; [apply orb_true_iff in H as [H|H]|];
    now apply strcasecmp_eq_length in H.
Qed.

(** X1. [has_valid_extension] accepts exactly the names that end in
    one of the three extensions, in any case of letters: such a name is
    accepted whatever stands before the extension, and also when
    nothing does (a name that is nothing but an extension is
    accepted), and no other name is.  So it refuses every name of
    fewer than four bytes, looks at the last four bytes only, and gives
    the same answer on two names that differ in the case of letters
    only. *)
Theorem has_valid_extension_last_four :
  (forall name,
      has_valid_extension name = true <->
      exists stem ext, name = stem ++ ext /\ is_extension ext = true) /\
  (forall ext, is_extension ext = true -> has_valid_extension ext = true) /\
  (forall name, len name < 4 -> has_valid_extension name = false) /\
  (forall stem ext,
      len ext = 4 ->
      has_valid_extension (stem ++ ext) = has_valid_extension ext) /\
  (forall a b,
      map tolower a = map tolower b ->
      has_valid_extension a = has_valid_extension b).
Proof.
  assert (Hlast : forall stem ext,
             len ext = 4 ->
             has_valid_extension (stem ++ ext) = has_valid_extension ext).
  { intros stem ext H. unfold has_valid_extension.
    rewrite len_app, H. pose proof (len_nonneg stem).
    destruct (Z.ltb_spec (len stem + 4) 4); [lia|].
    replace (len stem + 4 - 4) with (len stem) by lia.
    rewrite drop_app_exact. change (4 <? 4) with false. cbn iota.
    change (4 - 4) with 0. now rewrite (drop_nonpos 0 ext) by lia. }
  assert (Hext : forall ext,
             is_extension ext = true -> has_valid_extension ext = true).
  { intros ext H. pose proof (is_extension_length ext H) as Hlen.
    unfold has_valid_extension. rewrite Hlen.
    change (4 <? 4) with false. cbn iota. change (4 - 4) with 0.
    rewrite (drop_nonpos 0 ext) by lia. exact H. }
  split; [|split; [|split; [|split]]].
  - intro name. split.
    + intro H. exists (take (len name - 4) name), (drop (len name - 4) name).
      split; [symmetry; apply take_drop|].
      unfold has_valid_extension in H.
      destruct (len name <? 4); [discriminate | exact H].
    + intros (stem & ext & -> & H).
      rewrite Hlast by now apply is_extension_length.
      now apply Hext.
  - exact Hext.
  - intros name H. unfold has_valid_extension.
    destruct (Z.ltb_spec (len name) 4); [reflexivity | lia].
  - exact Hlast.
  - intros a b H. unfold has_valid_extension, strcasecmp_eq.
    assert (Hlen : len a = len b).
    { rewrite <- (len_map tolower a), <- (len_map tolower b). now rewrite H. }
    rewrite Hlen, !map_drop, H. reflexivity.
Qed.

Lemma has_valid_extension_last_four_witness :
  has_valid_extension (cstr "Game" ++ cstr ".NsP") = true /\
  has_valid_extension (cstr ".xci") = true /\
  has_valid_extension (cstr "ab") = false /\
  has_valid_extension (cstr "notes.txt" ++ cstr ".xci")
  = has_valid_extension (cstr ".xci") /\
  has_valid_extension (cstr "Game.NsP") = has_valid_extension (cstr "game.nsp").
Proof.
  destruct has_valid_extension_last_four
    as (Hiff & Hext & Hshort & Hlast & Hcase).
  split; [|split; [|split; [|split]]].
  - apply Hiff. exists (cstr "Game"), (cstr ".NsP"). split; reflexivity.
  - apply Hext. reflexivity.
  - apply Hshort. vm_compute. reflexivity.
  - apply Hlast. reflexivity.
  - apply Hcase. reflexivity.
Defined.

Lemma find_title_loop_app (a b : list TitleEntry) (name : cstring) :
  find_title_loop (a ++ b) name
  = if existsb (fun e => strcmp_eq (display_name e) name) a
    then find_title_loop a name
    else find_title_loop b name.
Proof.
  induction a as [|e a IH]; [reflexivity|].
  cbn [app find_title_loop existsb].
  destruct (strcmp_eq (display_name e) name); [reflexivity | exact IH].
Qed.

(** X2. Looking a name up after [add_title] has written an entry into a
    free slot: a name that was listed before resolves as before (the
    older entry wins); the name just added, as it was stored (cut at 255
    bytes), resolves to the path just stored; any other name comes back
    unchanged. *)
Theorem find_after_add_title (d_name full name : cstring) (c : TitleCache) :
  0 <= count c < len (entries c) ->
  find_title_path (add_title d_name full c) name
  = if listed c name then find_title_path c name
    else if strcmp_eq (strncpy d_name 255) name
         then strncpy full (MAX_PATH_LEN - 1)
         else name.
Proof.
  intro H. unfold find_title_path, listed.
  rewrite live_add_title by exact H.
  rewrite find_title_loop_app. reflexivity.
Qed.

Lemma find_after_add_title_witness :
  find_title_path (add_title (cstr "d.nsp") (cstr "/titles/d.nsp") listed_cache)
                  (cstr "d.nsp")
  = cstr "/titles/d.nsp" /\
  find_title_path (add_title (cstr "a.nsp") (cstr "/other/a.nsp") listed_cache)
                  (cstr "a.nsp")
  = cstr "/titles/a.nsp".
Proof.
  split.
  - rewrite find_after_add_title; [reflexivity | vm_compute; split; congruence].
  - rewrite find_after_add_title; [reflexivity | vm_compute; split; congruence].
Defined.

Lemma len_titles_of :
  (forall d path, len (titles_of path d) = count_titles d) /\
  (forall es path, len (titles_in path es) = count_titles_in es).
Proof.
  apply node_dirents_ind; try (intros; reflexivity).
  - intros es IH path. cbn [titles_of count_titles]. apply IH.
  - intros name child IHc rest IHr path.
    cbn [titles_in count_titles_in]. rewrite len_app, IHr.
    destruct child; try (rewrite IHc; reflexivity).
    destruct (is_title_name name); reflexivity.
Qed.

(** X3. On a tree that lists children only and whose paths fit the path
    buffer, a rescan of a cache whose array is whole leaves as live
    entries the titles of the tree in the order of the walk (a
    directory's titles where the directory stands among its siblings),
    each with its name and the path that leads to it, cut off after
    [MAX_TITLES]; what the cache held before plays no part. *)
Theorem rescan_lists_the_titles (st : cstring -> node) (work_dir : cstring)
  (root : node) (c : TitleCache) :
  cache_ok c ->
  well_formed work_dir root = true ->
  live (cache_of (rescan st work_dir root c))
  = take MAX_TITLES (titles_of work_dir root) /\
  cache_ok (cache_of (rescan st work_dir root c)).
Proof.
  intros [Hlen Hc] Hwf. unfold rescan.
  assert (Hok : cache_ok (cache_of (mkScan (mkCache (entries c) 0) [] false)))
    by (split; [exact Hlen | cbn; unfold MAX_TITLES; lia]).
  split.
  - rewrite (proj1 (scan_contents st)) by (assumption || reflexivity).
    unfold live at 1. cbn [cache_of count entries].
    now rewrite take_zero.
  - now apply (proj1 (scan_cache_ok st)).
Qed.

Lemma rescan_lists_the_titles_witness :
  live (cache_of (rescan nothing_else (cstr "/titles") sample_tree
                         sample_cache_whole))
  = [ mkEntry (cstr "a.nsp") (cstr "/titles/a.nsp");
      mkEntry (cstr "c.NSZ") (cstr "/titles/sub/c.NSZ");
      mkEntry (cstr "b.xci") (cstr "/titles/b.xci") ].
Proof.
  destruct (rescan_lists_the_titles nothing_else (cstr "/titles") sample_tree
              sample_cache_whole) as [Hlive _].
  - vm_compute. repeat split; congruence.
  - reflexivity.
  - rewrite Hlive. reflexivity.
Defined.

(** ** More on the FileRange handler *)

(** The loop on any stream: what is written is a prefix of the stream,
    in chunks, and never more than was asked for. *)
Lemma stream_loop_bounded (end_off : Z) (fuel : nat) (curr_off : Z)
  (f : FILE) (s : state) :
  0 <= curr_off <= end_off -> end_off < 2 ^ 32 ->
  end_off - curr_off <= Z.of_nat fuel * BUFFER_SEGMENT_DATA_SIZE ->
  exists chunks,
    stream_loop fuel curr_off end_off BUFFER_SEGMENT_DATA_SIZE f s
    = Done tt (mkState (inbound s) (outbound s ++ chunks) (cache s)) /\
    Forall chunk_sized chunks /\
    len (concat chunks) <= end_off - curr_off /\
    concat chunks = take (len (concat chunks)) f.
Proof.
  intros Hc He Hfuel.
  destruct (Z_le_gt_dec (end_off - curr_off) (len f)) as [Hfull|Hshort].
  - destruct (stream_loop_full end_off fuel curr_off f s Hc He Hfull Hfuel)
      as (chunks & Hrun & Hcat & Hall).
    exists chunks. split; [exact Hrun|]. split; [exact Hall|].
    assert (Hl : len (concat chunks) = end_off - curr_off)
      by (rewrite Hcat, len_take; lia).
    split; [lia|]. now rewrite Hl.
  - destruct (stream_loop_short end_off fuel curr_off f s Hc He
                ltac:(lia) Hfuel)
      as (chunks & Hrun & Hcat & Hall).
    pose proof (len_nonneg f) as Hf.
    pose proof (Z.mul_div_le (len f) BUFFER_SEGMENT_DATA_SIZE
                  ltac:(reflexivity)) as Hdiv.
    assert (Hpos : 0 <= len f / BUFFER_SEGMENT_DATA_SIZE
                        * BUFFER_SEGMENT_DATA_SIZE).
    { apply Z.mul_nonneg_nonneg; [|unfold BUFFER_SEGMENT_DATA_SIZE; lia].
      apply Z.div_pos; [lia | reflexivity]. }
    assert (Hl : len (concat chunks)
                 = len f / BUFFER_SEGMENT_DATA_SIZE * BUFFER_SEGMENT_DATA_SIZE)
      by (rewrite Hcat, len_take; lia).
    exists chunks. split; [exact Hrun|]. split.
    + eapply Forall_impl; [|exact Hall]. intros c Hlen.
      unfold chunk_sized. rewrite Hlen. unfold BUFFER_SEGMENT_DATA_SIZE. lia.
    + split; [lia|]. now rewrite Hl.
Qed.

(** Every run of the FileRange handler. *)
Lemma file_range_shape (h : host) (data_size : Z) (s : state) :
  let r := process_file_range_command h data_size s in
  fuelled r /\
  cache (final r) = cache s /\
  (pending r <= length (inbound s) <= pending r + 2)%nat /\
  (outbound (final r)
   = outbound s
     ++ [make_header (order h) CMD_TYPE_ACK CMD_FILE_RANGE data_size]
   \/
   exists payload rest req chunks,
     inbound s = Received payload :: rest /\
     parse_file_range (order h) payload = Some req /\
     outbound (final r)
     = outbound s
       ++ [make_header (order h) CMD_TYPE_ACK CMD_FILE_RANGE data_size;
           make_header (order h) CMD_TYPE_RESPONSE CMD_FILE_RANGE
                       (range_size req)]
       ++ chunks /\
     Forall chunk_sized chunks /\
     len (concat chunks) <= range_size req).
Proof.
  intro r. subst r.
  remember (process_file_range_command h data_size s) as r eqn:Hr.
  unfold process_file_range_command, bind, usb_write, get_cache in Hr.
  cbn [inbound outbound cache] in Hr. unfold pending.
  destruct (malloc_ok h data_size); cbn [negb] in Hr.
  2:{ subst r. cbn. repeat split; try lia. now left. }
  unfold usb_read at 1 in Hr. cbn [inbound outbound cache] in Hr.
  destruct (inbound s) as [|t rest] eqn:Hin.
  { subst r. cbn. repeat split; try lia. now left. }
  assert (Hnil : parse_file_range (order h) [] = None) by reflexivity.
  set (s1 := mkState rest
               (outbound s
                ++ [make_header (order h) CMD_TYPE_ACK CMD_FILE_RANGE
                                data_size])
               (cache s)) in *.
  assert (Hfail : r = Undefined s1 ->
            fuelled r /\ cache (final r) = cache s /\
            (length (inbound (final r)) <= S (length rest)
             <= length (inbound (final r)) + 2)%nat /\
            (outbound (final r)
             = outbound s
               ++ [make_header (order h) CMD_TYPE_ACK CMD_FILE_RANGE
                               data_size]
             \/ exists payload rest0 req chunks,
                 t :: rest = Received payload :: rest0 /\
                 parse_file_range (order h) payload = Some req /\
                 outbound (final r)
                 = outbound s
                   ++ [make_header (order h) CMD_TYPE_ACK CMD_FILE_RANGE
                                   data_size;
                       make_header (order h) CMD_TYPE_RESPONSE
                                   CMD_FILE_RANGE (range_size req)]
                   ++ chunks /\
                 Forall chunk_sized chunks /\
                 len (concat chunks) <= range_size req)).
  { intros ->. cbn. repeat split; try lia. now left. }
  destruct t as [payload|code].
  2:{ cbn [snd] in Hr. rewrite Hnil in Hr. now apply Hfail. }
  destruct (len payload <=? int_of_uint32 data_size); cbn [snd] in Hr.
  2:{ rewrite Hnil in Hr. now apply Hfail. }
  destruct (parse_file_range (order h) payload) as [req|] eqn:Hparse;
    [|now apply Hfail].
  clear Hfail Hnil.
  destruct (parse_file_range_bounds _ _ _ Hparse) as [Hsize _].
  unfold usb_read at 1 in Hr. subst s1. cbn [inbound outbound cache] in Hr.
  rewrite <- !app_assoc in Hr. cbn [app] in Hr.
  set (hdrs := [make_header (order h) CMD_TYPE_ACK CMD_FILE_RANGE data_size;
                make_header (order h) CMD_TYPE_RESPONSE CMD_FILE_RANGE
                            (range_size req)]) in *.
  assert (Hnone : forall rest',
            (length rest' <= length rest)%nat ->
            (S (length rest) <= length rest' + 2)%nat ->
            r = Done tt (mkState rest' (outbound s ++ hdrs) (cache s))
            \/ r = Blocked (mkState rest' (outbound s ++ hdrs) (cache s)) ->
            fuelled r /\ cache (final r) = cache s /\
            (length (inbound (final r)) <= S (length rest)
             <= length (inbound (final r)) + 2)%nat /\
            (outbound (final r)
             = outbound s
               ++ [make_header (order h) CMD_TYPE_ACK CMD_FILE_RANGE
                               data_size]
             \/ exists payload0 rest0 req0 chunks,
                 Received payload :: rest = Received payload0 :: rest0 /\
                 parse_file_range (order h) payload0 = Some req0 /\
                 outbound (final r)
                 = outbound s
                   ++ [make_header (order h) CMD_TYPE_ACK CMD_FILE_RANGE
                                   data_size;
                       make_header (order h) CMD_TYPE_RESPONSE
                                   CMD_FILE_RANGE (range_size req0)]
                   ++ chunks /\
                 Forall chunk_sized chunks /\
                 len (concat chunks) <= range_size req0)).
  { intros rest' H1 H2 [->| ->]; cbn [final fuelled inbound outbound cache];
      (split; [exact I|]); (split; [reflexivity|]); (split; [lia|]);
      right; exists payload, rest, req, []; cbn [concat];
      (split; [reflexivity|]); (split; [exact Hparse|]);
      (split; [now rewrite app_nil_r|]); (split; [constructor|]);
      unfold len; simpl; lia. }
  destruct rest as [|ack rest2].
  { apply (Hnone []); [cbn; lia | cbn; lia |]. right. exact Hr. }
  assert (Hr2 : r = match fopen h (find_title_path (cache s) (nsp_name req))
                    with
                    | Some content =>
                        if negb (malloc_ok h BUFFER_SEGMENT_DATA_SIZE)
                        then Done tt (mkState rest2 (outbound s ++ hdrs)
                                              (cache s))
                        else stream_loop (stream_fuel (range_size req)) 0
                               (range_size req) BUFFER_SEGMENT_DATA_SIZE
                               (fseek (max_offset h) content (range_offset req))
                               (mkState rest2 (outbound s ++ hdrs) (cache s))
                    | None => Done tt (mkState rest2 (outbound s ++ hdrs)
                                               (cache s))
                    end).
  { rewrite Hr. destruct ack as [data|code];
      [destruct (len data <=? 16)|];
      (destruct (fopen h (find_title_path (cache s) (nsp_name req)));
       [destruct (malloc_ok h BUFFER_SEGMENT_DATA_SIZE)|]);
      reflexivity. }
  clear Hr.
  destruct (fopen h (find_title_path (cache s) (nsp_name req)))
    as [content|].
  2:{ apply (Hnone rest2); [cbn; lia | cbn; lia | now left]. }
  destruct (malloc_ok h BUFFER_SEGMENT_DATA_SIZE); cbn [negb] in Hr2.
  2:{ apply (Hnone rest2); [cbn; lia | cbn; lia | now left]. }
  destruct (stream_loop_bounded (range_size req)
              (stream_fuel (range_size req)) 0
              (fseek (max_offset h) content (range_offset req))
              (mkState rest2 (outbound s ++ hdrs) (cache s)))
    as (chunks & Hrun & Hall & Hle & _); try lia.
  { apply stream_fuel_enough. lia. }
  rewrite Hrun in Hr2. subst r. cbn. repeat split; try lia.
  right. exists payload, (ack :: rest2), req, chunks.
  rewrite <- app_assoc. repeat split; auto. lia.
Qed.

(** X4. Whatever the request, the file and the link: the first thing
    the FileRange handler writes is the Ack header echoing the declared
    payload length; if it writes more, what follows is a Response header
    declaring the [range_size] parsed from the payload and then chunks,
    none empty, none larger than [BUFFER_SEGMENT_DATA_SIZE], holding in
    all no more bytes than [range_size].  It reads at most two
    transfers, leaves the cache as it was, and always comes to an end
    within the bound on iterations. *)
Theorem file_range_never_exceeds_range (h : host) (data_size : Z)
  (s : state) :
  let r := process_file_range_command h data_size s in
  let ack_header :=
    make_header (order h) CMD_TYPE_ACK CMD_FILE_RANGE data_size in
  fuelled r /\
  cache (final r) = cache s /\
  (pending r <= length (inbound s) <= pending r + 2)%nat /\
  (outbound (final r) = outbound s ++ [ack_header]
   \/
   exists payload rest req chunks,
     inbound s = Received payload :: rest /\
     parse_file_range (order h) payload = Some req /\
     outbound (final r)
     = outbound s
       ++ [ack_header;
           make_header (order h) CMD_TYPE_RESPONSE CMD_FILE_RANGE
                       (range_size req)]
       ++ chunks /\
     Forall chunk_sized chunks /\
     len (concat chunks) <= range_size req).
Proof. exact (file_range_shape h data_size s). Qed.

(** X5. A name that no live entry of the cache bears is handed to
    [fopen] as it came from the device: if a file of that path can be
    opened and holds the range, its bytes are streamed, whether or not
    it lies under the titles directory.  Before the first List command
    the cache is empty and this is so for every name. *)
Theorem unlisted_name_is_opened_as_path (h : host) (s : state)
  (data_size : Z) (payload : list byte) (ack : transfer)
  (rest : list transfer) (req : FileRangeRequest) (content : list byte) :
  malloc_ok h data_size = true ->
  malloc_ok h BUFFER_SEGMENT_DATA_SIZE = true ->
  inbound s = Received payload :: ack :: rest ->
  len payload <= int_of_uint32 data_size ->
  parse_file_range (order h) payload = Some req ->
  listed (cache s) (nsp_name req) = false ->
  fopen h (nsp_name req) = Some content ->
  range_offset req + range_size req <= len content ->
  len content < 2 ^ 63 ->
  exists chunks,
    process_file_range_command h data_size s
    = Done tt
        (mkState rest
           (outbound s
            ++ [make_header (order h) CMD_TYPE_ACK CMD_FILE_RANGE data_size;
                make_header (order h) CMD_TYPE_RESPONSE CMD_FILE_RANGE
                            (range_size req)]
            ++ chunks)
           (cache s)) /\
    concat chunks = take (range_size req) (drop (range_offset req) content).
Proof.
  intros Hm1 Hm2 Hin Hlen Hparse Hnot Hopen Hrange Hfile.
  destruct (parse_file_range_bounds _ _ _ Hparse) as [Hsize Hoff].
  assert (Hpath : find_title_path (cache s) (nsp_name req) = nsp_name req).
  { unfold find_title_path. apply find_title_loop_absent.
    intros e Hin' Heq. unfold listed in Hnot.
    assert (Hex : existsb (fun e => strcmp_eq (display_name e) (nsp_name req))
                          (live (cache s)) = true).
    { apply existsb_exists. exists e. split; [exact Hin'|].
      rewrite Heq. apply bytes_eqb_refl. }
    congruence. }
  rewrite (file_range_exchange h data_size s payload ack rest req)
    by assumption.
  rewrite Hpath, Hopen, Hm2. cbn [negb].
  rewrite fseek_within by lia.
  destruct (stream_loop_full (range_size req) (stream_fuel (range_size req)) 0
              (drop (range_offset req) content)
              (mkState rest
                 (outbound s
                  ++ [make_header (order h) CMD_TYPE_ACK CMD_FILE_RANGE
                                  data_size;
                      make_header (order h) CMD_TYPE_RESPONSE CMD_FILE_RANGE
                                  (range_size req)])
                 (cache s)))
    as (chunks & Hrun & Hcat & _).
  - lia.
  - lia.
  - rewrite len_drop. lia.
  - apply stream_fuel_enough. lia.
  - exists chunks. rewrite Hrun. cbn [inbound outbound cache].
    rewrite <- app_assoc, Z.sub_0_r in *. split; [reflexivity | exact Hcat].
Qed.

(** X6. A [range_offset] of 2^63 or more reaches [fseek] as a negative
    [long]; [fseek] fails, its result is not looked at, and the bytes
    streamed are those at the start of the file, not those at the
    offset asked for. *)
Theorem huge_offset_is_served_from_the_start (h : host) (s : state)
  (data_size : Z) (payload : list byte) (ack : transfer)
  (rest : list transfer) (req : FileRangeRequest) (content : list byte) :
  malloc_ok h data_size = true ->
  malloc_ok h BUFFER_SEGMENT_DATA_SIZE = true ->
  inbound s = Received payload :: ack :: rest ->
  len payload <= int_of_uint32 data_size ->
  parse_file_range (order h) payload = Some req ->
  fopen h (find_title_path (cache s) (nsp_name req)) = Some content ->
  2 ^ 63 <= range_offset req ->
  range_size req <= len content ->
  exists chunks,
    process_file_range_command h data_size s
    = Done tt
        (mkState rest
           (outbound s
            ++ [make_header (order h) CMD_TYPE_ACK CMD_FILE_RANGE data_size;
                make_header (order h) CMD_TYPE_RESPONSE CMD_FILE_RANGE
                            (range_size req)]
            ++ chunks)
           (cache s)) /\
    concat chunks = take (range_size req) content.
Proof.
  intros Hm1 Hm2 Hin Hlen Hparse Hopen Hhuge Hrange.
  destruct (parse_file_range_bounds _ _ _ Hparse) as [Hsize Hoff].
  rewrite (file_range_exchange h data_size s payload ack rest req)
    by assumption.
  rewrite Hopen, Hm2. cbn [negb].
  rewrite fseek_negative by lia.
  destruct (stream_loop_full (range_size req) (stream_fuel (range_size req)) 0
              content
              (mkState rest
                 (outbound s
                  ++ [make_header (order h) CMD_TYPE_ACK CMD_FILE_RANGE
                                  data_size;
                      make_header (order h) CMD_TYPE_RESPONSE CMD_FILE_RANGE
                                  (range_size req)])
                 (cache s)))
    as (chunks & Hrun & Hcat & _).
  - lia.
  - lia.
  - lia.
  - apply stream_fuel_enough. lia.
  - exists chunks. rewrite Hrun. cbn [inbound outbound cache].
    rewrite <- app_assoc, Z.sub_0_r in *. split; [reflexivity | exact Hcat].
Qed.

Lemma unlisted_name_is_opened_as_path_witness :
  exists chunks,
    process_file_range_command sample_host 30
      (mkState (range_exchange 10 5 (cstr "/titles/a.nsp")) [] empty_cache)
    = Done tt
        (mkState []
           ([] ++ [make_header LittleEndian CMD_TYPE_ACK CMD_FILE_RANGE 30;
                   make_header LittleEndian CMD_TYPE_RESPONSE CMD_FILE_RANGE 10]
            ++ chunks)
           empty_cache) /\
    concat chunks = cstr "56789abcde".
Proof.
  destruct (unlisted_name_is_opened_as_path sample_host
              (mkState (range_exchange 10 5 (cstr "/titles/a.nsp")) []
                       empty_cache)
              30
              (file_range_payload LittleEndian 10 5 13 (cstr "/titles/a.nsp"))
              (Received (make_header LittleEndian CMD_TYPE_ACK CMD_FILE_RANGE 0))
              []
              (mkRequest 10 5 13 (cstr "/titles/a.nsp"))
              sample_file)
    as (chunks & Hrun & Hcat).
  1-9: first [reflexivity | vm_compute; congruence].
  exists chunks. split; [exact Hrun | rewrite Hcat; reflexivity].
Defined.

Lemma huge_offset_is_served_from_the_start_witness :
  exists chunks,
    process_file_range_command sample_host 22
      (mkState (range_exchange 10 (2 ^ 63 + 5) (cstr "a.nsp")) [] listed_cache)
    = Done tt
        (mkState []
           ([] ++ [make_header LittleEndian CMD_TYPE_ACK CMD_FILE_RANGE 22;
                   make_header LittleEndian CMD_TYPE_RESPONSE CMD_FILE_RANGE 10]
            ++ chunks)
           listed_cache) /\
    concat chunks = cstr "0123456789".
Proof.
  destruct (huge_offset_is_served_from_the_start sample_host
              (mkState (range_exchange 10 (2 ^ 63 + 5) (cstr "a.nsp")) []
                       listed_cache)
              22
              (file_range_payload LittleEndian 10 (2 ^ 63 + 5) 5 (cstr "a.nsp"))
              (Received (make_header LittleEndian CMD_TYPE_ACK CMD_FILE_RANGE 0))
              []
              (mkRequest 10 (2 ^ 63 + 5) 5 (cstr "a.nsp"))
              sample_file)
    as (chunks & Hrun & Hcat).
  1-8: first [reflexivity | vm_compute; congruence].
  exists chunks. split; [exact Hrun | rewrite Hcat; reflexivity].
Defined.

(** ** What the loop and the handlers do not look at *)

(** X7. Neither handler looks at the acknowledgement it reads: a run
    ends the same way, writes the same buffers and leaves the same
    cache and as many unread transfers, whatever transfer stands where
    the acknowledgement is expected, be it a header of another kind,
    bytes that are no header, or a failed read. *)
Theorem acknowledgement_is_not_checked (h : host) (ack1 ack2 : transfer)
  (rest : list transfer) (out : list (list byte)) (c : TitleCache) :
  report (process_list_command h (mkState (ack1 :: rest) out c))
  = report (process_list_command h (mkState (ack2 :: rest) out c)) /\
  (forall data_size payload,
      report (process_file_range_command h data_size
                (mkState (Received payload :: ack1 :: rest) out c))
      = report (process_file_range_command h data_size
                  (mkState (Received payload :: ack2 :: rest) out c))).
Proof.
  split.
  - rewrite !list_run. cbn [inbound outbound cache].
    destruct (runaway _); [reflexivity|].
    destruct (malloc_ok h (MAX_TITLES * 256)); cbn [negb]; [|reflexivity].
    destruct (_ <=? _); reflexivity.
  - intros data_size payload.
    unfold process_file_range_command, bind, usb_write, usb_read, get_cache.
    cbn [inbound outbound cache].
    destruct (malloc_ok h data_size); cbn [negb]; [|reflexivity].
    cbn [inbound outbound cache].
    destruct (len payload <=? int_of_uint32 data_size); cbn [snd].
    + destruct (parse_file_range (order h) payload) as [req|];
        [|reflexivity].
      cbn [inbound outbound cache].
      destruct ack1 as [d1|c1], ack2 as [d2|c2];
        try destruct (len d1 <=? 16); try destruct (len d2 <=? 16);
        reflexivity.
    + destruct (parse_file_range (order h) []) as [req|]; [|reflexivity].
      cbn [inbound outbound cache].
      destruct ack1 as [d1|c1], ack2 as [d2|c2];
        try destruct (len d1 <=? 16); try destruct (len d2 <=? 16);
        reflexivity.
Qed.

(** X8. The loop chooses the handler by the command id alone.  Two
    well-framed headers with the same id are served alike whatever
    their type fields (a header typed Response or Ack is obeyed like a
    Request), and, unless the id is FileRange, whatever their payload
    length fields. *)
Theorem dispatch_reads_the_id_only (h : host) (data1 data2 : list byte)
  (hd1 hd2 : CommandHeader) (rest : list transfer) (out : list (list byte))
  (c : TitleCache) :
  len data1 = 16 -> len data2 = 16 ->
  read_header (order h) data1 = Some hd1 ->
  read_header (order h) data2 = Some hd2 ->
  magic_ok hd1 = true -> magic_ok hd2 = true ->
  cmd_id hd1 = cmd_id hd2 ->
  (cmd_id hd1 = CMD_FILE_RANGE -> data_size hd1 = data_size hd2) ->
  poll_iteration h (mkState (Received data1 :: rest) out c)
  = poll_iteration h (mkState (Received data2 :: rest) out c).
Proof.
  intros Hl1 Hl2 Hh1 Hh2 Hm1 Hm2 Hid Hsize.
  rewrite (poll_iteration_dispatch h (mkState (Received data1 :: rest) out c)
             data1 rest hd1 eq_refl Hl1 Hh1 Hm1).
  rewrite (poll_iteration_dispatch h (mkState (Received data2 :: rest) out c)
             data2 rest hd2 eq_refl Hl2 Hh2 Hm2).
  cbn [inbound outbound cache]. rewrite <- Hid.
  destruct (cmd_id hd1 =? CMD_EXIT); [reflexivity|].
  destruct (cmd_id hd1 =? CMD_LIST); [reflexivity|].
  destruct (Z.eqb_spec (cmd_id hd1) CMD_FILE_RANGE); [|reflexivity].
  now rewrite Hsize.
Qed.

Lemma dispatch_reads_the_id_only_witness :
  poll_iteration sample_host
    (mkState [Received (make_header LittleEndian CMD_TYPE_ACK CMD_EXIT 77)]
             [] empty_cache)
  = poll_iteration sample_host
      (mkState [Received (request_header LittleEndian CMD_EXIT 0)]
               [] empty_cache).
Proof.
  apply (dispatch_reads_the_id_only sample_host
           (make_header LittleEndian CMD_TYPE_ACK CMD_EXIT 77)
           (request_header LittleEndian CMD_EXIT 0)
           (mkHeader MAGIC CMD_TYPE_ACK CMD_EXIT 77)
           (mkHeader MAGIC CMD_TYPE_REQUEST CMD_EXIT 0)).
  1-7: reflexivity.
  intro H. vm_compute in H. discriminate.
Defined.

Lemma poll_loop_skips (h : host) (junk : list transfer) :
  Forall discardable junk ->
  forall fuel rest out c,
    poll_loop h (length junk + fuel) (mkState (junk ++ rest) out c)
    = poll_loop h fuel (mkState rest out c).
Proof.
  induction 1 as [|t junk Ht _ IH]; intros fuel rest out c; [reflexivity|].
  cbn [length app Nat.add].
  rewrite (poll_loop_again h _ _ (mkState (junk ++ rest) out c)).
  - apply IH.
  - apply (poll_iteration_discards h
             (mkState (t :: junk ++ rest) out c) t (junk ++ rest) eq_refl Ht).
Qed.

(** X9. Transfers that are no well-framed header (short or long ones,
    ones without the magic tag, failed reads) are passed over without a
    word: a device that sends nothing else gets no answer and the loop
    ends up waiting, and a command that follows them is served as if
    they had not been sent. *)
Theorem junk_is_passed_over (h : host) (junk : list transfer) :
  Forall discardable junk ->
  poll_commands h junk = Blocked (mkState [] [] empty_cache) /\
  (forall fuel rest out c,
      poll_loop h (length junk + fuel) (mkState (junk ++ rest) out c)
      = poll_loop h fuel (mkState rest out c)) /\
  (forall hdr hd rest,
      len hdr = 16 ->
      read_header (order h) hdr = Some hd ->
      magic_ok hd = true ->
      cmd_id hd = CMD_EXIT ->
      poll_commands h (junk ++ Received hdr :: rest)
      = Done tt
          (mkState rest [make_header (order h) CMD_TYPE_RESPONSE CMD_EXIT 0]
                   empty_cache)).
Proof.
  intro Hjunk. split; [|split].
  - unfold poll_commands.
    replace (S (length junk)) with (length junk + 1)%nat by lia.
    rewrite <- (app_nil_r junk) at 2.
    rewrite (poll_loop_skips h junk Hjunk). reflexivity.
  - apply (poll_loop_skips h junk Hjunk).
  - intros hdr hd rest Hlen Hhd Hok Hid. unfold poll_commands.
    rewrite length_app. cbn [length].
    replace (S (length junk + S (length rest)))
      with (length junk + S (S (length rest)))%nat by lia.
    rewrite (poll_loop_skips h junk Hjunk).
    cbn [poll_loop]. unfold bind at 1.
    rewrite (poll_iteration_dispatch h
               (mkState (Received hdr :: rest) [] empty_cache)
               hdr rest hd eq_refl Hlen Hhd Hok).
    rewrite Hid. cbn [Z.eqb CMD_EXIT]. rewrite exit_path. reflexivity.
Qed.

Lemma junk_is_passed_over_witness :
  poll_commands sample_host
    [Failed 4; Received (cstr "DBI"); Received (cstr "0123456789abcdef");
     Received (request_header LittleEndian CMD_EXIT 0);
     Received (request_header LittleEndian CMD_LIST 0)]
  = Done tt
      (mkState [Received (request_header LittleEndian CMD_LIST 0)]
               [make_header LittleEndian CMD_TYPE_RESPONSE CMD_EXIT 0]
               empty_cache).
Proof.
  destruct (junk_is_passed_over sample_host
              [Failed 4; Received (cstr "DBI");
               Received (cstr "0123456789abcdef")])
    as (_ & _ & Hexit).
  - apply Forall_cons; [exact I|].
    apply Forall_cons; [left; vm_compute; discriminate|].
    apply Forall_cons; [right; vm_compute; discriminate|].
    apply Forall_nil.
  - apply (Hexit (request_header LittleEndian CMD_EXIT 0)
                 (mkHeader MAGIC CMD_TYPE_REQUEST CMD_EXIT 0)
                 [Received (request_header LittleEndian CMD_LIST 0)]);
      reflexivity.
Defined.

(** ** The cache through a session *)

Lemma poll_iteration_cache_ok (h : host) (s : state) :
  cache_ok (cache s) -> cache_ok (cache (final (poll_iteration h s))).
Proof.
  intro Hok. unfold poll_iteration. unfold bind at 1.
  pose proof (usb_read_progress 16 s) as Hread.
  destruct (usb_read 16 s) as [r s1|s1|s1|s1]; try contradiction.
  2:{ now subst. }
  destruct Hread as (_ & _ & Hc). rewrite <- Hc in Hok.
  destruct (fst r <? 16); [exact Hok|].
  destruct (read_header (order h) (snd r)) as [hd|]; [|exact Hok].
  destruct (magic_ok hd); cbn [negb]; [|exact Hok].
  destruct (cmd_id hd =? CMD_EXIT); [exact Hok|].
  destruct (cmd_id hd =? CMD_LIST).
  { unfold bind. rewrite list_run.
    assert (Hre : cache_ok (cache_of (rescan (stat h) (work_dir h) (titles h)
                                             (cache s1)))).
    { unfold rescan. apply (proj1 (scan_cache_ok (stat h))).
      destruct Hok as [Hlen _]. split; [exact Hlen|].
      cbn. unfold MAX_TITLES. lia. }
    destruct (runaway _); [exact Hre|].
    destruct (malloc_ok h (MAX_TITLES * 256)); cbn [negb]; [|exact Hre].
    destruct (_ <=? _); [|exact Hre].
    destruct (inbound s1); exact Hre. }
  destruct (cmd_id hd =? CMD_FILE_RANGE); [|exact Hok].
  unfold bind.
  destruct (file_range_shape h (data_size hd) s1) as (_ & Hcache & _).
  destruct (process_file_range_command h (data_size hd) s1);
    cbn [final ret] in *; now rewrite Hcache.
Qed.

(** X10. Through a whole session the cache keeps its array of
    [MAX_TITLES] slots and a count between 0 and [MAX_TITLES]: every
    turn of the loop keeps this, whatever the device sends and whatever
    the tree holds, so [entries[count]] is never written past the
    array and no lookup runs over it. *)
Theorem cache_stays_within_bounds (h : host) :
  (forall s, cache_ok (cache s) ->
             cache_ok (cache (final (poll_iteration h s)))) /\
  (forall fuel s, cache_ok (cache s) ->
                  cache_ok (cache (final (poll_loop h fuel s)))) /\
  (forall device, cache_ok (cache (final (poll_commands h device)))).
Proof.
  assert (Hloop : forall fuel s, cache_ok (cache s) ->
                    cache_ok (cache (final (poll_loop h fuel s)))).
  { induction fuel as [|fuel IH]; intros s Hok; [exact Hok|].
    cbn [poll_loop]. unfold bind.
    pose proof (poll_iteration_cache_ok h s Hok) as Hstep.
    destruct (poll_iteration h s) as [[|] s1|s1|s1|s1]; cbn [final] in *;
      try exact Hstep.
    now apply IH. }
  split; [apply poll_iteration_cache_ok | split; [exact Hloop|]].
  intro device. unfold poll_commands. apply Hloop.
  cbn [cache]. split; [reflexivity | cbn; unfold MAX_TITLES; lia].
Qed.

Lemma cache_stays_within_bounds_witness :
  cache_ok (cache (final (poll_iteration sample_host
                            (mkState [Received (request_header LittleEndian
                                                                CMD_LIST 0)]
                                     [] empty_cache)))).
Proof.
  destruct (cache_stays_within_bounds sample_host) as (Hstep & _).
  apply Hstep. cbn [cache]. split; [reflexivity | cbn; unfold MAX_TITLES; lia].
Defined.

(** ** The payload of a FileRange request *)

Lemma load_stored (o : byte_order) (n : nat) (pre post : list byte)
  (v off : Z) :
  len pre = off ->
  load o (Z.of_nat n)
       (pre ++ in_order o (le_bytes n (v mod 2 ^ (8 * Z.of_nat n))) ++ post)
       off
  = Some (v mod 2 ^ (8 * Z.of_nat n)).
Proof.
  intro Hoff. unfold load.
  pose proof (len_nonneg pre). pose proof (len_nonneg post).
  assert (Hl : len (in_order o (le_bytes n (v mod 2 ^ (8 * Z.of_nat n))))
               = Z.of_nat n).
  { unfold len. now rewrite length_in_order, length_le_bytes. }
  rewrite !len_app, Hl.
  replace ((0 <=? off) && (off + Z.of_nat n <=? len pre + (Z.of_nat n + len post)))
    with true by (symmetry; apply andb_true_iff; split; apply Z.leb_le; lia).
  rewrite <- Hoff, drop_app_exact.
  rewrite <- Hl at 1. rewrite take_app_exact.
  rewrite in_order_involutive, le_value_le_bytes.
  rewrite Z.mod_mod; [reflexivity|].
  apply Z.pow_nonzero; lia.
Qed.

Lemma strncpy_from_terminated (name junk : list byte) : forall n,
  Forall (fun b => b <> x00) name ->
  strncpy_from n (name ++ x00 :: junk) = Some (firstn n name).
Proof.
  induction name as [|b name IH]; intros n Hname.
  - destruct n; reflexivity.
  - destruct n as [|n]; [reflexivity|].
    inversion Hname as [|? ? Hb Hrest]; subst.
    cbn [app strncpy_from firstn].
    destruct (Byte.eqb b x00) eqn:E.
    + apply Byte.byte_dec_bl in E. contradiction.
    + now rewrite IH.
Qed.

Lemma strncpy_from_unterminated (name : list byte) : forall n,
  Forall (fun b => b <> x00) name ->
  (length name < n)%nat ->
  strncpy_from n name = None.
Proof.
  induction name as [|b name IH]; intros n Hname Hlen.
  - destruct n; [simpl in Hlen; lia | reflexivity].
  - destruct n as [|n]; [simpl in Hlen; lia|].
    inversion Hname as [|? ? Hb Hrest]; subst.
    cbn [strncpy_from].
    destruct (Byte.eqb b x00) eqn:E.
    + apply Byte.byte_dec_bl in E. contradiction.
    + rewrite IH; [reflexivity | exact Hrest | simpl in Hlen; lia].
Qed.

(** X11. The handler reads its payload as: [range_size] in the four
    bytes at offset 0, [range_offset] in the eight at offset 4, the name
    length in the four at offset 12, then the name from offset 16 up to
    its first NUL, cut at [MAX_PATH_LEN - 1] bytes; what follows the
    NUL is not looked at.  A payload whose name has no NUL within the
    bytes received and is shorter than [MAX_PATH_LEN - 1] makes the
    copy run past the bytes received: the parse has no defined
    result. *)
Theorem payload_layout (o : byte_order) (size offset name_len : Z)
  (name junk : list byte) :
  Forall (fun b => b <> x00) name ->
  parse_file_range o
    (store32 o size ++ store64 o offset ++ store32 o name_len
     ++ name ++ x00 :: junk)
  = Some (mkRequest (size mod 2 ^ 32) (offset mod 2 ^ 64)
                    (name_len mod 2 ^ 32) (take (MAX_PATH_LEN - 1) name)) /\
  (len name < MAX_PATH_LEN - 1 ->
   parse_file_range o
     (store32 o size ++ store64 o offset ++ store32 o name_len ++ name)
   = None).
Proof.
  intro Hname.
  assert (H8 : len (store64 o offset) = 8).
  { unfold len, store64. now rewrite length_in_order, length_le_bytes. }
  assert (Hloads : forall tail,
    load32 o (store32 o size ++ store64 o offset ++ store32 o name_len
              ++ tail) 0 = Some (size mod 2 ^ 32) /\
    load64 o (store32 o size ++ store64 o offset ++ store32 o name_len
              ++ tail) 4 = Some (offset mod 2 ^ 64) /\
    load32 o (store32 o size ++ store64 o offset ++ store32 o name_len
              ++ tail) 12 = Some (name_len mod 2 ^ 32) /\
    drop 16 (store32 o size ++ store64 o offset ++ store32 o name_len
             ++ tail) = tail).
  { intro tail. split; [|split; [|split]].
    - apply (load_stored o 4 [] _ size 0). reflexivity.
    - apply (load_stored o 8 (store32 o size) _ offset 4).
      apply len_store32.
    - replace (store32 o size ++ store64 o offset ++ store32 o name_len
               ++ tail)
        with ((store32 o size ++ store64 o offset)
              ++ store32 o name_len ++ tail)
        by now rewrite <- app_assoc.
      apply (load_stored o 4 _ _ name_len 12).
      rewrite len_app, len_store32, H8. reflexivity.
    - replace (store32 o size ++ store64 o offset ++ store32 o name_len
               ++ tail)
        with ((store32 o size ++ store64 o offset ++ store32 o name_len)
              ++ tail)
        by now rewrite <- !app_assoc.
      rewrite <- (drop_app_exact
                    (store32 o size ++ store64 o offset ++ store32 o name_len)
                    tail) at 2.
      f_equal. rewrite !len_app, !len_store32, H8. reflexivity. }
  split.
  - destruct (Hloads (name ++ x00 :: junk)) as (H0 & H4 & H12 & Hd).
    unfold parse_file_range. rewrite H0, H4, H12, Hd.
    rewrite strncpy_from_terminated by exact Hname.
    now rewrite take_firstn.
  - intro Hshort.
    destruct (Hloads name) as (H0 & H4 & H12 & Hd).
    unfold parse_file_range. rewrite H0, H4, H12, Hd.
    rewrite strncpy_from_unterminated; [reflexivity | exact Hname |].
    unfold len in Hshort. lia.
Qed.

Lemma payload_layout_witness :
  parse_file_range LittleEndian
    (store32 LittleEndian 10 ++ store64 LittleEndian 5
     ++ store32 LittleEndian 999 ++ cstr "a.nsp" ++ x00 :: cstr "left over")
  = Some (mkRequest 10 5 999 (cstr "a.nsp")) /\
  parse_file_range LittleEndian
    (store32 LittleEndian 10 ++ store64 LittleEndian 5
     ++ store32 LittleEndian 999 ++ cstr "a.nsp")
  = None.
Proof.
  destruct (payload_layout LittleEndian 10 5 999 (cstr "a.nsp")
              (cstr "left over")) as [Hparse Hnone].
  - repeat (apply Forall_cons; [discriminate|]). apply Forall_nil.
  - split; [exact Hparse | apply Hnone; vm_compute; reflexivity].
Defined.

(** ** What a List command answers *)

Lemma find_title_loop_nodup (l : list TitleEntry) (e : TitleEntry) :
  NoDup (map display_name l) -> In e l ->
  find_title_loop l (display_name e) = full_path e.
Proof.
  induction l as [|x l IH]; intros Hnd Hin; [contradiction|].
  cbn [map] in Hnd. inversion Hnd as [|? ? Hx Hl]; subst.
  cbn [find_title_loop]. destruct Hin as [->|Hin].
  - unfold strcmp_eq. now rewrite bytes_eqb_refl.
  - destruct (strcmp_eq (display_name x) (display_name e)) eqn:E.
    + apply bytes_eqb_eq in E. exfalso. apply Hx. rewrite E.
      now apply in_map.
    + now apply IH.
Qed.

(** X12. On a tree that lists children only, whose paths fit and which
    holds fewer than [MAX_TITLES] titles: when the allocation succeeds
    and an acknowledgement arrives, the List handler answers with the
    names of all the titles of the tree (each cut at 255 bytes and
    followed by a newline) in the order of the walk, under a header
    declaring their length; it leaves those titles as the live entries
    of the cache; and if no two titles bear the same name, each name so
    listed then resolves to the path of its title. *)
Theorem list_names_every_title (h : host) (s : state) (ack : transfer)
  (rest : list transfer) :
  cache_ok (cache s) ->
  well_formed (work_dir h) (titles h) = true ->
  count_titles (titles h) < MAX_TITLES ->
  malloc_ok h (MAX_TITLES * 256) = true ->
  inbound s = ack :: rest ->
  let found := titles_of (work_dir h) (titles h) in
  exists c,
    process_list_command h s
    = Done tt
        (mkState rest
           (outbound s
            ++ [make_header (order h) CMD_TYPE_RESPONSE CMD_LIST
                            (len (joined_names found));
                joined_names found])
           c) /\
    live c = found /\
    (NoDup (map display_name found) ->
     forall e, In e found ->
               find_title_path c (display_name e) = full_path e).
Proof.
  intros Hok Hwf Hfew Hmalloc Hin found.
  set (walk := rescan (stat h) (work_dir h) (titles h) (cache s)).
  set (c := cache_of walk).
  assert (Hok0 : cache_ok (cache_of (mkScan (mkCache (entries (cache s)) 0)
                                            [] false))).
  { destruct Hok as [Hlen _]. split; [exact Hlen|].
    cbn. unfold MAX_TITLES. lia. }
  assert (Hback : runaway walk = false).
  { unfold walk, rescan.
    now rewrite (proj1 (scan_keeps_course (stat h))) by assumption. }
  assert (Hlive : live c = found).
  { unfold c, walk, rescan.
    rewrite (proj1 (scan_contents (stat h))) by (assumption || reflexivity).
    unfold live at 1. cbn [cache_of count entries]. rewrite take_zero.
    cbn [app]. apply take_all. unfold found.
    rewrite (proj1 len_titles_of). lia. }
  assert (Hcount : count c = count_titles (titles h)).
  { unfold c, walk, rescan.
    rewrite (proj1 (scan_count (stat h)))
      by (auto; cbn; unfold MAX_TITLES; lia).
    cbn [cache_of count]. lia. }
  pose proof (rescan_payload_bound (stat h) (work_dir h) (titles h) (cache s))
    as Hb.
  cbv zeta in Hb. fold walk in Hb. fold c in Hb. rewrite Hlive, Hcount in Hb.
  exists c. split; [|split].
  - rewrite list_run. fold walk. fold c.
    rewrite Hback, Hlive, Hmalloc, Hin. cbn [negb].
    destruct (Z.leb_spec (len (joined_names found) + 1) (MAX_TITLES * 256));
      [reflexivity|].
    unfold MAX_TITLES in *. lia.
  - exact Hlive.
  - intros Hnd e He. unfold find_title_path. rewrite Hlive.
    now apply find_title_loop_nodup.
Qed.

Lemma list_names_every_title_witness :
  exists c,
    process_list_command sample_host
      (mkState [Failed 7] [] empty_cache)
    = Done tt
        (mkState []
           ([] ++ [make_header LittleEndian CMD_TYPE_RESPONSE CMD_LIST 18;
                   cstr "a.nsp" ++ newline ++ cstr "c.NSZ" ++ newline
                   ++ cstr "b.xci" ++ newline])
           c) /\
    find_title_path c (cstr "c.NSZ") = cstr "/titles/sub/c.NSZ".
Proof.
  destruct (list_names_every_title sample_host
              (mkState [Failed 7] [] empty_cache) (Failed 7) [])
    as (c & Hrun & Hlive & Hfind).
  - split; [reflexivity | cbn; unfold MAX_TITLES; lia].
  - reflexivity.
  - vm_compute. reflexivity.
  - reflexivity.
  - reflexivity.
  - exists c. split; [exact Hrun|].
    apply (Hfind ltac:(vm_compute; repeat constructor; simpl;
                        intuition discriminate)
                 (mkEntry (cstr "c.NSZ") (cstr "/titles/sub/c.NSZ"))).
    vm_compute. right. left. reflexivity.
Defined.

(** ** Opening the link *)

Lemma find_snoc {A : Type} (p : A -> bool) (l : list A) (a : A) :
  find p (l ++ [a])
  = match find p l with
    | Some x => Some x
    | None => if p a then Some a else None
    end.
Proof.
  induction l as [|x l IH]; [reflexivity|].
  cbn [app find]. destruct (p x); [reflexivity | exact IH].
Qed.

Lemma endpoint_loop_last (addrs : list Z) : forall i o,
  endpoint_loop addrs i o
  = (match find is_in_endpoint (rev addrs) with Some a => a | None => i end,
     match find is_out_endpoint (rev addrs) with Some a => a | None => o end).
Proof.
  induction addrs as [|a addrs IH]; intros i o; [reflexivity|].
  cbn [endpoint_loop rev]. rewrite !find_snoc.
  unfold is_in_endpoint at 2, is_out_endpoint at 2.
  destruct (Z.land a LIBUSB_ENDPOINT_IN =? 0); cbn [negb]; rewrite IH;
    destruct (find is_in_endpoint (rev addrs)),
             (find is_out_endpoint (rev addrs)); reflexivity.
Qed.

Lemma last_such_found (p : Z -> bool) (addrs : list Z) :
  last_such p addrs <> 0 ->
  In (last_such p addrs) addrs /\ p (last_such p addrs) = true.
Proof.
  unfold last_such. destruct (find p (rev addrs)) as [a|] eqn:E; [|easy].
  intros _. apply find_some in E as [Hin Hp].
  split; [now apply in_rev | exact Hp].
Qed.

(** X13. When the context is allocated, libusb starts, the device is
    found and claimed and its configuration can be read, [usb_init]
    takes as inbound endpoint the last address of the interface with
    the direction bit set and as outbound endpoint the last one with it
    clear, however many there are of each; it gives up exactly when one
    of the two comes out as 0, which is so whenever the interface has
    no inbound endpoint. *)
Theorem usb_init_takes_the_last_endpoints (vid pid : Z) (e : usb_env)
  (addrs : list Z) :
  ctx_allocated e = true ->
  0 <= libusb_init_ret e ->
  device_present e vid pid = true ->
  0 <= claim_ret e ->
  endpoints e = Some addrs ->
  let i := last_such is_in_endpoint addrs in
  let o := last_such is_out_endpoint addrs in
  fst (usb_init vid pid e)
  = (if (i =? 0) || (o =? 0) then InitFailed
     else Opened (mkUsbContext true true i o)) /\
  (i <> 0 -> In i addrs /\ Z.land i LIBUSB_ENDPOINT_IN <> 0) /\
  (o <> 0 -> In o addrs /\ Z.land o LIBUSB_ENDPOINT_IN = 0) /\
  (Forall (fun a => Z.land a LIBUSB_ENDPOINT_IN = 0) addrs -> i = 0).
Proof.
  intros Hctx Hinit Hdev Hclaim Hep i o.
  split; [|split; [|split]].
  - unfold usb_init. rewrite Hctx, Hdev, Hep. cbn [negb].
    destruct (Z.ltb_spec (libusb_init_ret e) 0); [lia|].
    destruct (Z.ltb_spec (claim_ret e) 0); [lia|].
    rewrite endpoint_loop_last. fold (last_such is_in_endpoint addrs).
    fold (last_such is_out_endpoint addrs). fold i o.
    destruct ((i =? 0) || (o =? 0)); reflexivity.
  - intro Hi. destruct (last_such_found is_in_endpoint addrs Hi) as [Hin Hp].
    split; [exact Hin|]. unfold is_in_endpoint in Hp.
    apply negb_true_iff in Hp. now apply Z.eqb_neq in Hp.
  - intro Ho. destruct (last_such_found is_out_endpoint addrs Ho) as [Hin Hp].
    split; [exact Hin|]. unfold is_out_endpoint in Hp. now apply Z.eqb_eq.
  - intro Hall. subst i. unfold last_such.
    destruct (find is_in_endpoint (rev addrs)) as [a|] eqn:E; [|reflexivity].
    apply find_some in E as [Hin Hp]. apply in_rev in Hin.
    rewrite Forall_forall in Hall. specialize (Hall a Hin).
    unfold is_in_endpoint in Hp. rewrite Hall in Hp. discriminate.
Qed.

Lemma usb_init_takes_the_last_endpoints_witness :
  fst (usb_init SWITCH_VID SWITCH_PID switch_env)
  = Opened (mkUsbContext true true 0x82 0x02).
Proof.
  destruct (usb_init_takes_the_last_endpoints SWITCH_VID SWITCH_PID
              switch_env [0x81; 0x01; 0x82; 0x02]) as (Hres & _).
  1-5: first [reflexivity | vm_compute; congruence].
  rewrite Hres. reflexivity.
Defined.

(** ** What is held of the link *)

Lemma account_app (t1 t2 : list usb_event) : forall held held1,
  account t1 held = Some held1 ->
  account (t1 ++ t2) held = account t2 held1.
Proof.
  induction t1 as [|ev t1 IH]; intros held held1 H.
  - cbn in H. injection H as <-. reflexivity.
  - cbn [app account] in *. destruct ev as [r|r| | |]; try (now apply IH).
    + destruct (holds held r); [discriminate | now apply IH].
    + destruct (holds held r); [now apply IH | discriminate].
Qed.

(** The accounts of one call of [usb_init]. *)
Lemma usb_init_accounts (vid pid : Z) (e : usb_env) :
  match usb_init vid pid e with
  | (InitFailed, t) => account t [] = Some []
  | (Opened ctx, t) =>
      account t [] = Some link_held /\
      account (usb_cleanup (Some ctx)) link_held = Some []
  | (InitAstray, t) =>
      endpoints e = None /\ account t [] = Some link_held
  end.
Proof.
  unfold usb_init.
  destruct (ctx_allocated e); cbn [negb]; [|reflexivity].
  destruct (libusb_init_ret e <? 0); [reflexivity|].
  destruct (device_present e vid pid); cbn [negb]; [|reflexivity].
  destruct (claim_ret e <? 0).
  { destruct (kernel_driver e =? 1); reflexivity. }
  destruct (endpoints e) as [addrs|].
  2:{ destruct (kernel_driver e =? 1); split; reflexivity. }
  destruct (endpoint_loop addrs 0 0) as [i o].
  destruct ((i =? 0) || (o =? 0));
    destruct (kernel_driver e =? 1); try reflexivity; split; reflexivity.
Qed.

(** X14. [usb_init] leaks nothing and frees nothing twice.  When it
    returns NULL, whatever the step that failed, everything it had
    acquired has been released, each thing once.  When it returns a
    context it holds the block, the libusb context, the device handle
    and the claim on interface 0, the configuration descriptor having
    been freed; [usb_cleanup] on that context releases the four.  It
    leaves defined behaviour only when the configuration cannot be
    read, the result of that call not being looked at. *)
Theorem usb_init_leaks_nothing (vid pid : Z) (e : usb_env) :
  (forall t, usb_init vid pid e = (InitFailed, t) -> account t [] = Some []) /\
  (forall ctx t,
      usb_init vid pid e = (Opened ctx, t) ->
      account t [] = Some link_held /\
      account (t ++ usb_cleanup (Some ctx)) [] = Some []) /\
  (forall t, usb_init vid pid e = (InitAstray, t) -> endpoints e = None) /\
  account (usb_cleanup None) [] = Some [].
Proof.
  pose proof (usb_init_accounts vid pid e) as H.
  split; [|split; [|split]].
  - intros t E. now rewrite E in H.
  - intros ctx t E. rewrite E in H. destruct H as [Hheld Hclean].
    split; [exact Hheld|]. now rewrite (account_app _ _ _ _ Hheld).
  - intros t E. rewrite E in H. apply H.
  - reflexivity.
Qed.

Lemma usb_init_leaks_nothing_witness :
  account (snd (usb_init SWITCH_VID SWITCH_PID absent_env)) [] = Some [] /\
  account (snd (usb_init SWITCH_VID SWITCH_PID switch_env)
           ++ usb_cleanup (Some (mkUsbContext true true 0x82 0x02))) []
  = Some [].
Proof.
  split.
  - destruct (usb_init_leaks_nothing SWITCH_VID SWITCH_PID absent_env)
      as (Hfail & _).
    apply Hfail. reflexivity.
  - destruct (usb_init_leaks_nothing SWITCH_VID SWITCH_PID switch_env)
      as (_ & Hopen & _).
    apply (Hopen (mkUsbContext true true 0x82 0x02)). reflexivity.
Defined.

Lemma usb_init_never_sleeps (vid pid : Z) (e : usb_env) :
  filter is_sleep (snd (usb_init vid pid e)) = [].
Proof.
  unfold usb_init.
  destruct (ctx_allocated e); cbn [negb]; [|reflexivity].
  destruct (libusb_init_ret e <? 0); [reflexivity|].
  destruct (device_present e vid pid); cbn [negb]; [|reflexivity].
  destruct (claim_ret e <? 0).
  { destruct (kernel_driver e =? 1); reflexivity. }
  destruct (endpoints e) as [addrs|].
  2:{ destruct (kernel_driver e =? 1); reflexivity. }
  destruct (endpoint_loop addrs 0 0) as [i o].
  destruct ((i =? 0) || (o =? 0));
    destruct (kernel_driver e =? 1); reflexivity.
Qed.

(** The accounts of [connect_to_switch]. *)
Lemma connect_accounts (attempts : list usb_env) :
  account (snd (connect_to_switch attempts)) []
  = Some (match fst (connect_to_switch attempts) with
          | StillWaiting => []
          | _ => link_held
          end).
Proof.
  induction attempts as [|e rest IH]; [reflexivity|].
  cbn [connect_to_switch].
  pose proof (usb_init_accounts SWITCH_VID SWITCH_PID e) as H.
  destruct (usb_init SWITCH_VID SWITCH_PID e) as [[ctx| |] t].
  - apply H.
  - destruct (connect_to_switch rest) as [r t'] eqn:E. cbn [fst snd] in *.
    rewrite (account_app _ _ _ _ H). exact IH.
  - apply H.
Qed.

(** X15. [connect_to_switch] tries again after every failed [usb_init],
    sleeping once in between, and returns the context of the first
    attempt that opens the device: it has then slept as many times as
    attempts failed, holds what that one attempt acquired and nothing
    of the failed ones. *)
Theorem connect_returns_the_first_opening (failed later : list usb_env)
  (good : usb_env) (ctx : UsbContext) :
  Forall (fun e => fst (usb_init SWITCH_VID SWITCH_PID e) = InitFailed)
         failed ->
  fst (usb_init SWITCH_VID SWITCH_PID good) = Opened ctx ->
  let r := connect_to_switch (failed ++ good :: later) in
  fst r = Connected ctx /\
  length (filter is_sleep (snd r)) = length failed /\
  account (snd r) [] = Some link_held /\
  account (snd r ++ usb_cleanup (Some ctx)) [] = Some [].
Proof.
  intros Hfailed Hgood r. subst r.
  assert (Hmain : fst (connect_to_switch (failed ++ good :: later))
                  = Connected ctx /\
                  length (filter is_sleep
                            (snd (connect_to_switch (failed ++ good :: later))))
                  = length failed).
  { induction Hfailed as [|e failed He _ IH].
    - cbn [app connect_to_switch length].
      pose proof (usb_init_never_sleeps SWITCH_VID SWITCH_PID good) as Hs.
      destruct (usb_init SWITCH_VID SWITCH_PID good) as [[c| |] t];
        cbn [fst snd] in *; try discriminate.
      injection Hgood as ->. split; [reflexivity | now rewrite Hs].
    - cbn [app connect_to_switch length].
      pose proof (usb_init_never_sleeps SWITCH_VID SWITCH_PID e) as Hs.
      destruct (usb_init SWITCH_VID SWITCH_PID e) as [[c| |] t];
        cbn [fst snd] in *; try discriminate.
      destruct (connect_to_switch (failed ++ good :: later)) as [r t'].
      cbn [fst snd] in *. destruct IH as [-> Hn].
      split; [reflexivity|].
      rewrite filter_app, Hs. cbn [app filter is_sleep length]. now rewrite Hn. }
  destruct Hmain as [Hres Hsleep].
  pose proof (connect_accounts (failed ++ good :: later)) as Hacc.
  rewrite Hres in Hacc.
  pose proof (usb_init_accounts SWITCH_VID SWITCH_PID good) as Hg.
  destruct (usb_init SWITCH_VID SWITCH_PID good) as [[c| |] t];
    cbn [fst] in Hgood; try discriminate.
  injection Hgood as ->. destruct Hg as [_ Hclean].
  repeat split; try assumption.
  now rewrite (account_app _ _ _ _ Hacc).
Qed.

Lemma connect_returns_the_first_opening_witness :
  fst (connect_to_switch [absent_env; absent_env; switch_env])
  = Connected (mkUsbContext true true 0x82 0x02) /\
  length (filter is_sleep
            (snd (connect_to_switch [absent_env; absent_env; switch_env])))
  = 2%nat.
Proof.
  destruct (connect_returns_the_first_opening [absent_env; absent_env] []
              switch_env (mkUsbContext true true 0x82 0x02))
    as (Hres & Hsleep & _).
  - repeat (apply Forall_cons; [reflexivity|]). apply Forall_nil.
  - reflexivity.
  - split; [exact Hres | exact Hsleep].
Defined.

(** ** The command line *)

Lemma parse_args_help (args : list cstring) : forall d t,
  asks_help args = true -> parse_args args d t = HelpAsked.
Proof.
  induction args as [|a args IH]; intros d t H; [discriminate|].
  cbn [asks_help existsb] in H. cbn [parse_args].
  destruct (strcmp_eq a (cstr "--debug")) eqn:Ed.
  - apply bytes_eqb_eq in Ed. subst a. cbn in H. now apply IH.
  - destruct (strcmp_eq a (cstr "--help")); [reflexivity|].
    cbn [orb] in H. now apply IH.
Qed.

Lemma parse_args_plain (args : list cstring) : forall d t,
  asks_help args = false ->
  exists d',
    parse_args args d t
    = Parsed d' (match rev (plain_args args) with
                 | a :: _ => Some a
                 | [] => t
                 end).
Proof.
  induction args as [|a args IH]; intros d t H.
  - exists d. reflexivity.
  - cbn [asks_help existsb] in H. apply orb_false_iff in H as [Ha Hrest].
    cbn [parse_args plain_args filter]. rewrite Ha.
    destruct (strcmp_eq a (cstr "--debug")); cbn [negb andb].
    + apply (IH true t Hrest).
    + destruct (IH d (Some a) Hrest) as [d' Hd']. exists d'.
      rewrite Hd'. cbn [rev]. fold (plain_args args).
      destruct (rev (plain_args args)); reflexivity.
Qed.

(** X16. "--help" anywhere among the arguments makes [main] print the
    usage and return 0, whatever else is on the command line (a
    directory or none, "--debug" or not) and whatever the machine:
    nothing of the link is touched and nothing is written. *)
Theorem help_ends_main (m : machine) (argv : list cstring) :
  asks_help (tl argv) = true ->
  main m argv = mkRun (Exited 0) true [] [].
Proof.
  intro H. unfold main.
  destruct argv as [|prog [|a args]]; try discriminate.
  assert (Hlen : (len (prog :: a :: args) <? 2) = false).
  { rewrite !len_cons. pose proof (len_nonneg args).
    destruct (Z.ltb_spec (1 + (1 + len args)) 2); [lia | reflexivity]. }
  rewrite Hlen. cbn [tl] in *. now rewrite parse_args_help.
Qed.

Lemma help_ends_main_witness :
  main sample_machine
    [cstr "dbibackend"; cstr "/titles"; cstr "--debug"; cstr "--help"]
  = mkRun (Exited 0) true [] [].
Proof. apply help_ends_main. reflexivity. Defined.

(** X17. Without "--help", only the last argument that is not
    "--debug" counts: it is the titles directory, and the run is the
    run of [main] with that argument alone, earlier directories and the
    place or presence of "--debug" playing no part.  With no such
    argument (no argument at all, or "--debug" only) [main] prints the
    usage and returns 1; when the last one is not a directory it
    returns 1 without the usage.  In both cases the link is not
    touched. *)
Theorem last_argument_is_the_directory (m : machine) (prog : cstring)
  (args : list cstring) :
  asks_help args = false ->
  (plain_args args = [] ->
   main m (prog :: args) = mkRun (Exited 1) true [] []) /\
  (forall earlier dir,
      plain_args args = earlier ++ [dir] ->
      main m (prog :: args) = main m [prog; dir] /\
      (is_directory (m_stat m dir) = false ->
       main m (prog :: args) = mkRun (Exited 1) false [] [])).
Proof.
  intro Hhelp. split.
  - intro Hplain. unfold main. cbn [tl].
    destruct (len (prog :: args) <? 2); [reflexivity|].
    destruct (parse_args_plain args false None Hhelp) as [d' Hp].
    rewrite Hp, Hplain. reflexivity.
  - intros earlier dir Hplain.
    assert (Hone : main m (prog :: args)
                   = if negb (is_directory (m_stat m dir))
                     then mkRun (Exited 1) false [] []
                     else main m [prog; dir]).
    { assert (Hdir : In dir (plain_args args))
        by (rewrite Hplain; apply in_or_app; right; now left).
      unfold plain_args in Hdir. apply filter_In in Hdir as [_ Hflags].
      apply andb_true_iff in Hflags as [Hd Hh].
      apply negb_true_iff in Hd. apply negb_true_iff in Hh.
      unfold main. cbn [tl parse_args]. rewrite Hd, Hh.
      change (len [prog; dir] <? 2) with false. cbn iota.
      destruct args as [|a args];
        [exfalso; cbn in Hplain; destruct earlier; discriminate|].
      assert (Hlen : (len (prog :: a :: args) <? 2) = false).
      { rewrite !len_cons. pose proof (len_nonneg args).
        destruct (Z.ltb_spec (1 + (1 + len args)) 2); [lia | reflexivity]. }
      rewrite Hlen.
      destruct (parse_args_plain (a :: args) false None Hhelp) as [d' Hp].
      rewrite Hp, Hplain, rev_app_distr. cbn [rev app].
      destruct (is_directory (m_stat m dir)); reflexivity. }
    split.
    + rewrite Hone. destruct (is_directory (m_stat m dir)) eqn:E;
        [reflexivity|].
      cbn [negb]. unfold main.
      assert (Hdir : In dir (plain_args args))
        by (rewrite Hplain; apply in_or_app; right; now left).
      unfold plain_args in Hdir. apply filter_In in Hdir as [_ Hflags].
      apply andb_true_iff in Hflags as [Hd Hh].
      apply negb_true_iff in Hd. apply negb_true_iff in Hh.
      cbn [tl parse_args]. rewrite Hd, Hh, E.
      change (len [prog; dir] <? 2) with false. reflexivity.
    + intro E. rewrite Hone, E. reflexivity.
Qed.

Lemma last_argument_is_the_directory_witness :
  main sample_machine
    [cstr "dbibackend"; cstr "/old"; cstr "--debug"; cstr "/titles"]
  = main sample_machine [cstr "dbibackend"; cstr "/titles"] /\
  main sample_machine [cstr "dbibackend"; cstr "--debug"]
  = mkRun (Exited 1) true [] [] /\
  main sample_machine [cstr "dbibackend"; cstr "/titles"; cstr "/old"]
  = mkRun (Exited 1) false [] [].
Proof.
  split; [|split].
  - destruct (last_argument_is_the_directory sample_machine
                (cstr "dbibackend")
                [cstr "/old"; cstr "--debug"; cstr "/titles"])
      as [_ Hlast]; [reflexivity|].
    apply (Hlast [cstr "/old"] (cstr "/titles")). reflexivity.
  - destruct (last_argument_is_the_directory sample_machine
                (cstr "dbibackend") [cstr "--debug"])
      as [Hnone _]; [reflexivity|].
    apply Hnone. reflexivity.
  - destruct (last_argument_is_the_directory sample_machine
                (cstr "dbibackend") [cstr "/titles"; cstr "/old"])
      as [_ Hlast]; [reflexivity|].
    apply (Hlast [cstr "/titles"] (cstr "/old")); reflexivity.
Defined.

(** ** A whole run of [main] *)

Lemma poll_commands_ends_on_exit (h : host) (device : list transfer)
  (s : state) :
  poll_commands h device = Done tt s ->
  exists before,
    outbound s
    = before ++ [make_header (order h) CMD_TYPE_RESPONSE CMD_EXIT 0].
Proof.
  unfold poll_commands. intro H.
  destruct (poll_loop_returns h _ _ _ H) as (s1 & _ & Hlast).
  destruct (poll_iteration_returns h s1 s Hlast)
    as (data & rest & hd & _ & _ & _ & _ & _ & _ & ->).
  now exists (outbound s1).
Qed.

(** What [connect_to_switch] returns can be given back to
    [usb_cleanup]. *)
Lemma connect_cleanup (attempts : list usb_env) (ctx : UsbContext) :
  fst (connect_to_switch attempts) = Connected ctx ->
  account (usb_cleanup (Some ctx)) link_held = Some [].
Proof.
  induction attempts as [|e rest IH]; [discriminate|].
  cbn [connect_to_switch].
  pose proof (usb_init_accounts SWITCH_VID SWITCH_PID e) as H.
  destruct (usb_init SWITCH_VID SWITCH_PID e) as [[c| |] t].
  - cbn [fst]. intro E. injection E as <-. apply H.
  - destruct (connect_to_switch rest) as [r t']. cbn [fst] in *. exact IH.
  - discriminate.
Qed.

(** X18. Whatever the arguments and the machine, when [main] returns it
    returns 0 or 1 and holds nothing of the link: what
    [connect_to_switch] acquired has been released by [usb_cleanup],
    each thing once.  It returns 1 only before touching the link.  When
    it returns 0 after serving, the last buffer written is the
    Exit/Response header.  While it hangs it holds either nothing (it is
    still waiting for the switch) or the opened link (it is waiting for
    a transfer). *)
Theorem main_returns_clean (m : machine) (argv : list cstring) :
  (forall code,
      status (main m argv) = Exited code ->
      (code = 0 \/ code = 1) /\
      account (usb_events (main m argv)) [] = Some []) /\
  (status (main m argv) = Exited 1 ->
   usb_events (main m argv) = [] /\ wire (main m argv) = []) /\
  (status (main m argv) = Exited 0 ->
   usage_printed (main m argv) = false ->
   exists before,
     wire (main m argv)
     = before ++ [make_header (m_order m) CMD_TYPE_RESPONSE CMD_EXIT 0]) /\
  (status (main m argv) = Hangs ->
   account (usb_events (main m argv)) [] = Some []
   \/ account (usb_events (main m argv)) [] = Some link_held).
Proof.
  assert (Hearly : forall code u,
             (code = 0 /\ u = true) \/ code = 1 ->
             let r := mkRun (Exited code) u [] [] in
             (forall c, status r = Exited c ->
                        (c = 0 \/ c = 1) /\ account (usb_events r) [] = Some [])
             /\ (status r = Exited 1 -> usb_events r = [] /\ wire r = [])
             /\ (status r = Exited 0 -> usage_printed r = false ->
                 exists before,
                   wire r = before ++ [make_header (m_order m)
                                         CMD_TYPE_RESPONSE CMD_EXIT 0])
             /\ (status r = Hangs ->
                 account (usb_events r) [] = Some []
                 \/ account (usb_events r) [] = Some link_held)).
  { intros code u Hc. cbn [status usage_printed usb_events wire account].
    split; [|split; [|split]].
    - intros c E. injection E as <-. split; [|reflexivity].
      destruct Hc as [[-> _]| ->]; [now left | now right].
    - intros _. now split.
    - intros E Hu. injection E as ->.
      destruct Hc as [[_ ->]|Hc]; discriminate.
    - discriminate. }
  unfold main.
  destruct (len argv <? 2); [apply Hearly; now right|].
  destruct (parse_args (tl argv) false None) as [|dbg [dir|]];
    [apply Hearly; now left | | apply Hearly; now right].
  destruct (is_directory (m_stat m dir)); cbn [negb];
    [|apply Hearly; now right].
  pose proof (connect_accounts (m_attempts m)) as Hacc.
  pose proof (connect_cleanup (m_attempts m)) as Hgive.
  destruct (connect_to_switch (m_attempts m)) as [[ctx| |] t];
    cbn [fst snd] in Hacc, Hgive.
  - pose proof (poll_commands_ends_on_exit
                  (mkHost (m_order m) (m_malloc_ok m) (m_fopen m) dir
                          (m_stat m dir) (m_stat m) (m_max_offset m))
                  (m_device m)) as Hexit.
    destruct (poll_commands _ (m_device m)) as [[] s|s|s|s];
      cbn [status usage_printed usb_events wire].
    + split; [|split; [|split]]; try discriminate.
      * intros code E. injection E as <-. split; [now left|].
        rewrite (account_app _ _ _ _ Hacc). now apply Hgive.
      * intros _ _. apply (Hexit s eq_refl).
    + split; [|split; [|split]]; try discriminate. intros _. now right.
    + repeat split; discriminate.
    + repeat split; discriminate.
  - cbn [status usage_printed usb_events wire].
    split; [|split; [|split]]; try discriminate. intros _. now left.
  - cbn [status usage_printed usb_events wire].
    repeat split; discriminate.
Qed.

Lemma main_returns_clean_witness :
  status (main sample_machine [cstr "dbibackend"; cstr "/titles"]) = Exited 0 /\
  account (usb_events
             (main sample_machine [cstr "dbibackend"; cstr "/titles"])) []
  = Some [] /\
  exists before,
    wire (main sample_machine [cstr "dbibackend"; cstr "/titles"])
    = before ++ [make_header LittleEndian CMD_TYPE_RESPONSE CMD_EXIT 0].
Proof.
  destruct (main_returns_clean sample_machine
              [cstr "dbibackend"; cstr "/titles"])
    as (Hcode & _ & Hlast & _).
  split; [vm_compute; reflexivity|]. split.
  - apply (Hcode 0). vm_compute. reflexivity.
  - apply Hlast; vm_compute; reflexivity.
Defined.

(** ** Offsets the file system refuses *)



(** ** A name with no NUL after it *)

Lemma drop_fields (o : byte_order) (size offset name_len : Z)
  (tail : list byte) :
  drop 16 (store32 o size ++ store64 o offset ++ store32 o name_len ++ tail)
  = tail.
Proof.
  assert (H16 : len (store32 o size ++ store64 o offset ++ store32 o name_len)
                = 16).
  { rewrite !len_app, !len_store32.
    unfold len, store64. now rewrite length_in_order, length_le_bytes. }
  replace (store32 o size ++ store64 o offset ++ store32 o name_len ++ tail)
    with ((store32 o size ++ store64 o offset ++ store32 o name_len) ++ tail)
    by now rewrite <- !app_assoc.
  rewrite <- H16. apply drop_app_exact.
Qed.

Lemma len_bare_payload (o : byte_order) (size offset : Z) (name : cstring) :
  len (bare_payload o size offset name) = 16 + len name.
Proof.
  unfold bare_payload. rewrite !len_app, !len_store32.
  assert (H8 : len (store64 o offset) = 8)
    by (unfold len, store64; now rewrite length_in_order, length_le_bytes).
  lia.
Qed.

(** [strncpy] finds no NUL among the bytes received and goes on past
    them. *)
Lemma parse_bare_payload (o : byte_order) (size offset : Z) (name : cstring) :
  Forall (fun b => b <> x00) name ->
  len name < MAX_PATH_LEN - 1 ->
  parse_file_range o (bare_payload o size offset name) = None.
Proof.
  intros Hname Hlen. unfold parse_file_range, bare_payload.
  rewrite drop_fields.
  rewrite strncpy_from_unterminated;
    [|exact Hname | unfold len, MAX_PATH_LEN in *; lia].
  repeat match goal with
         | |- match ?x with _ => _ end = _ => destruct x
         end; reflexivity.
Qed.

(** The handler on a payload that is the three fields and the bytes of
    the name: after the Ack header it has no defined behaviour. *)
Lemma file_range_bare_payload (h : host) (s : state) (size offset : Z)
  (name : cstring) (rest : list transfer) :
  Forall (fun b => b <> x00) name ->
  len name < MAX_PATH_LEN - 1 ->
  malloc_ok h (16 + len name) = true ->
  inbound s = Received (bare_payload (order h) size offset name) :: rest ->
  process_file_range_command h (16 + len name) s
  = Undefined
      (mkState rest
         (outbound s
          ++ [make_header (order h) CMD_TYPE_ACK CMD_FILE_RANGE
                          (16 + len name)])
         (cache s)).
Proof.
  intros Hname Hlen Hmalloc Hin.
  pose proof (len_nonneg name) as Hn.
  unfold process_file_range_command.
  unfold bind at 1. unfold usb_write at 1. rewrite Hmalloc. cbn [negb].
  unfold bind at 1. unfold usb_read at 1. cbn [inbound outbound cache].
  rewrite Hin, len_bare_payload.
  assert (Hint : int_of_uint32 (16 + len name) = 16 + len name).
  { unfold int_of_uint32, MAX_PATH_LEN in *.
    destruct (Z.ltb_spec (16 + len name) (2 ^ 31)); lia. }
  rewrite Hint, Z.leb_refl. cbn [snd].
  now rewrite parse_bare_payload by assumption.
Qed.

(** C1. A FileRange request laid out as the specification has it, the
    three fields followed by the bytes of the name, carries no NUL
    after the name.  [strncpy] copies from the payload until it meets a
    NUL or has taken [MAX_PATH_LEN - 1] bytes, so for every such
    request with a name shorter than that it reads past the bytes
    received, and past the block allocated for them: once the Ack
    header is written the handler has no defined behaviour, and it
    writes no byte of the file, whatever file the name resolves to and
    however long that file is. *)
Theorem bare_name_overruns_the_payload (h : host) (s : state)
  (size offset : Z) (name : cstring) (rest : list transfer)
  (content : list byte) :
  Forall (fun b => b <> x00) name ->
  len name < MAX_PATH_LEN - 1 ->
  malloc_ok h (16 + len name) = true ->
  inbound s = Received (bare_payload (order h) size offset name) :: rest ->
  fopen h (find_title_path (cache s) name) = Some content ->
  offset + size <= len content ->
  len (bare_payload (order h) size offset name) = 16 + len name /\
  process_file_range_command h (16 + len name) s
  = Undefined
      (mkState rest
         (outbound s
          ++ [make_header (order h) CMD_TYPE_ACK CMD_FILE_RANGE
                          (16 + len name)])
         (cache s)).
Proof.
  intros Hname Hlen Hmalloc Hin _ _.
  split; [apply len_bare_payload|].
  now apply (file_range_bare_payload h s size offset name rest).
Qed.

Lemma bare_name_overruns_the_payload_witness :
  find_title_path listed_cache (cstr "a.nsp") = cstr "/titles/a.nsp" /\
  fopen sample_host (cstr "/titles/a.nsp") = Some sample_file /\
  5 + 10 <= len sample_file /\
  process_file_range_command sample_host 21
    (mkState
       [Received (bare_payload LittleEndian 10 5 (cstr "a.nsp"));
        Received (make_header LittleEndian CMD_TYPE_ACK CMD_FILE_RANGE 0)]
       [] listed_cache)
  = Undefined
      (mkState
         [Received (make_header LittleEndian CMD_TYPE_ACK CMD_FILE_RANGE 0)]
         [make_header LittleEndian CMD_TYPE_ACK CMD_FILE_RANGE 21]
         listed_cache).
Proof.
  split; [reflexivity|]. split; [reflexivity|].
  split; [vm_compute; congruence|].
  apply (bare_name_overruns_the_payload sample_host
           (mkState
              [Received (bare_payload LittleEndian 10 5 (cstr "a.nsp"));
               Received (make_header LittleEndian CMD_TYPE_ACK
                                     CMD_FILE_RANGE 0)]
              [] listed_cache)
           10 5 (cstr "a.nsp")
           [Received (make_header LittleEndian CMD_TYPE_ACK CMD_FILE_RANGE 0)]
           sample_file).
  - repeat (apply Forall_cons; [discriminate|]). apply Forall_nil.
  - vm_compute. reflexivity.
  - reflexivity.
  - reflexivity.
  - reflexivity.
  - vm_compute. congruence.
Defined.



(** ** A catalog that fills the block *)

Lemma joined_names_full (es : list TitleEntry) :
  forallb (fun e => len (display_name e) =? 255) es = true ->
  len (joined_names es) = 256 * len es.
Proof.
  induction es as [|e es IH]; intro H; [reflexivity|].
  cbn [forallb] in H. apply andb_true_iff in H as [He Hes].
  apply Z.eqb_eq in He.
  rewrite joined_names_cons, !len_app, len_cons, IH by exact Hes.
  change (len newline) with 1. lia.
Qed.

(** C4. At the capacity bound no payload is written at all.  When
    the walk has left [MAX_TITLES] live entries whose
    names are 255 bytes long (the longest a directory entry bears, and
    what [display_name] holds), the names and their newlines take
    [MAX_TITLES * 256] bytes, all of the block, and the NUL that
    [strcat] puts after the last newline falls one byte past its end:
    the handler has no defined behaviour, and has written neither
    header nor payload. *)
Theorem full_catalog_overruns_the_block (h : host) (s : state) :
  let walk := rescan (stat h) (work_dir h) (titles h) (cache s) in
  let c := cache_of walk in
  runaway walk = false ->
  malloc_ok h (MAX_TITLES * 256) = true ->
  len (live c) = MAX_TITLES ->
  forallb (fun e => len (display_name e) =? 255) (live c) = true ->
  len (joined_names (live c)) = MAX_TITLES * 256 /\
  process_list_command h s
  = Undefined (mkState (inbound s) (outbound s) c).
Proof.
  intros walk c Hback Hmalloc Hfull Hlong.
  assert (Hlen : len (joined_names (live c)) = MAX_TITLES * 256)
    by (rewrite (joined_names_full _ Hlong), Hfull; lia).
  split; [exact Hlen|].
  rewrite list_run. fold walk. fold c.
  rewrite Hback, Hmalloc, Hlen. cbn [negb].
  destruct (Z.leb_spec (MAX_TITLES * 256 + 1) (MAX_TITLES * 256));
    [lia | reflexivity].
Qed.

Lemma full_catalog_overruns_the_block_witness :
  let h := packed_host 1024 in
  let s := mkState
             [Received (make_header LittleEndian CMD_TYPE_ACK CMD_LIST 0)]
             [] empty_cache in
  let c := cache_of (rescan (stat h) (work_dir h) (titles h) empty_cache) in
  well_formed (work_dir h) (titles h) = true /\
  count c = MAX_TITLES /\
  process_list_command h s = Undefined (mkState (inbound s) [] c).
Proof.
  intros h s c.
  split; [vm_compute; reflexivity|]. split; [vm_compute; reflexivity|].
  apply (full_catalog_overruns_the_block h s).
  - vm_compute. reflexivity.
  - reflexivity.
  - vm_compute. reflexivity.
  - vm_compute. reflexivity.
Defined.
